(** * vigra [ArrayVectorView] / [ArrayVector] (include/vigra/array_vector.hxx)

  A shallow embedding of the view and the growable array over an explicit
  model of raw memory, followed by the properties of the container that
  the specification states and by further properties of the member
  functions.

  Conventions of the embedding:
  - [size_type] is [unsigned int]: a [Z] reduced with [uint] wherever the
    source computes in that type; [difference_type] is [int] ([sint]).
  - a [pointer] is a [Z] counting element slots; [0] is the null pointer.
  - the memory provider ([std::allocator]) hands out fresh blocks from a
    finite budget and raises [MemoryExhaustion] when the budget is spent.
  - the element type [T] is copied and assigned without exceptions; the
    second element type [U] of the member templates is [T]; an
    [InputIterator] is a pointer into the memory.
  - a [value_type const &] parameter is a reference: it is read where the
    source reads it, not where the call is made.
  - a computation ends in a value, in a C++ exception (the state reached
    when it was thrown is kept), or in undefined behaviour (an access to
    storage that is not allocated, or a read of a slot that holds no
    object). *)

From stdpp Require Import gmap strings list.
From Stdlib Require Import ZArith Lia.

Local Open Scope Z_scope.

(** ** Outcomes of a computation *)

Inductive exn : Type :=
| PreconditionViolation (msg : string)
| MemoryExhaustion.

Inductive outcome (St A : Type) : Type :=
| Ok (a : A) (s : St)
| Throw (e : exn) (s : St)
| Undefined.

Arguments Ok {St A} a s.
Arguments Throw {St A} e s.
Arguments Undefined {St A}.

Definition M (St A : Type) : Type := St -> outcome St A.

Definition ret {St A} (a : A) : M St A := fun s => Ok a s.

Definition bind {St A B} (m : M St A) (k : A -> M St B) : M St B :=
fun s =>
  match m s with
  | Ok a s' => k a s'
  | Throw e s' => Throw e s'
  | Undefined => Undefined
  end.

Definition throw {St A} (e : exn) : M St A := fun s => Throw e s.

Definition undefined {St A} : M St A := fun _ => Undefined.

(** [m] ends in no exception, whatever the state it starts in. *)
Definition no_throw {St A} (m : M St A) : Prop :=
  forall s e s', m s <> Throw e s'.

(** When [m] ends in an exception, the provider has thrown
  [MemoryExhaustion] and the state is the one [m] started in. *)
Definition throws_unchanged {St A} (m : M St A) : Prop :=
  forall s e s', m s = Throw e s' -> e = MemoryExhaustion /\ s' = s.

Declare Scope cxx_scope.
Delimit Scope cxx_scope with cxx.
Notation "x <- m ;; k" := (bind m (fun x => k))
(at level 100, m at next level, right associativity) : cxx_scope.
Notation "m ;; k" := (bind m (fun _ => k))
(at level 100, right associativity) : cxx_scope.
Local Open Scope cxx_scope.

(** Modelled from the spec: [vigra_precondition] is declared in error.hxx,
  which is not part of the sources at hand; the documentation of the
  functions that use it says that a [PreconditionViolation] exception is
  thrown when the condition fails. *)
Definition vigra_precondition {St} (cond : bool) (msg : string) : M St unit :=
if cond then ret tt else throw (PreconditionViolation msg).

(** ** Machine integers *)

(** [unsigned int] *)
Definition uint (x : Z) : Z := x mod 2 ^ 32.

(** [int] *)
Definition sint (x : Z) : Z := (x + 2 ^ 31) mod 2 ^ 32 - 2 ^ 31.

(** ** Raw memory *)

Module Mem.
Section Mem.
Context {T : Type}.

(** A slot of allocated storage either holds no object or a live one. *)
Inductive cell : Type :=
| Raw
| Live (v : T).

(** [cells]: the allocated slots; [blocks]: base address and slot count
    of every block handed out and not yet released; [next]: the first
    address never handed out; [limit]: the end of the budget. *)
Record heap : Type := mkHeap {
  cells : gmap Z cell;
  blocks : gmap Z Z;
  next : Z;
  limit : Z
}.

Definition set_cells (h : heap) (c : gmap Z cell) : heap :=
  mkHeap c (blocks h) (next h) (limit h).

(** [write_cells p l c]: the slots [p, p + length l) of [c] replaced
    by [l]. *)
Fixpoint write_cells (p : Z) (l : list cell) (c : gmap Z cell) : gmap Z cell :=
  match l with
  | [] => c
  | x :: l' => write_cells (p + 1) l' (<[p := x]> c)
  end.

Fixpoint free_cells (n : nat) (p : Z) (c : gmap Z cell) : gmap Z cell :=
  match n with
  | O => c
  | S n' => free_cells n' (p + 1) (delete p c)
  end.

(** [alloc_.allocate(n)] *)
Definition allocate (n : Z) : M heap Z := fun h =>
  if next h + n <=? limit h then
    Ok (next h)
       (mkHeap (write_cells (next h) (replicate (Z.to_nat n) Raw) (cells h))
               (<[next h := n]> (blocks h))
               (next h + n)
               (limit h))
  else Throw MemoryExhaustion h.

(** [alloc_.deallocate(p, n)]: the provider releases the block that
    starts at [p]; the count it is passed plays no role. *)
Definition alloc_deallocate (p : Z) (n : Z) : M heap unit := fun h =>
  match blocks h !! p with
  | Some m =>
      Ok tt (mkHeap (free_cells (Z.to_nat m) p (cells h))
                    (delete p (blocks h))
                    (next h)
                    (limit h))
  | None => Undefined
  end.

(** Read of the object at [p]. *)
Definition load (p : Z) : M heap T := fun h =>
  match cells h !! p with
  | Some (Live v) => Ok v h
  | _ => Undefined
  end.

(** [*p = v]: assignment to the object at [p]. *)
Definition store (p : Z) (v : T) : M heap unit := fun h =>
  match cells h !! p with
  | Some (Live _) => Ok tt (set_cells h (<[p := Live v]> (cells h)))
  | _ => Undefined
  end.

(** [alloc_.construct(p, v)]: placement construction in allocated
    storage. *)
Definition construct (p : Z) (v : T) : M heap unit := fun h =>
  match cells h !! p with
  | Some _ => Ok tt (set_cells h (<[p := Live v]> (cells h)))
  | None => Undefined
  end.

(** [alloc_.destroy(p)] *)
Definition destroy (p : Z) : M heap unit := fun h =>
  match cells h !! p with
  | Some (Live _) => Ok tt (set_cells h (<[p := Raw]> (cells h)))
  | _ => Undefined
  end.

(** A [value_type const &] argument: bound to a temporary, or to an
    object that lives in memory. *)
Inductive cref : Type :=
| Temp (v : T)
| Ref (p : Z).

Definition deref (t : cref) : M heap T :=
  match t with
  | Temp v => ret v
  | Ref p => load p
  end.

(** *** The algorithms of <algorithm> and <memory> over pointer ranges *)

Definition distance (first last : Z) : M heap nat :=
  if last <? first then undefined else ret (Z.to_nat (last - first)).

Fixpoint copy_loop (n : nat) (first d : Z) : M heap unit :=
  match n with
  | O => ret tt
  | S n' => v <- load first ;; store d v ;; copy_loop n' (first + 1) (d + 1)
  end.

(** [std::copy(first, last, d)] *)
Definition std_copy (first last d : Z) : M heap unit :=
  n <- distance first last ;; copy_loop n first d.

Fixpoint copy_backward_loop (n : nat) (last d_last : Z) : M heap unit :=
  match n with
  | O => ret tt
  | S n' =>
      v <- load (last - 1) ;; store (d_last - 1) v ;;
      copy_backward_loop n' (last - 1) (d_last - 1)
  end.

(** [std::copy_backward(first, last, d_last)] *)
Definition std_copy_backward (first last d_last : Z) : M heap unit :=
  n <- distance first last ;; copy_backward_loop n last d_last.

Fixpoint fill_loop (n : nat) (first : Z) (v : cref) : M heap unit :=
  match n with
  | O => ret tt
  | S n' => x <- deref v ;; store first x ;; fill_loop n' (first + 1) v
  end.

(** [std::fill(first, last, v)] *)
Definition std_fill (first last : Z) (v : cref) : M heap unit :=
  n <- distance first last ;; fill_loop n first v.

Fixpoint uninitialized_copy_loop (n : nat) (first d : Z) : M heap unit :=
  match n with
  | O => ret tt
  | S n' =>
      v <- load first ;; construct d v ;;
      uninitialized_copy_loop n' (first + 1) (d + 1)
  end.

(** [std::uninitialized_copy(first, last, d)] *)
Definition uninitialized_copy (first last d : Z) : M heap unit :=
  n <- distance first last ;; uninitialized_copy_loop n first d.

Fixpoint uninitialized_fill_loop (n : nat) (first : Z) (v : cref) : M heap unit :=
  match n with
  | O => ret tt
  | S n' =>
      x <- deref v ;; construct first x ;;
      uninitialized_fill_loop n' (first + 1) v
  end.

(** [std::uninitialized_fill(first, last, v)] *)
Definition uninitialized_fill (first last : Z) (v : cref) : M heap unit :=
  n <- distance first last ;; uninitialized_fill_loop n first v.

Fixpoint destroy_loop (n : nat) (p : Z) : M heap unit :=
  match n with
  | O => ret tt
  | S n' => destroy p ;; destroy_loop n' (p + 1)
  end.

(** Modelled from the spec: [detail::destroy_n(p, n)] is defined in
    memory.hxx, which is not part of the sources at hand; where the
    array calls it the specification has it destroy the live elements
    in question: the destructor of each of the [n] objects from [p]
    on. *)
Definition destroy_n (p : Z) (n : Z) : M heap unit :=
  destroy_loop (Z.to_nat n) p.

(** The element sequence of the [n] objects from [p] on, when every
    slot holds one. *)
Fixpoint contents (c : gmap Z cell) (p : Z) (n : nat) : option (list T) :=
  match n with
  | O => Some []
  | S n' =>
      match c !! p, contents c (p + 1) n' with
      | Some (Live v), Some l => Some (v :: l)
      | _, _ => None
      end
  end.

(** [cells_at c p l]: the slots from [p] on hold exactly the cells [l]. *)
Fixpoint cells_at (c : gmap Z cell) (p : Z) (l : list cell) : Prop :=
  match l with
  | [] => True
  | x :: l' => c !! p = Some x /\ cells_at c (p + 1) l'
  end.

End Mem.
Arguments cell : clear implicits.
Arguments heap : clear implicits.
Arguments cref : clear implicits.
End Mem.

(** ** The view and the array *)

Module vigra.
Import Mem.

(** The comparison [!=] of an element type: [not_equal x y] is the
    result of [x != y]. *)
Class NotEqual (T : Type) : Type := not_equal : T -> T -> bool.

Section Classes.
Context {T : Type}.

(** *** [ArrayVectorView<T>] *)

Record ArrayVectorView : Type := mkView {
  size_ : Z;
  data_ : Z
}.

Definition begin_ (v : ArrayVectorView) : Z := data_ v.
Definition end_ (v : ArrayVectorView) : Z := data_ v + size_ v.

(** [this_type subarray(size_type begin, size_type end) const] *)
Definition subarray (this : ArrayVectorView) (b e : Z) : M (heap T) ArrayVectorView :=
  vigra_precondition ((0 <=? b) && (b <=? e) && (e <=? size_ this))
    "ArrayVectorView::subarray(): Limits out of range." ;;
  ret (mkView (uint (e - b)) (data_ this + b)).

(** [void copyImpl(const ArrayVectorView<U>& rhs)] *)
Definition copyImpl (this rhs : ArrayVectorView) : M (heap T) unit :=
  vigra_precondition (size_ this =? size_ rhs)
    "ArrayVectorView::copy(): shape mismatch." ;;
  if data_ this <=? data_ rhs
  then std_copy (begin_ rhs) (end_ rhs) (begin_ this)
  else std_copy_backward (begin_ rhs) (end_ rhs) (end_ this).

(** [void copy(this_type const & rhs)] *)
Definition copy (this rhs : ArrayVectorView) : M (heap T) unit :=
  if negb (data_ this =? data_ rhs) then copyImpl this rhs else ret tt.

(** [template <class U> void copy(ArrayVectorView<U> const & rhs)]: the
    overload for a view of another element type hands over to [copyImpl]
    without the comparison of the start addresses. *)
Definition copy_U (this rhs : ArrayVectorView) : M (heap T) unit :=
  copyImpl this rhs.

(** [swapData] and [swapDataImpl] are not embedded.  The body of
    [swapDataImpl] compares [size ()] with [rhs.size() ()], a call of
    the [unsigned int] that [rhs.size()] returns, and calls the
    non-const member [copyImpl] on its [const] argument [rhs]: the
    member template cannot be instantiated, and [swapData], which calls
    it, cannot either.  Neither has a run-time behaviour. *)

(** *** [ArrayVector<T, Alloc>] *)

Record ArrayVector : Type := mkArray {
  base_type : ArrayVectorView;
  capacity_ : Z
}.

Definition minimumCapacity : Z := 2.

(** A member function runs on the object it is called on and on the
    memory. *)
Definition St : Type := ArrayVector * heap T.

Definition get_this : M St ArrayVector := fun s => Ok (fst s) s.

Definition set_size_ (n : Z) : M St unit := fun s =>
  Ok tt (mkArray (mkView n (data_ (base_type (fst s)))) (capacity_ (fst s)), snd s).

Definition set_data_ (p : Z) : M St unit := fun s =>
  Ok tt (mkArray (mkView (size_ (base_type (fst s))) p) (capacity_ (fst s)), snd s).

Definition set_capacity_ (n : Z) : M St unit := fun s =>
  Ok tt (mkArray (base_type (fst s)) n, snd s).

(** An operation on the memory alone, inside a member function. *)
Definition on_heap {A} (m : M (heap T) A) : M St A := fun s =>
  match m (snd s) with
  | Ok x h' => Ok x (fst s, h')
  | Throw e h' => Throw e (fst s, h')
  | Undefined => Undefined
  end.

(** [pointer reserve_raw(size_type capacity)] *)
Definition reserve_raw (capacity : Z) : M (heap T) Z :=
  if negb (capacity =? 0) then allocate capacity else ret 0.

(** [void deallocate(pointer data, size_type size)] *)
Definition deallocate (data size : Z) : M (heap T) unit :=
  if negb (data =? 0)
  then destroy_n data size ;; alloc_deallocate data size
  else ret tt.

(** [ArrayVector()] *)
Definition ArrayVector_default : M (heap T) ArrayVector :=
  d <- reserve_raw minimumCapacity ;;
  ret (mkArray (mkView 0 d) minimumCapacity).

(** [ArrayVector(size_type size, value_type const & initial)] *)
Definition ArrayVector_size_init (size : Z) (initial : cref T) : M (heap T) ArrayVector :=
  d <- reserve_raw size ;;
  (if 0 <? size then uninitialized_fill d (d + size) initial else ret tt) ;;
  ret (mkArray (mkView size d) size).

(** [explicit ArrayVector(size_type size)]: the slots are filled with
    [value_type()]. *)
Definition ArrayVector_size `{Inhabited T} (size : Z) : M (heap T) ArrayVector :=
  ArrayVector_size_init size (Temp inhabitant).

(** [ArrayVector(this_type const & rhs)] *)
Definition ArrayVector_copy (rhs : ArrayVector) : M (heap T) ArrayVector :=
  d <- reserve_raw (capacity_ rhs) ;;
  (if 0 <? size_ (base_type rhs)
   then uninitialized_copy (data_ (base_type rhs))
          (data_ (base_type rhs) + size_ (base_type rhs)) d
   else ret tt) ;;
  ret (mkArray (mkView (size_ (base_type rhs)) d) (capacity_ rhs)).

(** [explicit ArrayVector(ArrayVectorView<U> const & rhs)] *)
Definition ArrayVector_from_view (rhs : ArrayVectorView) : M (heap T) ArrayVector :=
  d <- reserve_raw (size_ rhs) ;;
  (if 0 <? size_ rhs
   then uninitialized_copy (data_ rhs) (data_ rhs + size_ rhs) d
   else ret tt) ;;
  ret (mkArray (mkView (size_ rhs) d) (size_ rhs)).

(** [~ArrayVector()] *)
Definition destructor (a : ArrayVector) : M (heap T) unit :=
  deallocate (data_ (base_type a)) (size_ (base_type a)).

(** [void swap(this_type & rhs)]: returns the new state of [rhs]. *)
Definition swap (rhs : ArrayVector) : M St ArrayVector := fun s =>
  Ok (fst s) (rhs, snd s).

(** [void reserve(size_type new_capacity)] *)
Definition reserve (new_capacity : Z) : M St unit :=
  a <- get_this ;;
  if new_capacity <=? capacity_ a then ret tt
  else
    new_data <- on_heap (reserve_raw new_capacity) ;;
    (if 0 <? size_ (base_type a)
     then on_heap (uninitialized_copy (data_ (base_type a))
                     (data_ (base_type a) + size_ (base_type a)) new_data)
     else ret tt) ;;
    on_heap (deallocate (data_ (base_type a)) (size_ (base_type a))) ;;
    set_data_ new_data ;;
    set_capacity_ new_capacity.

(** [void reserve()] *)
Definition reserve0 : M St unit :=
  a <- get_this ;;
  if capacity_ a =? 0 then reserve minimumCapacity
  else if size_ (base_type a) =? capacity_ a then reserve (uint (2 * capacity_ a))
  else ret tt.

(** [void pop_back()] *)
Definition pop_back : M St unit :=
  a <- get_this ;;
  set_size_ (uint (size_ (base_type a) - 1)) ;;
  a <- get_this ;;
  on_heap (destroy (data_ (base_type a) + size_ (base_type a))).

(** [void push_back(value_type const & t)] *)
Definition push_back (t : cref T) : M St unit :=
  reserve0 ;;
  a <- get_this ;;
  v <- on_heap (deref t) ;;
  on_heap (construct (data_ (base_type a) + size_ (base_type a)) v) ;;
  set_size_ (uint (size_ (base_type a) + 1)).

(** [void clear()] *)
Definition clear : M St unit :=
  a <- get_this ;;
  on_heap (destroy_n (data_ (base_type a)) (size_ (base_type a))) ;;
  set_size_ 0.

(** [iterator insert(iterator p, value_type const & v)].  [this->back()]
    is passed to [push_back] as a reference to the last slot. *)
Definition insert (p : Z) (v : cref T) : M St Z :=
  a <- get_this ;;
  let pos := sint (p - begin_ (base_type a)) in
  if p =? end_ (base_type a) then
    push_back v ;;
    a <- get_this ;;
    ret (begin_ (base_type a) + pos)
  else
    push_back (Ref (data_ (base_type a) + uint (size_ (base_type a) - 1))) ;;
    a <- get_this ;;
    let p := begin_ (base_type a) + pos in
    on_heap (std_copy_backward p (end_ (base_type a) - 2) (end_ (base_type a) - 1)) ;;
    x <- on_heap (deref v) ;;
    on_heap (store p x) ;;
    ret p.

(** [iterator insert(iterator p, size_type n, value_type const & v)] *)
Definition insert_n (p : Z) (n : Z) (v : cref T) : M St Z :=
  a <- get_this ;;
  let b := base_type a in
  let pos := sint (p - begin_ b) in
  let new_size := uint (size_ b + n) in
  (if capacity_ a <=? new_size then
     new_data <- on_heap (reserve_raw new_size) ;;
     on_heap (uninitialized_copy (begin_ b) p new_data) ;;
     on_heap (uninitialized_fill (new_data + pos) (new_data + pos + n) v) ;;
     on_heap (uninitialized_copy p (end_ b) (new_data + pos + n)) ;;
     on_heap (deallocate (data_ b) (size_ b)) ;;
     set_capacity_ new_size ;;
     set_data_ new_data
   else if size_ b <=? uint (pos + n) then
     let diff := uint (pos + n - size_ b) in
     on_heap (uninitialized_copy p (end_ b) (end_ b + diff)) ;;
     on_heap (uninitialized_fill (end_ b) (end_ b + diff) v) ;;
     on_heap (std_fill p (end_ b) v)
   else
     let diff := uint (size_ b - (pos + n)) in
     on_heap (uninitialized_copy (end_ b - n) (end_ b) (end_ b)) ;;
     on_heap (std_copy_backward p (p + diff) (end_ b)) ;;
     on_heap (std_fill p (p + n) v)) ;;
  set_size_ new_size ;;
  a <- get_this ;;
  ret (begin_ (base_type a) + pos).

(** [iterator erase(iterator p)] *)
Definition erase (p : Z) : M St Z :=
  a <- get_this ;;
  on_heap (std_copy (p + 1) (end_ (base_type a)) p) ;;
  pop_back ;;
  ret p.

(** [iterator erase(iterator p, iterator q)] *)
Definition erase_range (p q : Z) : M St Z :=
  a <- get_this ;;
  on_heap (std_copy q (end_ (base_type a)) p) ;;
  let eraseCount := uint (q - p) in
  on_heap (destroy_n (end_ (base_type a) - eraseCount) eraseCount) ;;
  set_size_ (uint (size_ (base_type a) - eraseCount)) ;;
  ret p.

(** The argument of [operator=]: this very object, or another array. *)
Inductive array_ref : Type :=
| SameObject
| Other (rhs : ArrayVector).

(** [this_type & operator=(this_type const & rhs)] *)
Definition operator_assign (rhs : array_ref) : M St unit :=
  match rhs with
  | SameObject => ret tt
  | Other rhs =>
      a <- get_this ;;
      if size_ (base_type a) =? size_ (base_type rhs)
      then on_heap (copyImpl (base_type a) (base_type rhs))
      else
        t <- on_heap (ArrayVector_copy rhs) ;;
        t <- swap t ;;
        on_heap (destructor t)
  end.

(** *** Further members of [ArrayVectorView<T>] *)

(** [this_type & operator=(this_type const & rhs)]: the view after the
    assignment is returned. *)
Definition view_operator_assign (this rhs : ArrayVectorView)
  : M (heap T) ArrayVectorView :=
  if data_ this =? 0 then ret (mkView (size_ rhs) (data_ rhs))
  else if negb (data_ this =? data_ rhs) then copyImpl this rhs ;; ret this
  else ret this.

(** [void init(U const & initial)] *)
Definition init (this : ArrayVectorView) (initial : cref T) : M (heap T) unit :=
  std_fill (begin_ this) (end_ this) initial.

(** [reference front()] read as a value. *)
Definition front (this : ArrayVectorView) : M (heap T) T :=
  load (data_ this).

(** [reference back()] read as a value: the index [size_-1] is computed
    in [size_type]. *)
Definition back (this : ArrayVectorView) : M (heap T) T :=
  load (data_ this + uint (size_ this - 1)).

(** [reference operator[](size_type i)] read as a value. *)
Definition operator_index (this : ArrayVectorView) (i : Z) : M (heap T) T :=
  load (data_ this + i).

(** [bool isInside(difference_type const & p) const]: [p >= 0] compares
    two [int]s, [p < size_] converts [p] to [unsigned int]. *)
Definition isInside (this : ArrayVectorView) (p : Z) : bool :=
  (0 <=? p) && (uint p <? size_ this).

(** The loop of [operator==]: [k] runs over the [n] indices that are
    left, [p] and [q] are the slots [data_ + k] and [rhs.data() + k];
    the elements are compared with the [!=] of the element type. *)
Fixpoint equal_loop `{NotEqual T} (n : nat) (p q : Z) : M (heap T) bool :=
  match n with
  | O => ret true
  | S n' =>
      x <- load p ;; y <- load q ;;
      if not_equal x y then ret false else equal_loop n' (p + 1) (q + 1)
  end.

(** [bool operator==(ArrayVectorView<U> const & rhs) const] *)
Definition operator_eq `{NotEqual T} (this rhs : ArrayVectorView)
  : M (heap T) bool :=
  if negb (size_ this =? size_ rhs) then ret false
  else equal_loop (Z.to_nat (size_ this)) (data_ this) (data_ rhs).

(** [bool operator!=(ArrayVectorView<U> const & rhs) const] *)
Definition operator_ne `{NotEqual T} (this rhs : ArrayVectorView)
  : M (heap T) bool :=
  b <- operator_eq this rhs ;; ret (negb b).

(** *** Further members of [ArrayVector<T, Alloc>] *)

(** [ArrayVector(InputIterator i, InputIterator end)] for pointers into
    the memory: [std::distance(i, end)] is [end - i], converted to
    [size_type]; the copy is not guarded by a test of the length. *)
Definition ArrayVector_range (i e : Z) : M (heap T) ArrayVector :=
  let size := uint (e - i) in
  d <- reserve_raw size ;;
  uninitialized_copy i e d ;;
  ret (mkArray (mkView size d) size).

(** [this_type & operator=(ArrayVectorView<U> const & rhs)] *)
Definition operator_assign_view (rhs : ArrayVectorView) : M St unit :=
  a <- get_this ;;
  if size_ (base_type a) =? size_ rhs
  then on_heap (copyImpl (base_type a) rhs)
  else
    t <- on_heap (ArrayVector_from_view rhs) ;;
    t <- swap t ;;
    on_heap (destructor t).

(** [iterator insert(iterator p, InputIterator i, InputIterator iend)]
    for pointers into the memory; [n], [pos] and [new_size] are
    [size_type]. *)
Definition insert_range (p i iend : Z) : M St Z :=
  a <- get_this ;;
  let b := base_type a in
  let n := uint (iend - i) in
  let pos := uint (p - begin_ b) in
  let new_size := uint (size_ b + n) in
  (if capacity_ a <=? new_size then
     new_data <- on_heap (reserve_raw new_size) ;;
     on_heap (uninitialized_copy (begin_ b) p new_data) ;;
     on_heap (uninitialized_copy i iend (new_data + pos)) ;;
     on_heap (uninitialized_copy p (end_ b) (new_data + pos + n)) ;;
     on_heap (deallocate (data_ b) (size_ b)) ;;
     set_capacity_ new_size ;;
     set_data_ new_data
   else if size_ b <=? uint (pos + n) then
     let diff := uint (pos + n - size_ b) in
     on_heap (uninitialized_copy p (end_ b) (end_ b + diff)) ;;
     on_heap (uninitialized_copy (iend - diff) iend (end_ b)) ;;
     on_heap (std_copy i (iend - diff) p)
   else
     let diff := uint (size_ b - (pos + n)) in
     on_heap (uninitialized_copy (end_ b - n) (end_ b) (end_ b)) ;;
     on_heap (std_copy_backward p (p + diff) (end_ b)) ;;
     on_heap (std_copy i iend p)) ;;
  set_size_ new_size ;;
  a <- get_this ;;
  ret (begin_ (base_type a) + pos).

(** [void resize(size_type new_size, value_type const & initial)] *)
Definition resize (new_size : Z) (initial : cref T) : M St unit :=
  a <- get_this ;;
  if new_size <? size_ (base_type a) then
    erase_range (begin_ (base_type a) + new_size) (end_ (base_type a)) ;;
    ret tt
  else if size_ (base_type a) <? new_size then
    insert_n (end_ (base_type a)) (uint (new_size - size_ (base_type a))) initial ;;
    ret tt
  else ret tt.

(** *** What a view and an array hold *)

(** The view [v] ranges over live objects with the values [l]. *)
Definition views (v : ArrayVectorView) (h : heap T) (l : list T) : Prop :=
  size_ v = Z.of_nat (length l) /\
  cells_at (cells h) (data_ v) (Live <$> l).

(** The array [a] is in the state the class maintains and holds the
    element sequence [l]: the length is the number of elements and at
    most the capacity; the block of [capacity_] slots at [data_] has the
    elements in its first slots and no objects in the others; an array
    without capacity has the null pointer, any other owns its block; the
    block lies below the addresses the provider has not handed out. *)
Definition owns (a : ArrayVector) (h : heap T) (l : list T) : Prop :=
  size_ (base_type a) = Z.of_nat (length l) /\
  size_ (base_type a) <= capacity_ a < 2 ^ 32 /\
  cells_at (cells h) (data_ (base_type a))
    ((Live <$> l) ++ replicate (Z.to_nat (capacity_ a) - length l) Raw) /\
  ((capacity_ a = 0 /\ data_ (base_type a) = 0) \/
   (0 < capacity_ a /\ 0 < data_ (base_type a) /\
    blocks h !! data_ (base_type a) = Some (capacity_ a))) /\
  0 < next h /\ data_ (base_type a) + capacity_ a <= next h.

(** The array [a] with the length [n], in the same block. *)
Definition resized (a : ArrayVector) (n : Z) : ArrayVector :=
  mkArray (mkView n (data_ (base_type a))) (capacity_ a).

(** The memory after the provider has handed out a block of [length l]
    slots and copies of the objects [l] have been constructed in it. *)
Definition fresh_copy (h : heap T) (l : list T) : heap T :=
  mkHeap (write_cells (next h) (Live <$> l) (cells h))
         (<[next h := Z.of_nat (length l)]> (blocks h))
         (next h + Z.of_nat (length l)) (limit h).

(** An array built in [h] from the objects [l], with the capacity
    [length l]: it has the null pointer when [l] is empty and the block
    of [fresh_copy] otherwise. *)
Definition array_of (h : heap T) (l : list T) : ArrayVector :=
  mkArray (mkView (Z.of_nat (length l)) (if length l is O then 0 else next h))
          (Z.of_nat (length l)).

(** The memory in which [array_of h l] lives. *)
Definition heap_of (h : heap T) (l : list T) : heap T :=
  if length l is O then h else fresh_copy h l.

(** The capacity that [reserve()] leaves. *)
Definition grown (a : ArrayVector) : Z :=
  if capacity_ a =? 0 then minimumCapacity
  else if size_ (base_type a) =? capacity_ a then 2 * capacity_ a
  else capacity_ a.

(** The argument [t] has the value [v] and is no element of [a]: a
    temporary, or an object outside the block of [a]. *)
Definition refers (t : cref T) (a : ArrayVector) (h : heap T) (v : T) : Prop :=
  match t with
  | Temp x => x = v
  | Ref p =>
      cells h !! p = Some (Live v) /\ p < next h /\
      ~ (data_ (base_type a) <= p < data_ (base_type a) + capacity_ a)
  end.

(** The argument [t] has the value [v] in the memory [h]: a temporary,
    or a live object anywhere. *)
Definition holds (t : cref T) (h : heap T) (v : T) : Prop :=
  match t with
  | Temp x => x = v
  | Ref p => cells h !! p = Some (Live v)
  end.

(** No index has elements of [l1] and [l2] that differ by the [!=] of
    the element type. *)
Definition none_differ `{NotEqual T} (l1 l2 : list T) : bool :=
  forallb (fun xy => negb (not_equal xy.1 xy.2)) (zip l1 l2).

End Classes.
End vigra.

(** ** Concrete states *)

Module Examples.
Import Mem vigra.

Definition cells_of (l : list (Z * cell Z)) : gmap Z (cell Z) := list_to_map l.

(** The elements of the [n] slots from [p] on after running [m] in [h]. *)
Definition elements_after {A} (m : M (heap Z) A) (h : heap Z) (p : Z) (n : nat)
  : option (list Z) :=
  match m h with
  | Ok _ h' => contents (cells h') p n
  | _ => None
  end.

(** The elements of the array after running the member function [m] on
    the array and the memory [s]. *)
Definition array_after {A} (m : M (St (T:=Z)) A) (s : ArrayVector * heap Z)
  : option (list Z) :=
  match m s with
  | Ok _ (a, h) =>
      contents (cells h) (data_ (base_type a)) (Z.to_nat (size_ (base_type a)))
  | _ => None
  end.

(** The array [1, 2, 3, 4]: a block of four slots at address 1. *)
Definition h1234 : heap Z :=
  mkHeap (cells_of [(1, Live 1); (2, Live 2); (3, Live 3); (4, Live 4)])
         {[1 := 4]} 5 100.

Definition whole : ArrayVectorView := mkView 4 1.

(** The array [1, 2, 3] with length and capacity 3. *)
Definition h123 : heap Z :=
  mkHeap (cells_of [(1, Live 1); (2, Live 2); (3, Live 3)]) {[1 := 3]} 4 100.

Definition a123 : ArrayVector := mkArray (mkView 3 1) 3.

(** The array [1, 2, 3] with capacity 4. *)
Definition h123r : heap Z :=
  mkHeap (cells_of [(1, Live 1); (2, Live 2); (3, Live 3); (4, Raw)])
         {[1 := 4]} 5 100.

Definition a123r : ArrayVector := mkArray (mkView 3 1) 4.

(** The array [1, 2] with capacity 2, with capacity 3 and with
    capacity 5. *)
Definition h12 : heap Z :=
  mkHeap (cells_of [(1, Live 1); (2, Live 2)]) {[1 := 2]} 3 100.

Definition a12 : ArrayVector := mkArray (mkView 2 1) 2.

Definition h12r : heap Z :=
  mkHeap (cells_of [(1, Live 1); (2, Live 2); (3, Raw)]) {[1 := 3]} 4 100.

Definition a12r : ArrayVector := mkArray (mkView 2 1) 3.

Definition h12w : heap Z :=
  mkHeap (cells_of [(1, Live 1); (2, Live 2); (3, Raw); (4, Raw); (5, Raw)])
         {[1 := 5]} 6 100.

Definition a12w : ArrayVector := mkArray (mkView 2 1) 5.

(** Two arrays in one memory, [1, 2] at address 1 and [7, 8, 9] at
    address 3; [lim] is the end of the provider's budget. *)
Definition h_two (lim : Z) : heap Z :=
  mkHeap (cells_of [(1, Live 1); (2, Live 2); (3, Live 7); (4, Live 8); (5, Live 9)])
         {[1 := 2; 3 := 3]} 6 lim.

Definition b789 : ArrayVector := mkArray (mkView 3 3) 3.

(** The same with [7, 8] in the second block. *)
Definition h_two' : heap Z :=
  mkHeap (cells_of [(1, Live 1); (2, Live 2); (3, Live 7); (4, Live 8); (5, Raw)])
         {[1 := 2; 3 := 3]} 6 100.

Definition b78 : ArrayVector := mkArray (mkView 2 3) 3.

(** The array [1, 2] with capacity 5 at address 1 and the array
    [7, 8, 9] at address 6. *)
Definition h12w_789 : heap Z :=
  mkHeap (cells_of [(1, Live 1); (2, Live 2); (3, Raw); (4, Raw); (5, Raw);
                    (6, Live 7); (7, Live 8); (8, Live 9)])
         {[1 := 5; 6 := 3]} 9 100.

(** A memory in which nothing is allocated. *)
Definition h_empty : heap Z := mkHeap ∅ ∅ 1 100.




(** [!=] on integers. *)
#[export] Instance Z_not_equal : NotEqual Z := fun x y => negb (x =? y).

End Examples.

(** * Properties *)

Import Mem vigra.

(** ** Memory: writes, frames and the algorithms over ranges *)

Section MemoryLemmas.
Context {T : Type}.
Implicit Types (c : gmap Z (cell T)) (l : list (cell T)) (h : heap T).

Lemma set_cells_id h : set_cells h (cells h) = h.
Proof. by destruct h. Qed.

Lemma write_cells_notin p l c q :
  q < p ∨ p + Z.of_nat (length l) ≤ q → write_cells p l c !! q = c !! q.
Proof.
  revert p c. induction l as [|x l IH]; intros p c Hq; simpl in *; [done|].
  rewrite IH by lia. apply lookup_insert_ne. lia.
Qed.

Lemma write_cells_in p l c i x :
  l !! i = Some x → write_cells p l c !! (p + Z.of_nat i) = Some x.
Proof.
  revert p c i. induction l as [|y l IH]; intros p c [|i] Hi; simpl in *; try done.
  - injection Hi as ->. rewrite write_cells_notin by lia.
    replace (p + Z.of_nat 0) with p by lia. apply lookup_insert_eq.
  - replace (p + Z.of_nat (S i)) with (p + 1 + Z.of_nat i) by lia. by apply IH.
Qed.

Lemma write_cells_app p l1 l2 c :
  write_cells p (l1 ++ l2) c
  = write_cells (p + Z.of_nat (length l1)) l2 (write_cells p l1 c).
Proof.
  revert p c. induction l1 as [|x l1 IH]; intros p c; simpl.
  - f_equal. lia.
  - rewrite IH. f_equal. lia.
Qed.

Lemma write_cells_insert p l c k x :
  k < p ∨ p + Z.of_nat (length l) ≤ k →
  write_cells p l (<[k:=x]> c) = <[k:=x]> (write_cells p l c).
Proof.
  revert p c. induction l as [|y l IH]; intros p c Hk; simpl in *; [done|].
  rewrite <- IH by lia. f_equal. apply insert_insert_ne. lia.
Qed.

Lemma write_cells_snoc p l x c :
  write_cells p (l ++ [x]) c = <[p + Z.of_nat (length l) := x]> (write_cells p l c).
Proof. by rewrite write_cells_app. Qed.

Lemma write_cells_comm p1 l1 p2 l2 c :
  p1 + Z.of_nat (length l1) ≤ p2 ∨ p2 + Z.of_nat (length l2) ≤ p1 →
  write_cells p1 l1 (write_cells p2 l2 c) = write_cells p2 l2 (write_cells p1 l1 c).
Proof.
  revert p1 c. induction l1 as [|x l1 IH]; intros p1 c Hd; simpl in *; [done|].
  rewrite <- write_cells_insert by lia. apply IH. lia.
Qed.

Lemma free_cells_notin n p c q :
  q < p ∨ p + Z.of_nat n ≤ q → free_cells n p c !! q = c !! q.
Proof.
  revert p c. induction n as [|n IH]; intros p c Hq; simpl; [done|].
  rewrite IH by lia. apply lookup_delete_ne. lia.
Qed.

Lemma free_cells_in n p c q :
  p ≤ q < p + Z.of_nat n → free_cells n p c !! q = None.
Proof.
  revert p c. induction n as [|n IH]; intros p c Hq; simpl; [lia|].
  destruct (decide (q = p)) as [->|Hne].
  - rewrite free_cells_notin by lia. apply lookup_delete_eq.
  - apply IH. lia.
Qed.

Lemma cells_at_lookup c p l :
  cells_at c p l ↔ ∀ i x, l !! i = Some x → c !! (p + Z.of_nat i) = Some x.
Proof.
  revert p. induction l as [|y l IH]; intros p; simpl.
  - split; [intros _ i x Hi; done | done].
  - rewrite IH. split.
    + intros [H0 Hl] [|i] x Hi; simpl in *.
      * injection Hi as <-. by replace (p + Z.of_nat 0) with p by lia.
      * replace (p + Z.of_nat (S i)) with (p + 1 + Z.of_nat i) by lia. by apply Hl.
    + intros H. split.
      * replace p with (p + Z.of_nat 0) by lia. by apply H.
      * intros i x Hi. replace (p + 1 + Z.of_nat i) with (p + Z.of_nat (S i)) by lia. by apply H.
Qed.

Lemma cells_at_app c p l1 l2 :
  cells_at c p (l1 ++ l2)
  ↔ cells_at c p l1 ∧ cells_at c (p + Z.of_nat (length l1)) l2.
Proof.
  revert p. induction l1 as [|x l1 IH]; intros p; simpl.
  - replace (p + Z.of_nat 0) with p by lia. tauto.
  - rewrite IH. replace (p + 1 + Z.of_nat (length l1)) with (p + Z.of_nat (S (length l1))) by lia. tauto.
Qed.

Lemma cells_at_frame c c' p l :
  cells_at c p l →
  (∀ q, p ≤ q < p + Z.of_nat (length l) → c' !! q = c !! q) →
  cells_at c' p l.
Proof.
  revert p. induction l as [|x l IH]; intros p; simpl; [done|].
  intros [H0 Hl] Hfr. split.
  - rewrite Hfr by lia. done.
  - apply IH; [done|]. intros q Hq. apply Hfr. lia.
Qed.

Lemma cells_at_write_same c p l : cells_at (write_cells p l c) p l.
Proof. apply cells_at_lookup. intros i x Hi. by apply write_cells_in. Qed.

Lemma cells_at_write_other c p l q l' :
  q + Z.of_nat (length l') ≤ p ∨ p + Z.of_nat (length l) ≤ q →
  cells_at c q l' → cells_at (write_cells p l c) q l'.
Proof.
  intros Hd H. eapply cells_at_frame; [done|].
  intros k Hk. apply write_cells_notin. lia.
Qed.

Lemma cells_at_insert_other c k x q l' :
  k < q ∨ q + Z.of_nat (length l') ≤ k →
  cells_at c q l' → cells_at (<[k:=x]> c) q l'.
Proof.
  intros Hd H. eapply cells_at_frame; [done|].
  intros j Hj. apply lookup_insert_ne. lia.
Qed.

Lemma contents_live c p (l : list T) :
  cells_at c p (Live <$> l) → contents c p (length l) = Some l.
Proof.
  revert p. induction l as [|v l IH]; intros p; simpl; [done|].
  intros [-> Hl]. by rewrite IH.
Qed.

(** *** One step of each primitive *)

Lemma length_live (l : list T) : length (Live <$> l) = length l.
Proof. apply length_fmap. Qed.

Lemma load_live h p (v : T) : cells h !! p = Some (Live v) → load p h = Ok v h.
Proof. unfold load. by intros ->. Qed.

Lemma store_live h p (v w : T) :
  cells h !! p = Some (Live w) →
  store p v h = Ok tt (set_cells h (<[p := Live v]> (cells h))).
Proof. unfold store. by intros ->. Qed.

Lemma construct_alloc h p (v : T) x :
  cells h !! p = Some x →
  construct p v h = Ok tt (set_cells h (<[p := Live v]> (cells h))).
Proof. unfold construct. by intros ->. Qed.

Lemma destroy_live h p (w : T) :
  cells h !! p = Some (Live w) →
  destroy p h = Ok tt (set_cells h (<[p := Raw]> (cells h))).
Proof. unfold destroy. by intros ->. Qed.

Lemma bind_Ok {St A B} (m : M St A) (k : A → M St B) s a s' :
  m s = Ok a s' → bind m k s = k a s'.
Proof. unfold bind. by intros ->. Qed.

(** *** The loops *)

(** Forward copy into slots that hold objects. *)
Lemma copy_loop_spec h first d (l ld : list T) :
  cells_at (cells h) first (Live <$> l) →
  cells_at (cells h) d (Live <$> ld) →
  length ld = length l →
  d ≤ first ∨ first + Z.of_nat (length l) ≤ d →
  copy_loop (length l) first d h
  = Ok tt (set_cells h (write_cells d (Live <$> l) (cells h))).
Proof.
  revert h first d ld.
  induction l as [|v l IH]; intros h first d [|w ld] Hs Hd Hlen Hpos;
    simpl in *; try done.
  - by rewrite set_cells_id.
  - destruct Hs as [Hs0 Hs], Hd as [Hd0 Hd].
    rewrite (bind_Ok _ _ _ _ _ (load_live _ _ _ Hs0)).
    rewrite (bind_Ok _ _ _ _ _ (store_live _ _ v _ Hd0)).
    rewrite (IH _ _ _ ld); simpl; try done; try lia.
    + apply cells_at_insert_other; [rewrite length_live; lia | done].
    + apply cells_at_insert_other; [rewrite length_live; lia | done].
Qed.

(** Forward copy into allocated slots. *)
Lemma uninitialized_copy_loop_spec h first d (l : list T) (ld : list (cell T)) :
  cells_at (cells h) first (Live <$> l) →
  cells_at (cells h) d ld →
  length ld = length l →
  d ≤ first ∨ first + Z.of_nat (length l) ≤ d →
  uninitialized_copy_loop (length l) first d h
  = Ok tt (set_cells h (write_cells d (Live <$> l) (cells h))).
Proof.
  revert h first d ld.
  induction l as [|v l IH]; intros h first d [|w ld] Hs Hd Hlen Hpos;
    simpl in *; try done.
  - by rewrite set_cells_id.
  - destruct Hs as [Hs0 Hs], Hd as [Hd0 Hd].
    rewrite (bind_Ok _ _ _ _ _ (load_live _ _ _ Hs0)).
    rewrite (bind_Ok _ _ _ _ _ (construct_alloc _ _ v _ Hd0)).
    rewrite (IH _ _ _ ld); simpl; try done; try lia.
    + apply cells_at_insert_other; [rewrite length_live; lia | done].
    + apply cells_at_insert_other; [lia | done].
Qed.

(** Backward copy into slots that hold objects. *)
Lemma copy_backward_loop_spec h first d (l ld : list T) :
  cells_at (cells h) first (Live <$> l) →
  cells_at (cells h) d (Live <$> ld) →
  length ld = length l →
  first ≤ d ∨ d + Z.of_nat (length l) ≤ first →
  copy_backward_loop (length l) (first + Z.of_nat (length l)) (d + Z.of_nat (length l)) h
  = Ok tt (set_cells h (write_cells d (Live <$> l) (cells h))).
Proof.
  revert h ld.
  induction l as [|v l IH] using rev_ind; intros h ld Hs Hd Hlen Hpos.
  - simpl. by rewrite set_cells_id.
  - destruct ld as [|w ld _] using rev_ind;
      [rewrite length_app in Hlen; simpl in Hlen; lia|].
    rewrite !length_app in Hlen. simpl in Hlen.
    rewrite !fmap_app in Hs, Hd. apply cells_at_app in Hs, Hd.
    rewrite !length_live in Hs, Hd.
    destruct Hs as [Hs [Hs0 _]], Hd as [Hd [Hd0 _]]. simpl in Hs0, Hd0.
    replace (length ld) with (length l) in Hd0 by lia.
    rewrite length_app, Nat.add_1_r in *. simpl.
    replace (first + Z.of_nat (S (length l)) - 1) with (first + Z.of_nat (length l)) by lia.
    replace (d + Z.of_nat (S (length l)) - 1) with (d + Z.of_nat (length l)) by lia.
    rewrite (bind_Ok _ _ _ _ _ (load_live _ _ _ Hs0)).
    rewrite (bind_Ok _ _ _ _ _ (store_live _ _ v _ Hd0)).
    rewrite (IH _ ld); simpl; try done; try lia.
    + rewrite fmap_app. simpl. rewrite write_cells_snoc, length_live.
      rewrite write_cells_insert by (rewrite length_live; lia). done.
    + apply cells_at_insert_other; [rewrite length_live; lia | done].
    + apply cells_at_insert_other; [rewrite length_live; lia | done].
Qed.

Lemma fill_loop_spec h p (v : T) (ld : list T) :
  cells_at (cells h) p (Live <$> ld) →
  fill_loop (length ld) p (Temp v) h
  = Ok tt (set_cells h (write_cells p (replicate (length ld) (Live v)) (cells h))).
Proof.
  revert h p. induction ld as [|w ld IH]; intros h p Hd; simpl in *.
  - by rewrite set_cells_id.
  - destruct Hd as [Hd0 Hd]. unfold bind at 1, ret at 1.
    rewrite (bind_Ok _ _ _ _ _ (store_live _ _ v _ Hd0)).
    rewrite IH; simpl; [done|].
    apply cells_at_insert_other; [rewrite length_live; lia | done].
Qed.

Lemma uninitialized_fill_loop_spec h p (v : T) (ld : list (cell T)) :
  cells_at (cells h) p ld →
  uninitialized_fill_loop (length ld) p (Temp v) h
  = Ok tt (set_cells h (write_cells p (replicate (length ld) (Live v)) (cells h))).
Proof.
  revert h p. induction ld as [|w ld IH]; intros h p Hd; simpl in *.
  - by rewrite set_cells_id.
  - destruct Hd as [Hd0 Hd]. unfold bind at 1, ret at 1.
    rewrite (bind_Ok _ _ _ _ _ (construct_alloc _ _ v _ Hd0)).
    rewrite IH; simpl; [done|].
    apply cells_at_insert_other; [lia | done].
Qed.

Lemma destroy_loop_spec h p (ld : list T) :
  cells_at (cells h) p (Live <$> ld) →
  destroy_loop (length ld) p h
  = Ok tt (set_cells h (write_cells p (replicate (length ld) Raw) (cells h))).
Proof.
  revert h p. induction ld as [|w ld IH]; intros h p Hd; simpl in *.
  - by rewrite set_cells_id.
  - destruct Hd as [Hd0 Hd].
    rewrite (bind_Ok _ _ _ _ _ (destroy_live _ _ _ Hd0)).
    rewrite IH; simpl; [done|].
    apply cells_at_insert_other; [rewrite length_live; lia | done].
Qed.

Lemma write_cells_overwrite p l l' c :
  length l = length l' →
  write_cells p l (write_cells p l' c) = write_cells p l c.
Proof.
  revert p l' c. induction l as [|x l IH]; intros p [|x' l'] c Hlen;
    simpl in *; try done.
  rewrite <- write_cells_insert by lia.
  rewrite IH by lia. by rewrite insert_insert_eq.
Qed.

Lemma write_cells_id p l c : cells_at c p l → write_cells p l c = c.
Proof.
  revert p c. induction l as [|x l IH]; intros p c; simpl; [done|].
  intros [H0 Hl]. rewrite insert_id by done. by apply IH.
Qed.

(** *** The algorithms on pointer ranges *)

Lemma distance_spec h first last (n : nat) :
  last = first + Z.of_nat n → distance (T:=T) first last h = Ok n h.
Proof.
  intros ->. unfold distance.
  destruct (Z.ltb_spec (first + Z.of_nat n) first) as [?|_]; [lia|].
  unfold ret. f_equal. lia.
Qed.

Lemma std_copy_spec h first last d (l ld : list T) :
  last = first + Z.of_nat (length l) →
  cells_at (cells h) first (Live <$> l) →
  cells_at (cells h) d (Live <$> ld) →
  length ld = length l →
  d ≤ first ∨ last ≤ d →
  std_copy first last d h
  = Ok tt (set_cells h (write_cells d (Live <$> l) (cells h))).
Proof.
  intros Hl Hs Hd Hlen Hpos. unfold std_copy.
  rewrite (bind_Ok _ _ _ _ _ (distance_spec _ _ _ _ Hl)).
  eapply copy_loop_spec; eauto. lia.
Qed.

Lemma std_copy_backward_spec h first last d_last (l ld : list T) :
  last = first + Z.of_nat (length l) →
  cells_at (cells h) first (Live <$> l) →
  cells_at (cells h) (d_last - Z.of_nat (length l)) (Live <$> ld) →
  length ld = length l →
  last ≤ d_last ∨ d_last ≤ first →
  std_copy_backward first last d_last h
  = Ok tt (set_cells h (write_cells (d_last - Z.of_nat (length l)) (Live <$> l) (cells h))).
Proof.
  intros Hl Hs Hd Hlen Hpos. unfold std_copy_backward.
  rewrite (bind_Ok _ _ _ _ _ (distance_spec _ _ _ _ Hl)). subst last.
  replace d_last with (d_last - Z.of_nat (length l) + Z.of_nat (length l)) at 1 by lia.
  eapply copy_backward_loop_spec; eauto. lia.
Qed.

Lemma uninitialized_copy_spec h first last d (l : list T) (ld : list (cell T)) :
  last = first + Z.of_nat (length l) →
  cells_at (cells h) first (Live <$> l) →
  cells_at (cells h) d ld →
  length ld = length l →
  d ≤ first ∨ last ≤ d →
  uninitialized_copy first last d h
  = Ok tt (set_cells h (write_cells d (Live <$> l) (cells h))).
Proof.
  intros Hl Hs Hd Hlen Hpos. unfold uninitialized_copy.
  rewrite (bind_Ok _ _ _ _ _ (distance_spec _ _ _ _ Hl)).
  eapply uninitialized_copy_loop_spec; eauto. lia.
Qed.

Lemma std_fill_spec h first last (v : T) (ld : list T) :
  last = first + Z.of_nat (length ld) →
  cells_at (cells h) first (Live <$> ld) →
  std_fill first last (Temp v) h
  = Ok tt (set_cells h (write_cells first (replicate (length ld) (Live v)) (cells h))).
Proof.
  intros Hl Hd. unfold std_fill.
  rewrite (bind_Ok _ _ _ _ _ (distance_spec _ _ _ _ Hl)).
  by apply fill_loop_spec.
Qed.

Lemma uninitialized_fill_spec h first last (v : T) (ld : list (cell T)) :
  last = first + Z.of_nat (length ld) →
  cells_at (cells h) first ld →
  uninitialized_fill first last (Temp v) h
  = Ok tt (set_cells h (write_cells first (replicate (length ld) (Live v)) (cells h))).
Proof.
  intros Hl Hd. unfold uninitialized_fill.
  rewrite (bind_Ok _ _ _ _ _ (distance_spec _ _ _ _ Hl)).
  by apply uninitialized_fill_loop_spec.
Qed.

(** [std::fill] with a reference to an object that may be one of the
    slots it fills. *)
Lemma fill_loop_ref h p q (x : T) (ld : list T) :
  cells h !! q = Some (Live x) →
  cells_at (cells h) p (Live <$> ld) →
  fill_loop (length ld) p (Ref q) h
  = Ok tt (set_cells h (write_cells p (replicate (length ld) (Live x)) (cells h))).
Proof.
  revert h p. induction ld as [|w ld IH]; intros h p Hq Hd; simpl in *.
  - by rewrite set_cells_id.
  - destruct Hd as [Hd0 Hd].
    rewrite (bind_Ok _ _ _ _ _ (load_live _ _ _ Hq)).
    rewrite (bind_Ok _ _ _ _ _ (store_live _ _ x _ Hd0)).
    rewrite IH; simpl; [done| |].
    + destruct (decide (q = p)) as [->|Hne].
      * apply lookup_insert_eq.
      * by rewrite lookup_insert_ne.
    + apply cells_at_insert_other; [rewrite length_live; lia | done].
Qed.

Lemma std_fill_holds h first last (t : cref T) (x : T) (ld : list T) :
  last = first + Z.of_nat (length ld) →
  holds t h x →
  cells_at (cells h) first (Live <$> ld) →
  std_fill first last t h
  = Ok tt (set_cells h (write_cells first (replicate (length ld) (Live x)) (cells h))).
Proof.
  intros Hl Ht Hd. destruct t as [y|q]; simpl in Ht.
  - subst y. by apply std_fill_spec.
  - unfold std_fill.
    rewrite (bind_Ok _ _ _ _ _ (distance_spec _ _ _ _ Hl)).
    by apply fill_loop_ref.
Qed.



Lemma destroy_n_spec h p n (ld : list T) :
  n = Z.of_nat (length ld) →
  cells_at (cells h) p (Live <$> ld) →
  destroy_n p n h
  = Ok tt (set_cells h (write_cells p (replicate (length ld) Raw) (cells h))).
Proof.
  intros -> Hd. unfold destroy_n. rewrite Nat2Z.id. by apply destroy_loop_spec.
Qed.

Lemma cells_at_addr c p q l : p = q → cells_at c p l → cells_at c q l.
Proof. by intros ->. Qed.

Lemma cells_at_write_same_eq c p q l : q = p → cells_at (write_cells p l c) q l.
Proof. intros ->. apply cells_at_write_same. Qed.

Lemma cells_at_insert_same_eq c p q (x : cell T) :
  q = p → cells_at (<[p := x]> c) q [x].
Proof. intros ->. simpl. by rewrite lookup_insert_eq. Qed.

End MemoryLemmas.

(** Lengths of the list expressions that describe a block. *)
Ltac len :=
  repeat first
    [ rewrite length_app | rewrite length_live | rewrite length_take
    | rewrite length_drop | rewrite length_replicate | rewrite length_cons ];
  simpl; lia.

(** [cells_at] across the writes of an algorithm: the range is the one
    written last, or it lies beside the write. *)
Ltac frame_cells :=
  simpl;
  first
    [ eassumption
    | eapply cells_at_addr; [|eassumption]; len
    | apply cells_at_write_same_eq; len
    | apply cells_at_insert_same_eq; len
    | apply cells_at_write_other; [len | frame_cells]
    | apply cells_at_insert_other; [len | frame_cells] ].

#[local] Arguments firstn : simpl never.
#[local] Arguments skipn : simpl never.

(** ** The view *)

Section ViewLemmas.
Context {T : Type}.
Implicit Types (h : heap T) (this rhs : ArrayVectorView) (l : list T).

Lemma precondition_true {St} msg (s : St) : vigra_precondition true msg s = Ok tt s.
Proof. done. Qed.

Lemma copyImpl_spec h this rhs l ld :
  views rhs h l → views this h ld → length ld = length l →
  copyImpl this rhs h
  = Ok tt (set_cells h (write_cells (data_ this) (Live <$> l) (cells h))).
Proof.
  intros [Hn Hs] [Hn' Hd] Hlen. unfold copyImpl.
  replace (size_ this =? size_ rhs) with true by (symmetry; apply Z.eqb_eq; lia).
  rewrite (bind_Ok _ _ _ _ _ (precondition_true _ _)).
  unfold begin_, end_.
  destruct (Z.leb_spec (data_ this) (data_ rhs)) as [Hle|Hgt].
  - eapply std_copy_spec; eauto; lia.
  - replace (data_ this) with (data_ this + size_ this - Z.of_nat (length l)) at 2 by lia.
    eapply std_copy_backward_spec; eauto; try lia.
    by replace (data_ this + size_ this - Z.of_nat (length l)) with (data_ this) by lia.
Qed.

End ViewLemmas.

(** ** The array *)

Section ArrayLemmas.
Context {T : Type}.
Implicit Types (h : heap T) (a : ArrayVector) (l : list T).

Lemma on_heap_Ok {A} (m : M (heap T) A) a h x h' :
  m h = Ok x h' → on_heap m (a, h) = Ok x (a, h').
Proof. unfold on_heap. simpl. by intros ->. Qed.

Lemma allocate_fits h n :
  next h + n ≤ limit h →
  allocate n h
  = Ok (next h)
       (mkHeap (write_cells (next h) (replicate (Z.to_nat n) Raw) (cells h))
               (<[next h := n]> (blocks h)) (next h + n) (limit h)).
Proof. intros H. unfold allocate. by destruct (Z.leb_spec (next h + n) (limit h)); [|lia]. Qed.

Lemma allocate_exhausted h n :
  limit h < next h + n → allocate n h = Throw MemoryExhaustion h.
Proof. intros H. unfold allocate. by destruct (Z.leb_spec (next h + n) (limit h)); [lia|]. Qed.

Lemma owns_live a h l : owns a h l → cells_at (cells h) (data_ (base_type a)) (Live <$> l).
Proof. intros (_ & _ & Hc & _). by apply cells_at_app in Hc as [? _]. Qed.

Lemma owns_raw a h l :
  owns a h l →
  cells_at (cells h) (data_ (base_type a) + size_ (base_type a))
    (replicate (Z.to_nat (capacity_ a) - length l) Raw).
Proof.
  intros (Hn & _ & Hc & _). apply cells_at_app in Hc as [_ Hc].
  by rewrite length_live, <- Hn in Hc.
Qed.

(** [reserve] beyond the capacity moves the elements to a fresh block of
    exactly [n] slots and releases the old block. *)
Lemma reserve_grow a h l n :
  owns a h l → capacity_ a < n < 2 ^ 32 → next h + n ≤ limit h →
  ∃ h', reserve n (a, h)
        = Ok tt (mkArray (mkView (size_ (base_type a)) (next h)) n, h') ∧
        owns (mkArray (mkView (size_ (base_type a)) (next h)) n) h' l ∧
        limit h' = limit h ∧ next h' = next h + n ∧
        (∀ q, data_ (base_type a) ≤ q < data_ (base_type a) + capacity_ a →
              cells h' !! q = None) ∧
        (∀ q, q < next h →
              ¬ (data_ (base_type a) ≤ q < data_ (base_type a) + capacity_ a) →
              cells h' !! q = cells h !! q).
Proof.
  destruct a as [[sz d] cap]. simpl.
  intros Ho Hn Hfit. pose proof (owns_live _ _ _ Ho) as Hlive.
  destruct Ho as (Hsz & Hcap & Hc & Hblk & Hnx & Hbelow). simpl in *.
  unfold reserve.
  rewrite (bind_Ok _ _ _ _ _ (eq_refl : get_this (_, h) = Ok _ _)). simpl.
  destruct (Z.leb_spec n cap) as [?|_]; [lia|].
  (* the fresh block *)
  set (h1 := mkHeap (write_cells (next h) (replicate (Z.to_nat n) Raw) (cells h))
                    (<[next h := n]> (blocks h)) (next h + n) (limit h)).
  assert (E1 : reserve_raw n h = Ok (next h) h1).
  { unfold reserve_raw. destruct (Z.eqb_spec n 0) as [?|_]; [lia|]. simpl.
    by apply allocate_fits. }
  rewrite (bind_Ok _ _ _ _ _ (on_heap_Ok _ _ _ _ _ E1)).
  (* the elements are copied *)
  set (h2 := set_cells h1 (write_cells (next h) (Live <$> l) (cells h1))).
  assert (E2 : (if 0 <? sz
                then on_heap (uninitialized_copy d (d + sz) (next h))
                else ret tt)
                 (mkArray (mkView sz d) cap, h1)
               = Ok tt (mkArray (mkView sz d) cap, h2)).
  { assert (Hcp : uninitialized_copy d (d + sz) (next h) h1 = Ok tt h2).
    { eapply (uninitialized_copy_spec _ _ _ _ _ (replicate (length l) Raw)).
      - lia.
      - simpl. apply cells_at_write_other; [rewrite length_live; lia|done].
      - simpl. eapply cells_at_app.
        rewrite <- replicate_add.
        replace (length l + (Z.to_nat n - length l))%nat with (Z.to_nat n) by lia.
        apply cells_at_write_same.
      - apply length_replicate.
      - lia. }
    destruct (Z.ltb_spec 0 sz) as [Hpos|Hz].
    - exact (on_heap_Ok _ _ _ _ _ Hcp).
    - unfold ret. do 2 f_equal. destruct l; [|simpl in Hsz; lia].
      reflexivity. }
  rewrite (bind_Ok _ _ _ _ _ E2).
  (* the old block is destroyed and released *)
  assert (E3 : ∃ h', deallocate d sz h2 = Ok tt h' ∧ next h' = next h2 ∧ limit h' = limit h2 ∧
                 (∀ q, d ≤ q < d + cap → cells h' !! q = None) ∧
                 (∀ q, ¬ (d ≤ q < d + cap) → cells h' !! q = cells h2 !! q) ∧
                 ∀ p, p ≠ d → blocks h' !! p = blocks h2 !! p).
  { unfold deallocate. destruct Hblk as [[-> ->]|(Hcpos & Hd & Hb)].
    - simpl. eexists. split; [done|]. repeat split; try done. intros; lia.
    - destruct (Z.eqb_spec d 0) as [?|_]; [lia|]. simpl.
      erewrite bind_Ok; cycle 1.
      { eapply (destroy_n_spec _ _ _ l); [done|]. simpl.
        do 2 (apply cells_at_write_other; [rewrite ?length_live, ?length_replicate; lia|]).
        done. }
      unfold alloc_deallocate. simpl.
      rewrite lookup_insert_ne by lia. rewrite Hb.
      eexists. split; [done|]. simpl. repeat split; try done.
      + intros q Hq. apply free_cells_in. lia.
      + intros q Hq. rewrite free_cells_notin by lia.
        apply write_cells_notin. rewrite length_replicate. lia.
      + intros p Hp. by rewrite lookup_delete_ne. }
  destruct E3 as (h' & E3 & Hnx' & Hlim' & Hfreed & Hkept & Hblocks).
  unfold h2, h1 in Hnx', Hlim'. simpl in Hnx', Hlim'.
  rewrite (bind_Ok _ _ _ _ _ (on_heap_Ok _ _ _ _ _ E3)).
  exists h'. split; [done|]. split; [|split; [|split; [|split]]]; try done.
  - unfold owns. simpl. split; [done|]. split; [lia|]. split; [|split; [|lia]].
    + eapply cells_at_frame.
      2:{ intros q Hq. apply Hkept. lia. }
      unfold h2. simpl.
      replace (replicate (Z.to_nat n) Raw)
        with (replicate (length l) (@Raw T) ++ replicate (Z.to_nat n - length l) Raw).
      2:{ rewrite <- replicate_add. f_equal. lia. }
      rewrite write_cells_app, length_replicate.
      rewrite <- (write_cells_comm (next h + Z.of_nat (length l)))
        by (rewrite ?length_live, ?length_replicate; lia).
      rewrite write_cells_overwrite by (by rewrite length_live, length_replicate).
      rewrite <- (length_live l) at 1. rewrite <- write_cells_app.
      apply cells_at_write_same.
    + right. split; [lia|]. split; [lia|].
      rewrite Hblocks by lia. simpl. apply lookup_insert_eq.
  - intros q Hq Hout. rewrite Hkept by done. unfold h2. simpl.
    rewrite !write_cells_notin by (rewrite ?length_live, ?length_replicate; lia). done.
Qed.

Lemma uint_small x : 0 ≤ x < 2 ^ 32 → uint x = x.
Proof. intros H. unfold uint. by apply Z.mod_small. Qed.

Lemma sint_small x : - 2 ^ 31 ≤ x < 2 ^ 31 → sint x = x.
Proof. intros H. unfold sint. rewrite Z.mod_small; lia. Qed.

Lemma reserve0_spec a h l :
  owns a h l → 2 * capacity_ a < 2 ^ 32 →
  (grown a ≠ capacity_ a → next h + grown a ≤ limit h) →
  ∃ a' h', reserve0 (a, h) = Ok tt (a', h') ∧ owns a' h' l ∧
           capacity_ a' = grown a ∧
           size_ (base_type a') = size_ (base_type a) ∧
           size_ (base_type a') < capacity_ a' ∧
           (grown a = capacity_ a → a' = a ∧ h' = h) ∧
           (grown a ≠ capacity_ a →
            data_ (base_type a') = next h ∧
            (∀ q, data_ (base_type a) ≤ q < data_ (base_type a) + capacity_ a →
                  cells h' !! q = None) ∧
            (∀ q, q < next h →
                  ¬ (data_ (base_type a) ≤ q < data_ (base_type a) + capacity_ a) →
                  cells h' !! q = cells h !! q)).
Proof.
  intros Ho Hdbl Hfit. pose proof Ho as (Hsz & Hcap & _).
  unfold reserve0, grown in *.
  rewrite (bind_Ok _ _ _ _ _ (eq_refl : get_this (_, h) = Ok _ _)). simpl.
  unfold minimumCapacity in *.
  destruct (Z.eqb_spec (capacity_ a) 0) as [Hz|Hnz].
  - destruct (reserve_grow a h l 2 Ho ltac:(lia) ltac:(lia))
      as (h' & E & Ho' & _ & _ & Hfreed & Hkept).
    eexists _, h'. split; [exact E|]. simpl.
    split; [done|]. split; [done|]. split; [done|]. split; [lia|].
    split; [intros; lia|done].
  - destruct (Z.eqb_spec (size_ (base_type a)) (capacity_ a)) as [Hfull|Hroom].
    + rewrite uint_small by lia.
      destruct (reserve_grow a h l (2 * capacity_ a) Ho ltac:(lia) ltac:(lia))
        as (h' & E & Ho' & _ & _ & Hfreed & Hkept).
      eexists _, h'. split; [exact E|]. simpl.
      split; [done|]. split; [done|]. split; [done|]. split; [lia|].
      split; [intros; lia|done].
    + eexists a, h. split; [done|].
      split; [done|]. split; [done|]. split; [done|]. split; [lia|].
      split; [done|intros; lia].
Qed.

Lemma write_cells_one p (x : cell T) c : <[p := x]> c = write_cells p [x] c.
Proof. done. Qed.

Lemma owns_push a h l (v : T) :
  owns a h l → size_ (base_type a) < capacity_ a →
  owns (mkArray (mkView (size_ (base_type a) + 1) (data_ (base_type a))) (capacity_ a))
       (set_cells h (<[data_ (base_type a) + size_ (base_type a) := Live v]> (cells h)))
       (l ++ [v]).
Proof.
  intros (Hsz & Hcap & Hc & Hblk & Hnx) Hroom. unfold owns. simpl.
  rewrite length_app. simpl.
  split; [lia|]. split; [lia|]. split; [|split; [|done]].
  - replace (Z.to_nat (capacity_ a) - length l)%nat
      with (S (Z.to_nat (capacity_ a) - (length l + 1)))%nat in Hc by lia.
    simpl in Hc. apply cells_at_app in Hc as [Hl Hr]. simpl in Hr.
    destruct Hr as [_ Hr]. rewrite length_live in Hr.
    rewrite fmap_app. simpl. rewrite <- app_assoc. simpl.
    rewrite write_cells_one. rewrite Hsz.
    apply cells_at_app. split.
    { apply cells_at_write_other; [rewrite length_live; simpl; lia|done]. }
    rewrite length_live. change (Live v :: ?r) with ([Live v] ++ r).
    apply cells_at_app. split; [apply cells_at_write_same|].
    apply cells_at_write_other; [simpl; lia|]. simpl.
    by replace (data_ (base_type a) + Z.of_nat (length l) + Z.of_nat 1)
      with (data_ (base_type a) + Z.of_nat (length l) + 1) by lia.
  - destruct Hblk as [?|(? & ? & ?)]; [lia|]. right. done.
Qed.

Lemma push_back_spec a h l (t : cref T) (v : T) :
  owns a h l → refers t a h v → 2 * capacity_ a < 2 ^ 32 →
  (grown a ≠ capacity_ a → next h + grown a ≤ limit h) →
  ∃ a' h', push_back t (a, h) = Ok tt (a', h') ∧
           owns a' h' (l ++ [v]) ∧
           size_ (base_type a') = size_ (base_type a) + 1 ∧
           capacity_ a' = grown a ∧
           (grown a = capacity_ a → data_ (base_type a') = data_ (base_type a)).
Proof.
  intros Ho Href Hdbl Hfit.
  destruct (reserve0_spec a h l Ho Hdbl Hfit)
    as (a' & h' & E & Ho' & Hcap & Hsz & Hroom & Hsame & Hmoved).
  assert (Hderef : deref t h' = Ok v h').
  { destruct t as [x|p]; simpl in Href.
    - by subst x.
    - destruct Href as (Hp & Hlt & Hout). apply load_live.
      destruct (decide (grown a = capacity_ a)) as [Heq|Hne].
      + by destruct (Hsame Heq) as [_ ->].
      + destruct (Hmoved Hne) as (_ & _ & Hkept). by rewrite Hkept. }
  unfold push_back. rewrite (bind_Ok _ _ _ _ _ E).
  rewrite (bind_Ok _ _ _ _ _ (eq_refl : get_this (_, h') = Ok _ _)).
  rewrite (bind_Ok _ _ _ _ _ (on_heap_Ok _ a' _ _ _ Hderef)).
  pose proof (owns_raw _ _ _ Ho') as Hraw.
  pose proof Ho' as (Hsz' & Hcap' & _).
  replace (Z.to_nat (capacity_ a') - length l)%nat
    with (S (Z.to_nat (capacity_ a') - (length l + 1)))%nat in Hraw by lia.
  simpl in Hraw. destruct Hraw as [Hraw _].
  rewrite (bind_Ok _ _ _ _ _ (on_heap_Ok _ _ _ _ _ (construct_alloc _ _ v _ Hraw))).
  unfold set_size_. simpl. rewrite uint_small by lia.
  eexists _, _. split; [done|]. split; [by apply owns_push|]. simpl.
  split; [lia|]. split; [exact Hcap|].
  intros Heq. by destruct (Hsame Heq) as [-> _].
Qed.


(** *** Segments of the block of an array *)

Lemma cells_at_drop c p (L : list (cell T)) i :
  cells_at c p L → cells_at c (p + Z.of_nat i) (drop i L).
Proof.
  intros H. rewrite <- (take_drop i L) in H. apply cells_at_app in H as [_ H].
  destruct (decide (i ≤ length L)%nat) as [Hle|Hgt].
  - by rewrite length_take, Nat.min_l in H.
  - rewrite drop_ge by lia. done.
Qed.

Lemma cells_at_take c p (L : list (cell T)) k :
  cells_at c p L → cells_at c p (take k L).
Proof.
  intros H. rewrite <- (take_drop k L) in H. by apply cells_at_app in H as [H _].
Qed.

Lemma owns_seg_live a h l (i k : nat) :
  owns a h l →
  cells_at (cells h) (data_ (base_type a) + Z.of_nat i) (Live <$> take k (drop i l)).
Proof.
  intros Ho. apply owns_live in Ho.
  rewrite fmap_take, fmap_drop. by apply cells_at_take, cells_at_drop.
Qed.

Lemma owns_seg_raw a h l (i k : nat) :
  owns a h l → (length l ≤ i)%nat → Z.of_nat i + Z.of_nat k ≤ capacity_ a →
  cells_at (cells h) (data_ (base_type a) + Z.of_nat i) (replicate k Raw).
Proof.
  intros (Hsz & Hcap & Hc & _) Hi Hk.
  apply (cells_at_drop _ _ _ i), (cells_at_take _ _ _ k) in Hc.
  rewrite drop_app_ge, length_live, drop_replicate, take_replicate in Hc
    by (rewrite length_live; lia).
  by replace (k `min` (Z.to_nat (capacity_ a) - length l - (i - length l)))%nat
    with k in Hc by lia.
Qed.

(** Releasing the block of an array: the elements are destroyed, the
    whole block goes back to the provider. *)
Lemma deallocate_owned a h0 h l :
  owns a h0 l →
  cells_at (cells h) (data_ (base_type a)) (Live <$> l) →
  blocks h !! data_ (base_type a) = blocks h0 !! data_ (base_type a) →
  ∃ h', deallocate (data_ (base_type a)) (size_ (base_type a)) h = Ok tt h' ∧
        next h' = next h ∧ limit h' = limit h ∧
        (∀ q, data_ (base_type a) ≤ q < data_ (base_type a) + capacity_ a →
              cells h' !! q = None) ∧
        (∀ q, ¬ (data_ (base_type a) ≤ q < data_ (base_type a) + capacity_ a) →
              cells h' !! q = cells h !! q) ∧
        (∀ p, p ≠ data_ (base_type a) → blocks h' !! p = blocks h !! p) ∧
        (0 < capacity_ a → blocks h' !! data_ (base_type a) = None).
Proof.
  intros (Hsz & Hcap & _ & Hblk & _) Hlive Hb.
  unfold deallocate. destruct Hblk as [[Hc0 Hd0]|(Hcpos & Hd & Hb0)].
  - rewrite Hd0. simpl. eexists. split; [done|]. repeat split; try done; intros; lia.
  - destruct (Z.eqb_spec (data_ (base_type a)) 0) as [?|_]; [lia|]. simpl.
    rewrite (bind_Ok _ _ _ _ _ (destroy_n_spec _ _ _ l Hsz Hlive)).
    unfold alloc_deallocate. simpl. rewrite Hb, Hb0.
    eexists. split; [done|]. simpl. repeat split; try done.
    + intros q Hq. apply free_cells_in. lia.
    + intros q Hq. rewrite free_cells_notin by lia.
      apply write_cells_notin. rewrite length_replicate. lia.
    + intros p Hp. by rewrite lookup_delete_ne.
    + intros _. apply lookup_delete_eq.
Qed.

(** A fresh block from the provider, below which everything is kept. *)
Lemma reserve_raw_fresh h n :
  0 < n → next h + n ≤ limit h → 
  reserve_raw n h
  = Ok (next h)
       (mkHeap (write_cells (next h) (replicate (Z.to_nat n) Raw) (cells h))
               (<[next h := n]> (blocks h)) (next h + n) (limit h)).
Proof.
  intros Hn Hfit. unfold reserve_raw.
  destruct (Z.eqb_spec n 0) as [?|_]; [lia|]. simpl. by apply allocate_fits.
Qed.

(** *** Bulk insertion, branch by branch *)

Lemma cells_at_replicate_sub c p (n i k : nat) (x : cell T) :
  cells_at c p (replicate n x) → (i + k ≤ n)%nat →
  cells_at c (p + Z.of_nat i) (replicate k x).
Proof.
  intros H Hik. apply (cells_at_drop _ _ _ i), (cells_at_take _ _ _ k) in H.
  rewrite drop_replicate, take_replicate in H.
  by replace (k `min` (n - i))%nat with k in H by lia.
Qed.

Lemma get_this_run a h : get_this (a, h) = Ok a (a, h).
Proof. done. Qed.

(** An argument that is no element of the array keeps its value while
    the slots of the block, or slots that the provider had not handed
    out, are written. *)
Lemma refers_holds (t : cref T) a h h' (v : T) :
  refers t a h v →
  (∀ q, q < next h →
        ¬ (data_ (base_type a) ≤ q < data_ (base_type a) + capacity_ a) →
        cells h' !! q = cells h !! q) →
  holds t h' v.
Proof.
  destruct t as [x|p]; simpl; [done|].
  intros (Hc & Hq & Hout) Hfr. by rewrite Hfr.
Qed.

Lemma refers_deref (t : cref T) a h h' (v : T) :
  refers t a h v →
  (∀ q, q < next h →
        ¬ (data_ (base_type a) ≤ q < data_ (base_type a) + capacity_ a) →
        cells h' !! q = cells h !! q) →
  deref t h' = Ok v h'.
Proof.
  intros Hrf Hfr. pose proof (refers_holds t a h h' v Hrf Hfr) as Hh.
  destruct t as [x|p]; simpl in *; [by subst|]. by apply load_live.
Qed.




(** *** Insertion and removal of one element *)

Lemma bind_Undefined {St A B} (m : M St A) (k : A → M St B) s :
  m s = Undefined → bind m k s = Undefined.
Proof. unfold bind. by intros ->. Qed.

Lemma owns_last a h l :
  owns a h l → (0 < length l)%nat →
  ∃ x, l !! (length l - 1)%nat = Some x ∧
       cells h !! (data_ (base_type a) + size_ (base_type a) - 1) = Some (Live x).
Proof.
  intros Ho Hpos. pose proof Ho as (Hsz & _).
  destruct (lookup_lt_is_Some_2 l (length l - 1)) as [x Hx]; [lia|].
  exists x. split; [done|].
  pose proof (owns_live _ _ _ Ho) as Hall.
  rewrite cells_at_lookup in Hall.
  replace (data_ (base_type a) + size_ (base_type a) - 1)
    with (data_ (base_type a) + Z.of_nat (length l - 1)) by lia.
  apply Hall. by rewrite list_lookup_fmap, Hx.
Qed.

Lemma reserve0_room a h :
  capacity_ a ≠ 0 → size_ (base_type a) ≠ capacity_ a →
  reserve0 (a, h) = Ok tt (a, h).
Proof.
  intros Hc Hs. unfold reserve0.
  rewrite (bind_Ok _ _ _ _ _ (get_this_run _ h)).
  destruct (Z.eqb_spec (capacity_ a) 0); [done|].
  by destruct (Z.eqb_spec (size_ (base_type a)) (capacity_ a)).
Qed.

(** [insert] with a free slot: nothing is allocated, the elements from
    the position on move up by one. *)
Lemma insert_room a h l (i : nat) (t : cref T) (v : T) :
  owns a h l → refers t a h v → (i ≤ length l)%nat → Z.of_nat i < 2 ^ 31 →
  size_ (base_type a) < capacity_ a →
  ∃ h', insert (data_ (base_type a) + Z.of_nat i) t (a, h)
        = Ok (data_ (base_type a) + Z.of_nat i)
             (mkArray (mkView (size_ (base_type a) + 1) (data_ (base_type a)))
                      (capacity_ a), h') ∧
        owns (mkArray (mkView (size_ (base_type a) + 1) (data_ (base_type a)))
                      (capacity_ a)) h'
             (take i l ++ v :: drop i l) ∧
        blocks h' = blocks h ∧ next h' = next h.
Proof.
  destruct a as [[sz d] cap]. simpl.
  intros Ho Hrf Hi Hi31 Hroom.
  pose proof Ho as (Hsz & Hcap & Hc & Hblk & Hnx & Hbelow). simpl in *.
  pose proof (owns_seg_raw _ _ _ (length l) 1 Ho ltac:(lia) ltac:(simpl; lia)) as Hr1.
  simpl in Hr1. destruct Hr1 as [Hr1 _].
  replace (d + Z.of_nat (length l)) with (d + sz) in Hr1 by lia.
  unfold insert.
  rewrite (bind_Ok _ _ _ _ _ (get_this_run _ h)). unfold begin_, end_.
  cbn [base_type size_ data_ capacity_].
  replace (d + Z.of_nat i - d) with (Z.of_nat i) by lia.
  rewrite sint_small by lia.
  assert (Er : reserve0 (mkArray (mkView sz d) cap, h)
               = Ok tt (mkArray (mkView sz d) cap, h))
    by (apply reserve0_room; simpl; lia).
  assert (Hd0 : deref t h = Ok v h)
    by (by apply (refers_deref t (mkArray (mkView sz d) cap) h)).
  destruct (Z.eqb_spec (d + Z.of_nat i) (d + sz)) as [Hend|Hmid].
  - (* at the end *)
    assert (i = length l) as -> by lia.
    rewrite take_ge, drop_ge by lia.
    erewrite bind_Ok; cycle 1.
    { unfold push_back. rewrite (bind_Ok _ _ _ _ _ Er).
      rewrite (bind_Ok _ _ _ _ _ (get_this_run _ h)). simpl.
      rewrite (bind_Ok _ _ _ _ _ (on_heap_Ok _ _ _ _ _ Hd0)).
      rewrite (bind_Ok _ _ _ _ _ (on_heap_Ok _ _ _ _ _ (construct_alloc _ _ v _ Hr1))).
      unfold set_size_. simpl. rewrite uint_small by lia. reflexivity. }
    rewrite (bind_Ok _ _ _ _ _ (get_this_run _ _)). simpl. unfold ret.
    eexists. split; [reflexivity|]. split; [|done].
    apply (owns_push _ _ _ v Ho). simpl. lia.
  - (* before the end *)
    assert (Hlt : (i < length l)%nat) by lia.
    destruct (owns_last _ _ _ Ho ltac:(lia)) as (x & Hx & Hlast). simpl in Hlast.
    set (h1 := set_cells h (<[d + sz := Live x]> (cells h))).
    erewrite bind_Ok; cycle 1.
    { unfold push_back. rewrite (bind_Ok _ _ _ _ _ Er).
      rewrite (bind_Ok _ _ _ _ _ (get_this_run _ h)). simpl.
      rewrite uint_small by lia.
      replace (d + (sz - 1)) with (d + sz - 1) by lia.
      rewrite (bind_Ok _ _ _ _ _ (on_heap_Ok _ _ _ _ _ (load_live _ _ _ Hlast))).
      rewrite (bind_Ok _ _ _ _ _ (on_heap_Ok _ _ _ _ _ (construct_alloc _ _ x _ Hr1))).
      unfold set_size_. simpl. rewrite uint_small by lia. reflexivity. }
    rewrite (bind_Ok _ _ _ _ _ (get_this_run _ _)).
    cbn [base_type size_ data_ capacity_].
    pose proof (owns_seg_live _ _ _ 0 i Ho) as Hpre.
    pose proof (owns_seg_live _ _ _ i (length l - 1 - i) Ho) as Hsrc.
    pose proof (owns_seg_live _ _ _ (i + 1) (length l - 1 - i) Ho) as Hdst.
    pose proof (owns_seg_live _ _ _ i 1 Ho) as Hslot.
    pose proof (owns_seg_raw _ _ _ (length l + 1) (Z.to_nat cap - (length l + 1)) Ho
                  ltac:(lia) ltac:(simpl; lia)) as Hr3.
    simpl in Hpre, Hsrc, Hdst, Hslot, Hr3. rewrite drop_0 in Hpre.
    set (h2 := set_cells h1 (write_cells (d + Z.of_nat (i + 1))
                               (Live <$> take (length l - 1 - i) (drop i l)) (cells h1))).
    assert (E2 : std_copy_backward (d + Z.of_nat i) (d + (sz + 1) - 2) (d + (sz + 1) - 1) h1
                 = Ok tt h2).
    { pose proof (std_copy_backward_spec h1 (d + Z.of_nat i) (d + (sz + 1) - 2)
                    (d + (sz + 1) - 1) (take (length l - 1 - i) (drop i l))
                    (take (length l - 1 - i) (drop (i + 1) l))) as E.
      replace (d + (sz + 1) - 1 - Z.of_nat (length (take (length l - 1 - i) (drop i l))))
        with (d + Z.of_nat (i + 1)) in E by len.
      apply E; [len | frame_cells | frame_cells | len | lia]. }
    rewrite (bind_Ok _ _ _ _ _ (on_heap_Ok _ _ _ _ _ E2)).
    assert (Hd2 : deref t h2 = Ok v h2).
    { apply (refers_deref t (mkArray (mkView sz d) cap) h); [exact Hrf|].
      intros q Hq Hout. simpl in Hout. unfold h2, h1. simpl.
      rewrite write_cells_notin by len. by rewrite lookup_insert_ne by lia. }
    rewrite (bind_Ok _ _ _ _ _ (on_heap_Ok _ _ _ _ _ Hd2)).
    destruct (drop i l) as [|y rest] eqn:Hdrop.
    { apply (f_equal length) in Hdrop. rewrite length_drop in Hdrop. simpl in Hdrop. lia. }
    simpl in Hslot. destruct Hslot as [Hslot _].
    assert (Hdl : (length l - i)%nat = S (length rest))
      by (rewrite <- length_drop, Hdrop; done).
    assert (Hslot2 : cells h2 !! (d + Z.of_nat i) = Some (Live y)).
    { unfold h2, h1. simpl. rewrite write_cells_notin by len.
      rewrite lookup_insert_ne by lia. done. }
    rewrite (bind_Ok _ _ _ _ _ (on_heap_Ok _ _ _ _ _ (store_live _ _ v _ Hslot2))).
    unfold ret. eexists. split; [reflexivity|]. split; [|done].
    unfold owns. simpl. split; [len|]. split; [lia|]. split; [|done].
    assert (Hrest : y :: rest = take (length l - 1 - i) (y :: rest) ++ [x]).
    { rewrite <- Hdrop.
      rewrite <- (take_drop (length l - 1 - i) (drop i l)) at 1. f_equal.
      rewrite drop_drop.
      apply (list_eq_same_length _ _ 1); [done | len |].
      intros j z z' Hj Hz Hz'. assert (j = 0%nat) as -> by lia. simpl in Hz'.
      rewrite lookup_drop in Hz.
      replace (i + (length l - 1 - i) + 0)%nat with (length l - 1)%nat in Hz by lia.
      congruence. }
    replace (Z.to_nat cap - length (take i l ++ v :: y :: rest))%nat
      with (Z.to_nat cap - (length l + 1))%nat by len.
    rewrite Hrest at 2.
    rewrite fmap_app. change (v :: ?r) with ([v] ++ r). rewrite !fmap_app. simpl.
    apply cells_at_app. split; [|frame_cells].
    apply cells_at_app. split; [frame_cells|].
    change (Live v :: ?r) with ([Live v] ++ r).
    apply cells_at_app. split; [frame_cells|].
    apply cells_at_app. split.
    { frame_cells. }
    apply cells_at_insert_other; [len|].
    apply cells_at_write_other; [len|].
    apply cells_at_insert_same_eq. len.
Qed.

(** [erase] closes the gap and destroys the last slot. *)
Lemma erase_spec a h l (i : nat) :
  owns a h l → (i < length l)%nat →
  ∃ h', erase (data_ (base_type a) + Z.of_nat i) (a, h)
        = Ok (data_ (base_type a) + Z.of_nat i)
             (mkArray (mkView (size_ (base_type a) - 1) (data_ (base_type a)))
                      (capacity_ a), h') ∧
        owns (mkArray (mkView (size_ (base_type a) - 1) (data_ (base_type a)))
                      (capacity_ a)) h'
             (take i l ++ drop (S i) l).
Proof.
  destruct a as [[sz d] cap]. simpl.
  intros Ho Hi.
  pose proof Ho as (Hsz & Hcap & Hc & Hblk & Hnx & Hbelow). simpl in *.
  destruct (owns_last _ _ _ Ho ltac:(lia)) as (x & Hx & Hlast). simpl in Hlast.
  pose proof (owns_seg_live _ _ _ 0 i Ho) as Hpre.
  pose proof (owns_seg_live _ _ _ (S i) (length l - S i) Ho) as Hsrc.
  pose proof (owns_seg_live _ _ _ i (length l - S i) Ho) as Hdst.
  pose proof (owns_seg_raw _ _ _ (length l) (Z.to_nat cap - length l) Ho
                ltac:(lia) ltac:(simpl; lia)) as Hr.
  simpl in Hpre, Hsrc, Hdst, Hr. rewrite drop_0 in Hpre.
  rewrite take_ge in Hsrc by (rewrite length_drop; lia).
  unfold erase.
  rewrite (bind_Ok _ _ _ _ _ (get_this_run _ h)). unfold begin_, end_.
  cbn [base_type size_ data_ capacity_].
  set (h1 := set_cells h (write_cells (d + Z.of_nat i) (Live <$> drop (S i) l) (cells h))).
  assert (E1 : std_copy (d + Z.of_nat i + 1) (d + sz) (d + Z.of_nat i) h = Ok tt h1).
  { eapply (std_copy_spec _ _ _ _ _ (take (length l - S i) (drop i l)));
      [len | frame_cells | frame_cells | len | lia]. }
  rewrite (bind_Ok _ _ _ _ _ (on_heap_Ok _ _ _ _ _ E1)).
  assert (Hlast1 : cells h1 !! (d + (sz - 1)) = Some (Live x)).
  { unfold h1. simpl. rewrite write_cells_notin by len.
    by replace (d + (sz - 1)) with (d + sz - 1) by lia. }
  erewrite bind_Ok; cycle 1.
  { unfold pop_back. rewrite (bind_Ok _ _ _ _ _ (get_this_run _ h1)).
    unfold set_size_ at 1. unfold bind at 1.
    cbn [fst snd base_type size_ data_ capacity_].
    rewrite uint_small by lia.
    rewrite (bind_Ok _ _ _ _ _ (get_this_run _ h1)).
    cbn [base_type size_ data_ capacity_].
    exact (on_heap_Ok _ _ _ _ _ (destroy_live _ _ _ Hlast1)). }
  unfold ret. eexists. split; [reflexivity|].
  unfold owns. simpl. split; [len|]. split; [lia|]. split; [|done].
  replace (Z.to_nat cap - length (take i l ++ drop (S i) l))%nat
    with (S (Z.to_nat cap - length l)) by len.
  rewrite fmap_app. simpl.
  apply cells_at_app. split; [|].
  { apply cells_at_app. split; frame_cells. }
  change (Raw :: ?r) with ([@Raw T] ++ r).
  apply cells_at_app. split; frame_cells.
Qed.

(** With a free slot, [insert] followed by [erase] at the position gives
    back the element sequence, in the same block. *)
Lemma insert_erase_room a h l (i : nat) (v : T) :
  owns a h l → (i ≤ length l)%nat → Z.of_nat i < 2 ^ 31 →
  size_ (base_type a) < capacity_ a →
  ∃ h', (p <- insert (data_ (base_type a) + Z.of_nat i) (Temp v) ;; erase p) (a, h)
        = Ok (data_ (base_type a) + Z.of_nat i) (a, h') ∧
        owns a h' l.
Proof.
  intros Ho Hi Hi31 Hroom.
  destruct (insert_room a h l i (Temp v) v Ho eq_refl Hi Hi31 Hroom) as (h1 & E1 & Ho1 & _).
  rewrite (bind_Ok _ _ _ _ _ E1).
  destruct (erase_spec _ h1 _ i Ho1) as (h2 & E2 & Ho2).
  { rewrite length_app, length_take. simpl. lia. }
  simpl in E2, Ho2. exists h2.
  replace (size_ (base_type a) + 1 - 1) with (size_ (base_type a)) in * by lia.
  assert (Hl : take i (take i l ++ v :: drop i l) ++ drop (S i) (take i l ++ v :: drop i l) = l).
  { rewrite take_app_length' by (rewrite length_take; lia).
    replace (S i) with (i + 1)%nat by lia.
    rewrite drop_app_add' by (rewrite length_take; lia).
    change (drop 1 (v :: drop i l)) with (drop i l). apply take_drop. }
  rewrite Hl in Ho2. destruct a as [[sz d] cap]. simpl in *. done.
Qed.

(** *** Copy construction *)

Lemma owns_frame a h h' l :
  owns a h l →
  (∀ q, data_ (base_type a) ≤ q < data_ (base_type a) + capacity_ a →
        cells h' !! q = cells h !! q) →
  (0 < capacity_ a →
   blocks h' !! data_ (base_type a) = blocks h !! data_ (base_type a)) →
  next h ≤ next h' →
  owns a h' l.
Proof.
  intros (Hsz & Hcap & Hc & Hblk & Hnx & Hbelow) Hcells Hblocks Hnext.
  unfold owns. split; [done|]. split; [done|]. split; [|split; [|lia]].
  - eapply cells_at_frame; [done|]. intros q Hq. apply Hcells.
    rewrite length_app, length_live, length_replicate in Hq. lia.
  - destruct Hblk as [?|(? & ? & ?)]; [by left|right]. by rewrite Hblocks.
Qed.

Lemma ArrayVector_copy_spec r h lr :
  owns r h lr → next h + capacity_ r ≤ limit h →
  ∃ h', ArrayVector_copy r h
        = Ok (mkArray (mkView (size_ (base_type r))
                              (if capacity_ r =? 0 then 0 else next h))
                      (capacity_ r)) h' ∧
        owns (mkArray (mkView (size_ (base_type r))
                              (if capacity_ r =? 0 then 0 else next h))
                      (capacity_ r)) h' lr ∧
        (∀ q, q < next h → cells h' !! q = cells h !! q) ∧
        (∀ p, p ≠ next h → blocks h' !! p = blocks h !! p) ∧
        next h ≤ next h' ∧ limit h' = limit h.
Proof.
  destruct r as [[sz d] cap]. simpl.
  intros Ho Hfit. pose proof (owns_live _ _ _ Ho) as Hlive.
  pose proof Ho as (Hsz & Hcap & Hc & Hblk & Hnx & Hbelow). simpl in *.
  unfold ArrayVector_copy. cbn [base_type size_ data_ capacity_].
  destruct (Z.eqb_spec cap 0) as [Hz|Hnz].
  - assert (lr = []) as -> by (destruct lr; [done|simpl in Hsz; lia]).
    simpl in Hsz. subst sz cap. exists h. split; [done|].
    split; [|done]. unfold owns. simpl.
    split; [done|]. split; [lia|]. split; [done|]. split; [by left|lia].
  - set (h1 := mkHeap (write_cells (next h) (replicate (Z.to_nat cap) Raw) (cells h))
                      (<[next h := cap]> (blocks h)) (next h + cap) (limit h)).
    assert (E1 : reserve_raw cap h = Ok (next h) h1) by (apply reserve_raw_fresh; lia).
    rewrite (bind_Ok _ _ _ _ _ E1).
    set (h2 := set_cells h1 (write_cells (next h) (Live <$> lr) (cells h1))).
    assert (E2 : (if 0 <? sz then uninitialized_copy d (d + sz) (next h) else ret tt) h1
                 = Ok tt h2).
    { destruct (Z.ltb_spec 0 sz) as [Hpos|Hzero].
      - eapply (uninitialized_copy_spec _ _ _ _ _ (replicate (length lr) Raw)).
        + lia.
        + simpl. apply cells_at_write_other; [rewrite length_live; lia|done].
        + simpl.
          pose proof (cells_at_take _ _ _ (length lr)
                        (cells_at_write_same (cells h) (next h)
                           (replicate (Z.to_nat cap) Raw))) as H.
          rewrite take_replicate in H.
          by replace (length lr `min` Z.to_nat cap)%nat with (length lr) in H by lia.
        + apply length_replicate.
        + lia.
      - assert (lr = []) as -> by (destruct lr; [done|simpl in Hsz; lia]).
        reflexivity. }
    rewrite (bind_Ok _ _ _ _ _ E2). unfold ret.
    exists h2. split; [done|]. split; [|split; [|split; [|simpl; split; [lia|done]]]].
    + unfold owns. simpl. split; [done|]. split; [done|]. split; [|split; [|lia]].
      * replace (replicate (Z.to_nat cap) Raw)
          with (replicate (length lr) (@Raw T) ++ replicate (Z.to_nat cap - length lr) Raw).
        2:{ rewrite <- replicate_add. f_equal. lia. }
        rewrite write_cells_app, length_replicate.
        rewrite <- (write_cells_comm (next h + Z.of_nat (length lr)))
          by (rewrite ?length_live, ?length_replicate; lia).
        rewrite write_cells_overwrite by (by rewrite length_live, length_replicate).
        rewrite <- (length_live lr) at 1. rewrite <- write_cells_app.
        apply cells_at_write_same.
      * right. split; [lia|]. split; [lia|]. apply lookup_insert_eq.
    + intros q Hq. simpl.
      rewrite !write_cells_notin by (rewrite ?length_live, ?length_replicate; lia). done.
    + intros p Hp. simpl. by rewrite lookup_insert_ne.
Qed.

(** *** Exceptions of the assignment *)

Lemma no_throw_ret {St A} (x : A) : no_throw (ret (St:=St) x).
Proof. intros s e s'. done. Qed.

Lemma no_throw_bind {St A B} (m : M St A) (k : A → M St B) :
  no_throw m → (∀ x, no_throw (k x)) → no_throw (bind m k).
Proof.
  intros Hm Hk s e s'. unfold bind. specialize (Hm s).
  destruct (m s) as [x s1|e1 s1|]; [apply Hk | by destruct (Hm e1 s1) | done].
Qed.

Lemma no_throw_load p : no_throw (load (T:=T) p).
Proof. intros h e s'. unfold load. by destruct (cells h !! p) as [[|?]|]. Qed.

Lemma no_throw_construct p (v : T) : no_throw (construct p v).
Proof. intros h e s'. unfold construct. by destruct (cells h !! p). Qed.

Lemma no_throw_destroy p : no_throw (destroy (T:=T) p).
Proof. intros h e s'. unfold destroy. by destruct (cells h !! p) as [[|?]|]. Qed.

Lemma no_throw_uninitialized_copy first last d :
  no_throw (uninitialized_copy (T:=T) first last d).
Proof.
  apply no_throw_bind.
  - intros h e s'. unfold distance. by destruct (last <? first).
  - intros n. revert first d. induction n as [|n IH]; intros first d; simpl.
    + apply no_throw_ret.
    + apply no_throw_bind; [apply no_throw_load|]. intros v.
      apply no_throw_bind; [apply no_throw_construct|]. intros _. apply IH.
Qed.

Lemma no_throw_deallocate data size : no_throw (deallocate (T:=T) data size).
Proof.
  unfold deallocate. destruct (negb (data =? 0)); [|apply no_throw_ret].
  apply no_throw_bind.
  - unfold destroy_n. generalize (Z.to_nat size) as n. intros n. revert data.
    induction n as [|n IH]; intros data; simpl; [apply no_throw_ret|].
    apply no_throw_bind; [apply no_throw_destroy|]. intros _. apply IH.
  - intros _ h e s'. unfold alloc_deallocate. by destruct (blocks h !! data).
Qed.

Lemma no_throw_on_heap {A} (m : M (heap T) A) : no_throw m → no_throw (on_heap m).
Proof.
  intros Hm s e s'. unfold on_heap. specialize (Hm (snd s)).
  destruct (m (snd s)) as [x h1|e1 h1|]; [done | by destruct (Hm e1 h1) | done].
Qed.

Lemma reserve_raw_throw n h e h' :
  reserve_raw (T:=T) n h = Throw e h' → e = MemoryExhaustion ∧ h' = h.
Proof.
  unfold reserve_raw, allocate.
  destruct (negb (n =? 0)); [|done].
  destruct (next h + n <=? limit h); [done|]. by intros [= <- <-].
Qed.

Lemma ArrayVector_copy_throw r h e h' :
  ArrayVector_copy (T:=T) r h = Throw e h' → e = MemoryExhaustion ∧ h' = h.
Proof.
  unfold ArrayVector_copy, bind.
  destruct (reserve_raw (capacity_ r) h) as [d h1|e1 h1|] eqn:Er.
  - assert (Hnt : no_throw
                    (if 0 <? size_ (base_type r)
                     then uninitialized_copy (T:=T) (data_ (base_type r))
                            (data_ (base_type r) + size_ (base_type r)) d
                     else ret tt)).
    { destruct (0 <? size_ (base_type r));
        [apply no_throw_uninitialized_copy | apply no_throw_ret]. }
    specialize (Hnt h1). revert Hnt.
    generalize (if 0 <? size_ (base_type r)
                then uninitialized_copy (T:=T) (data_ (base_type r))
                       (data_ (base_type r) + size_ (base_type r)) d
                else ret tt).
    intros m Hnt. destruct (m h1) as [?|e2 h2|];
      [done | by destruct (Hnt e2 h2) | done].
  - intros [= <- <-]. by apply reserve_raw_throw in Er.
  - done.
Qed.

(** Whatever the two arrays and the memory: when the assignment of an
    array of another length ends in an exception, the exception is
    [MemoryExhaustion] and the state is the one before the call. *)
Lemma operator_assign_throw a r h e s' :
  size_ (base_type a) ≠ size_ (base_type r) →
  operator_assign (Other r) (a, h) = Throw e s' →
  e = MemoryExhaustion ∧ s' = (a, h).
Proof.
  intros Hsz. unfold operator_assign.
  unfold bind at 1. simpl. apply Z.eqb_neq in Hsz. rewrite Hsz.
  unfold bind at 1, on_heap at 1. simpl.
  destruct (ArrayVector_copy r h) as [t h1|e1 h1|] eqn:Ec.
  - unfold bind, swap. simpl. intros E.
    by destruct (no_throw_on_heap (destructor a) (no_throw_deallocate _ _) (t, h1) e s').
  - intros [= <- <-]. apply ArrayVector_copy_throw in Ec as [-> ->]. done.
  - done.
Qed.

End ArrayLemmas.

(** * The claims of the specification *)

Import Examples.

(** A concrete array state satisfies [owns]. *)
Ltac example_owns :=
  unfold owns; simpl;
  split; [reflexivity|];
  split; [lia|];
  split; [simpl; repeat split; reflexivity|];
  split; [first [ left; split; reflexivity
                | right; split; [lia|]; split; [lia|reflexivity] ]|];
  simpl; lia.

(** A concrete view satisfies [views]. *)
Ltac example_views :=
  unfold views; simpl; split; [reflexivity|]; repeat split; reflexivity.

(** ** View: copy *)

(** C3.  [copyImpl] between two views of equal length over live
    elements, overlapping or not: the copy is [std::copy] (forward) when
    this view starts at or before [rhs], and [std::copy_backward]
    otherwise; it runs to the end, this view then holds the element
    sequence that [rhs] held before the call, and no slot outside this
    view has changed. *)
Theorem copyImpl_alias_correct {T} (h : heap T) (this rhs : ArrayVectorView)
    (l ld : list T) :
  views rhs h l → views this h ld → size_ this = size_ rhs →
  (copyImpl this rhs h
   = if data_ this <=? data_ rhs
     then std_copy (begin_ rhs) (end_ rhs) (begin_ this) h
     else std_copy_backward (begin_ rhs) (end_ rhs) (end_ this) h) ∧
  ∃ h', copyImpl this rhs h = Ok tt h' ∧
        contents (cells h') (data_ this) (length l) = Some l ∧
        ∀ q, q < data_ this ∨ data_ this + size_ this ≤ q →
             cells h' !! q = cells h !! q.
Proof.
  intros Hr Ht Hsz. split.
  - unfold copyImpl. rewrite Hsz, Z.eqb_refl.
    rewrite (bind_Ok _ _ _ _ _ (precondition_true _ _)).
    by destruct (data_ this <=? data_ rhs).
  - assert (Hlen : length ld = length l) by (destruct Hr, Ht; lia).
    rewrite (copyImpl_spec _ _ _ _ _ Hr Ht Hlen).
    eexists. split; [done|]. simpl. split.
    + apply contents_live, cells_at_write_same.
    + intros q Hq. apply write_cells_notin. rewrite length_live.
      destruct Ht. lia.
Qed.

(** Both directions on [1, 2, 3, 4]: slots 0..2 copied into slots 1..3
    (backward), and slots 1..3 copied into slots 0..2 (forward). *)
Lemma copyImpl_alias_correct_witness :
  elements_after (copyImpl (mkView 3 2) (mkView 3 1)) h1234 2 3 = Some [1; 2; 3] ∧
  elements_after (copyImpl (mkView 3 1) (mkView 3 2)) h1234 1 3 = Some [2; 3; 4].
Proof.
  split.
  - destruct (copyImpl_alias_correct h1234 (mkView 3 2) (mkView 3 1)
                [1; 2; 3] [2; 3; 4]) as [_ (h' & E & Hc & _)];
      [example_views | example_views | reflexivity |].
    unfold elements_after. rewrite E. exact Hc.
  - destruct (copyImpl_alias_correct h1234 (mkView 3 1) (mkView 3 2)
                [2; 3; 4] [1; 2; 3]) as [_ (h' & E & Hc & _)];
      [example_views | example_views | reflexivity |].
    unfold elements_after. rewrite E. exact Hc.
Defined.

(** [copy] between two views: with different start addresses and
    different lengths it fails with the shape mismatch, as [copy_U]
    does for any two views of different lengths; with the same start
    address it returns at once, whatever the lengths. *)
Lemma copy_shape_mismatch {T} (h : heap T) (this rhs : ArrayVectorView) :
  (size_ this ≠ size_ rhs → data_ this ≠ data_ rhs →
   copy this rhs h
   = Throw (PreconditionViolation "ArrayVectorView::copy(): shape mismatch.") h) ∧
  (size_ this ≠ size_ rhs →
   copy_U this rhs h
   = Throw (PreconditionViolation "ArrayVectorView::copy(): shape mismatch.") h) ∧
  (data_ this = data_ rhs → copy this rhs h = Ok tt h).
Proof.
  unfold copy, copy_U. split; [|split].
  - intros Hs Hd. apply Z.eqb_neq in Hd. rewrite Hd. simpl.
    unfold copyImpl. apply Z.eqb_neq in Hs. by rewrite Hs.
  - intros Hs. unfold copyImpl. apply Z.eqb_neq in Hs. by rewrite Hs.
  - intros ->. by rewrite Z.eqb_refl.
Qed.

(** C5.  [copy] between the view of the array [1, 2, 3, 4] and the view
    [subarray(0, 3)] of its first three elements, which differ in
    length and start at the same address, returns without an exception
    in either direction and leaves the memory as it was.  On the same
    two views [copy_U], the overload for another element type, throws
    the shape mismatch, and so does [copy] itself on two views of these
    lengths that start at different addresses. *)
Theorem copy_same_start_skips_shape_check :
  subarray whole 0 3 h1234 = Ok (mkView 3 1) h1234 ∧
  copy whole (mkView 3 1) h1234 = Ok tt h1234 ∧
  copy (mkView 3 1) whole h1234 = Ok tt h1234 ∧
  copy_U whole (mkView 3 1) h1234
  = Throw (PreconditionViolation "ArrayVectorView::copy(): shape mismatch.") h1234 ∧
  copy whole (mkView 3 2) h1234
  = Throw (PreconditionViolation "ArrayVectorView::copy(): shape mismatch.") h1234.
Proof. repeat split; vm_compute; reflexivity. Qed.

(** ** Array: reserve and push_back *)

(** C8.  [reserve(n)] on an array that holds [l]: with [n] at most the
    capacity nothing changes; with a larger [n] and a provider that can
    supply [n] slots the capacity becomes exactly [n], the length and the
    element sequence stay; when the provider cannot, [MemoryExhaustion]
    is raised and nothing has changed.  The capacity never decreases. *)
Theorem reserve_never_shrinks {T} (a : ArrayVector) (h : heap T) (l : list T) (n : Z) :
  owns a h l → 0 ≤ n < 2 ^ 32 →
  (n ≤ capacity_ a → reserve n (a, h) = Ok tt (a, h)) ∧
  (capacity_ a < n → next h + n ≤ limit h →
   ∃ a' h', reserve n (a, h) = Ok tt (a', h') ∧ owns a' h' l ∧
            capacity_ a' = n ∧ size_ (base_type a') = size_ (base_type a)) ∧
  (capacity_ a < n → limit h < next h + n →
   reserve n (a, h) = Throw MemoryExhaustion (a, h)).
Proof.
  intros Ho Hn. pose proof Ho as (Hsz & Hcap & _). split; [|split].
  - intros Hle. unfold reserve, bind, get_this. simpl.
    by destruct (Z.leb_spec n (capacity_ a)); [|lia].
  - intros Hlt Hfit.
    destruct (reserve_grow a h l n Ho ltac:(lia) Hfit) as (h' & E & Ho' & _).
    by eexists _, h'.
  - intros Hlt Hex. unfold reserve, bind, get_this. simpl.
    destruct (Z.leb_spec n (capacity_ a)); [lia|].
    unfold on_heap, reserve_raw. simpl.
    destruct (Z.eqb_spec n 0); [lia|]. simpl.
    rewrite allocate_exhausted by done. by destruct a.
Qed.

(** [reserve(2)], [reserve(5)] and [reserve(200)] on [1, 2, 3] with
    capacity 3 and a budget that ends at address 100. *)
Lemma reserve_never_shrinks_witness :
  reserve 2 (a123, h123) = Ok tt (a123, h123) ∧
  (∃ a' h', reserve 5 (a123, h123) = Ok tt (a', h') ∧ owns a' h' [1; 2; 3] ∧
            capacity_ a' = 5 ∧ size_ (base_type a') = 3) ∧
  reserve 200 (a123, h123) = Throw MemoryExhaustion (a123, h123).
Proof.
  split; [|split].
  - apply (reserve_never_shrinks a123 h123 [1; 2; 3] 2); [example_owns|lia|simpl; lia].
  - apply (reserve_never_shrinks a123 h123 [1; 2; 3] 5);
      [example_owns|lia|simpl; lia|simpl; lia].
  - apply (reserve_never_shrinks a123 h123 [1; 2; 3] 200);
      [example_owns|lia|simpl; lia|simpl; lia].
Defined.




(** C10.  [ArrayVector(0)] allocates nothing: the memory is unchanged,
    length and capacity are 0 and the data pointer is null, whereas the
    default constructor takes a block of 2 slots from the provider.  A
    [push_back] on the array without capacity succeeds when the provider
    can supply 2 slots: [reserve()] first raises the capacity to
    [minimumCapacity], and the array then holds the one element. *)
Theorem ArrayVector_size_zero_then_push_back {T} `{Inhabited T} (h : heap T) (v : T) :
  0 < next h →
  ArrayVector_size 0 h = Ok (mkArray (mkView 0 0) 0) h ∧
  (next h + 2 ≤ limit h →
   (∃ h', ArrayVector_default h = Ok (mkArray (mkView 0 (next h)) 2) h' ∧
          next h ≠ 0 ∧ blocks h' !! next h = Some 2) ∧
   (∃ a' h', push_back (Temp v) (mkArray (mkView 0 0) 0, h) = Ok tt (a', h') ∧
             owns a' h' [v] ∧ size_ (base_type a') = 1 ∧ capacity_ a' = 2)).
Proof.
  intros Hnx. split; [reflexivity|]. intros Hfit. split.
  - unfold ArrayVector_default, minimumCapacity.
    rewrite (bind_Ok _ _ _ _ _ (reserve_raw_fresh h 2 ltac:(lia) Hfit)).
    eexists. split; [reflexivity|]. split; [lia|]. simpl. apply lookup_insert_eq.
  - assert (Ho : owns (mkArray (mkView 0 0) 0) h []).
    { unfold owns. simpl. split; [done|]. split; [lia|]. split; [done|].
      split; [by left|lia]. }
    destruct (push_back_spec _ h [] (Temp v) v Ho eq_refl ltac:(simpl; lia)
                ltac:(intros _; exact Hfit))
      as (a' & h' & E & Ho' & Hsz & Hcap & _).
    by exists a', h'.
Qed.

Lemma ArrayVector_size_zero_then_push_back_witness :
  ArrayVector_size 0 h_empty = Ok (mkArray (mkView 0 0) 0) h_empty ∧
  (∃ h', ArrayVector_default h_empty = Ok (mkArray (mkView 0 1) 2) h' ∧
         blocks h' !! 1 = Some 2) ∧
  (∃ a' h', push_back (Temp 7) (mkArray (mkView 0 0) 0, h_empty) = Ok tt (a', h') ∧
            owns a' h' [7] ∧ size_ (base_type a') = 1 ∧ capacity_ a' = 2).
Proof.
  destruct (ArrayVector_size_zero_then_push_back h_empty 7 ltac:(simpl; lia))
    as (E0 & Hrest).
  destruct (Hrest ltac:(simpl; lia)) as ((h' & Ed & _ & Hb) & Hpush).
  split; [exact E0|]. split; [|exact Hpush].
  exists h'. split; [exact Ed|exact Hb].
Defined.

(** ** Array: insertion and removal *)




(** C6.  [insert(p, v)] before the end of an array whose length equals
    its capacity has no defined result: [push_back(this->back())] passes
    a reference to the last slot; [reserve()] moves the elements and
    releases the block the reference points into; the reference is read
    afterwards.  So the insertion of the claim does not take place on
    such an array, whatever the value inserted. *)
Theorem insert_full_array_undefined {T} (a : ArrayVector) (h : heap T) (l : list T)
    (i : nat) (v : cref T) :
  owns a h l → (i < length l)%nat →
  size_ (base_type a) = capacity_ a → 2 * capacity_ a < 2 ^ 32 →
  next h + 2 * capacity_ a ≤ limit h →
  insert (data_ (base_type a) + Z.of_nat i) v (a, h) = Undefined.
Proof.
  intros Ho Hi Hfull Hdbl Hfit.
  pose proof Ho as (Hsz & Hcap & _).
  assert (Hg : grown a = 2 * capacity_ a).
  { unfold grown. destruct (Z.eqb_spec (capacity_ a) 0); [lia|].
    by destruct (Z.eqb_spec (size_ (base_type a)) (capacity_ a)). }
  destruct (reserve0_spec a h l Ho Hdbl ltac:(lia))
    as (a' & h' & E & _ & _ & _ & _ & _ & Hmoved).
  destruct (Hmoved ltac:(lia)) as (_ & Hfreed & _).
  unfold insert.
  rewrite (bind_Ok _ _ _ _ _ (get_this_run _ h)). unfold begin_, end_.
  destruct (Z.eqb_spec (data_ (base_type a) + Z.of_nat i)
              (data_ (base_type a) + size_ (base_type a))) as [?|_]; [lia|].
  apply bind_Undefined. unfold push_back.
  rewrite (bind_Ok _ _ _ _ _ E).
  rewrite (bind_Ok _ _ _ _ _ (get_this_run _ h')).
  apply bind_Undefined. unfold on_heap, deref, load. simpl.
  rewrite uint_small by lia. rewrite Hfreed by lia. done.
Qed.

(** The array [1, 2, 3] built with length and capacity 3, and
    [insert(position 1, 9)]. *)
Lemma insert_full_array_undefined_witness :
  insert 2 (Temp 9) (a123, h123) = Undefined.
Proof.
  apply (insert_full_array_undefined a123 h123 [1; 2; 3] 1 (Temp 9));
    [example_owns | simpl; lia | reflexivity | simpl; lia | simpl; lia].
Defined.

(** With a free slot the scenario runs as the specification has it:
    [1, 2, 3] in a block of four slots, [insert(position 1, 9)] gives
    [1, 9, 2, 3] and [erase(position 1)] gives [1, 2, 3] back (lemma
    [insert_erase_room] has it for every array with a free slot). *)
Lemma insert_erase_with_room_example :
  array_after (insert 2 (Temp 9)) (a123r, h123r) = Some [1; 9; 2; 3] ∧
  array_after (p <- insert 2 (Temp 9) ;; erase p) (a123r, h123r) = Some [1; 2; 3].
Proof. vm_compute. done. Qed.

(** C7.  Assignment [a = r] of another array:
    - lengths equal: the elements of [r] are copied into the block [a]
      has; data pointer, capacity and the provider's state stay;
    - lengths different and the provider cannot supply the block of the
      temporary copy: [MemoryExhaustion] is raised and the array and the
      whole memory are as before the call;
    - lengths different and the provider can: the array holds the
      elements of [r], with the length and the capacity of [r];
    - lengths different, in any state: an exception that leaves the
      assignment is [MemoryExhaustion] and finds the array and the
      memory as before the call. *)
Theorem operator_assign_atomic {T} (a r : ArrayVector) (h : heap T) (la lr : list T) :
  owns a h la → owns r h lr →
  (size_ (base_type a) = size_ (base_type r) →
   ∃ h', operator_assign (Other r) (a, h) = Ok tt (a, h') ∧ owns a h' lr ∧
         blocks h' = blocks h ∧ next h' = next h) ∧
  (size_ (base_type a) ≠ size_ (base_type r) → 0 < capacity_ r →
   limit h < next h + capacity_ r →
   operator_assign (Other r) (a, h) = Throw MemoryExhaustion (a, h)) ∧
  (size_ (base_type a) ≠ size_ (base_type r) →
   next h + capacity_ r ≤ limit h →
   ∃ a' h', operator_assign (Other r) (a, h) = Ok tt (a', h') ∧ owns a' h' lr ∧
            size_ (base_type a') = size_ (base_type r) ∧
            capacity_ a' = capacity_ r) ∧
  (size_ (base_type a) ≠ size_ (base_type r) →
   ∀ e s', operator_assign (Other r) (a, h) = Throw e s' →
           e = MemoryExhaustion ∧ s' = (a, h)).
Proof.
  intros Ha Hr. unfold operator_assign.
  rewrite (bind_Ok _ _ _ _ _ (get_this_run _ h)).
  split; [|split; [|split]].
  - intros Hsz. rewrite Hsz, Z.eqb_refl.
    pose proof Ha as (Hsa & Hcapa & _). pose proof Hr as (Hsr & _).
    assert (Hlen : length la = length lr) by lia.
    rewrite (on_heap_Ok _ _ _ _ _
               (copyImpl_spec h (base_type a) (base_type r) lr la
                  (conj Hsr (owns_live _ _ _ Hr)) (conj Hsa (owns_live _ _ _ Ha)) Hlen)).
    eexists. split; [done|]. split; [|done].
    destruct Ha as (_ & _ & Hc & Hblk & Hnx). unfold owns. simpl.
    split; [lia|]. split; [lia|]. split; [|done].
    apply cells_at_app in Hc as [_ Hraw]. rewrite length_live in Hraw.
    rewrite <- Hlen. apply cells_at_app. split.
    + apply cells_at_write_same.
    + rewrite length_live.
      apply cells_at_write_other; [rewrite length_live; lia|].
      by rewrite <- Hlen.
  - intros Hsz Hpos Hex. apply Z.eqb_neq in Hsz. rewrite Hsz.
    unfold bind, on_heap, ArrayVector_copy, bind, reserve_raw. simpl.
    destruct (Z.eqb_spec (capacity_ r) 0); [lia|]. simpl.
    rewrite allocate_exhausted by done. by destruct a.
  - intros Hsz Hfit. apply Z.eqb_neq in Hsz. rewrite Hsz.
    destruct (ArrayVector_copy_spec r h lr Hr Hfit)
      as (h1 & E1 & Ht & Hcells1 & Hblocks1 & Hnext1 & Hlim1).
    rewrite (bind_Ok _ _ _ _ _ (on_heap_Ok _ _ _ _ _ E1)).
    unfold swap at 1. unfold bind at 1. cbn [fst snd].
    pose proof Ha as (Hsa & Hcapa & _ & Hblka & Hnxa & Hbelowa).
    assert (Ha1 : owns a h1 la).
    { eapply owns_frame; [exact Ha| | |done].
      - intros q Hq. apply Hcells1. lia.
      - intros _. apply Hblocks1. destruct Hblka as [[? ?]|(? & ? & ?)]; lia. }
    destruct (deallocate_owned a h1 h1 la Ha1 (owns_live _ _ _ Ha1) eq_refl)
      as (h2 & E2 & Hnx2 & Hlim2 & Hfreed & Hkept & Hblocks2 & Hgone).
    unfold destructor.
    rewrite (on_heap_Ok _ _ _ _ _ E2).
    eexists _, h2. split; [done|]. split; [|done].
    eapply owns_frame; [exact Ht| | |lia]; cbn [base_type size_ data_ capacity_].
    + intros q Hq. apply Hkept.
      destruct (Z.eqb_spec (capacity_ r) 0); lia.
    + intros Hpos. apply Hblocks2.
      destruct (Z.eqb_spec (capacity_ r) 0);
        destruct Hblka as [[? ?]|(? & ? & ?)]; lia.
  - intros Hsz e s'. by apply operator_assign_throw.
Qed.

(** The array [1, 2] assigned from [7, 8] (same length), from [7, 8, 9]
    with a budget that ends at address 7 (the copy of 3 slots does not
    fit), and from [7, 8, 9] with a budget that ends at address 100. *)
Lemma operator_assign_atomic_witness :
  (∃ h', operator_assign (Other b78) (a12, h_two') = Ok tt (a12, h') ∧
         owns a12 h' [7; 8]) ∧
  operator_assign (Other b789) (a12, h_two 7)
  = Throw MemoryExhaustion (a12, h_two 7) ∧
  (∃ a' h', operator_assign (Other b789) (a12, h_two 100) = Ok tt (a', h') ∧
            owns a' h' [7; 8; 9] ∧ capacity_ a' = 3).
Proof.
  split; [|split].
  - destruct (operator_assign_atomic a12 b78 h_two' [1; 2] [7; 8])
      as [Heq _]; [example_owns | example_owns |].
    destruct (Heq eq_refl) as (h' & E & Ho & _). by exists h'.
  - apply (operator_assign_atomic a12 b789 (h_two 7) [1; 2] [7; 8; 9]);
      [example_owns | example_owns | simpl; lia | simpl; lia | simpl; lia].
  - destruct (operator_assign_atomic a12 b789 (h_two 100) [1; 2] [7; 8; 9])
      as (_ & _ & Hok & _); [example_owns | example_owns |].
    destruct (Hok ltac:(simpl; lia) ltac:(simpl; lia)) as (a' & h' & E & Ho & _ & Hc).
    by exists a', h'.
Defined.

(** * Further properties of the view *)

Section MoreViewLemmas.
Context {T : Type}.
Implicit Types (h : heap T) (this rhs v : ArrayVectorView) (l : list T).

Lemma views_lookup v h l (i : nat) x :
  views v h l → l !! i = Some x →
  cells h !! (data_ v + Z.of_nat i) = Some (Live x).
Proof.
  intros [_ Hc] Hi. eapply cells_at_lookup; [exact Hc|].
  by rewrite list_lookup_fmap, Hi.
Qed.

(** A segment of a view is a view. *)
Lemma views_segment v h l (i k : nat) :
  views v h l → (i + k ≤ length l)%nat →
  views (mkView (Z.of_nat k) (data_ v + Z.of_nat i)) h (take k (drop i l)).
Proof.
  intros [Hn Hc] Hik. split; simpl.
  - rewrite length_take, length_drop. lia.
  - rewrite fmap_take, fmap_drop. by apply cells_at_take, cells_at_drop.
Qed.

Lemma equal_loop_spec `{NotEqual T} h p q (l1 l2 : list T) :
  cells_at (cells h) p (Live <$> l1) →
  cells_at (cells h) q (Live <$> l2) →
  length l1 = length l2 →
  equal_loop (length l1) p q h = Ok (none_differ l1 l2) h.
Proof.
  revert h p q l2.
  induction l1 as [|x l1 IH]; intros h p q [|y l2] H1 H2 Hlen; simpl in *; try done.
  destruct H1 as [Hx H1], H2 as [Hy H2].
  rewrite (bind_Ok _ _ _ _ _ (load_live _ _ _ Hx)).
  rewrite (bind_Ok _ _ _ _ _ (load_live _ _ _ Hy)).
  unfold none_differ. simpl. destruct (not_equal x y); simpl; [done|].
  apply IH; [done|done|lia].
Qed.

(** When [!=] is the negation of equality, no index differs exactly
    when the sequences of equal length are equal. *)
Lemma none_differ_eq `{NotEqual T} `{EqDecision T} (l1 l2 : list T) :
  (∀ x y : T, not_equal x y = false ↔ x = y) →
  length l1 = length l2 →
  none_differ l1 l2 = bool_decide (l1 = l2).
Proof.
  intros Hne. revert l2.
  induction l1 as [|x l1 IH]; intros [|y l2] Hlen; simpl in *; try done.
  unfold none_differ in *. simpl.
  destruct (not_equal x y) eqn:Exy; simpl.
  - symmetry. apply bool_decide_eq_false_2. intros [= -> _].
    assert (not_equal y y = false) by by apply Hne. congruence.
  - apply Hne in Exy as ->. rewrite IH by lia.
    apply bool_decide_ext. split; [by intros ->|by intros [= ->]].
Qed.

End MoreViewLemmas.

(** X1.  [subarray(begin, end)] of a view over [l], for limits of type
    [size_type]: with [begin <= end <= size()] the result is the view of
    the [end - begin] elements from index [begin] on, in the same memory;
    with any other limits the [PreconditionViolation] is thrown. *)
Theorem subarray_limits {T} (v : ArrayVectorView) (h : heap T) (l : list T) (b e : Z) :
  views v h l → size_ v < 2 ^ 32 → 0 ≤ b < 2 ^ 32 → 0 ≤ e < 2 ^ 32 →
  (b ≤ e ≤ size_ v →
   subarray v b e h = Ok (mkView (e - b) (data_ v + b)) h ∧
   views (mkView (e - b) (data_ v + b)) h
         (take (Z.to_nat (e - b)) (drop (Z.to_nat b) l))) ∧
  (e < b ∨ size_ v < e →
   subarray v b e h
   = Throw (PreconditionViolation "ArrayVectorView::subarray(): Limits out of range.") h).
Proof.
  intros Hv Hsz Hb He. unfold subarray. split.
  - intros Hin.
    replace ((0 <=? b) && (b <=? e) && (e <=? size_ v)) with true
      by (symmetry; rewrite !andb_true_iff, !Z.leb_le; lia).
    rewrite (bind_Ok _ _ _ _ _ (precondition_true _ _)).
    rewrite uint_small by lia. split; [done|].
    pose proof (views_segment v h l (Z.to_nat b) (Z.to_nat (e - b)) Hv) as Hseg.
    rewrite !Z2Nat.id in Hseg by lia. apply Hseg. destruct Hv. lia.
  - intros Hout.
    replace ((0 <=? b) && (b <=? e) && (e <=? size_ v)) with false; [done|].
    symmetry. rewrite !andb_false_iff, !Z.leb_gt. lia.
Qed.

Lemma subarray_limits_witness :
  (subarray whole 1 3 h1234 = Ok (mkView 2 2) h1234 ∧
   views (mkView 2 2) h1234 [2; 3]) ∧
  subarray whole 3 5 h1234
  = Throw (PreconditionViolation "ArrayVectorView::subarray(): Limits out of range.") h1234.
Proof.
  split.
  - apply (proj1 (subarray_limits whole h1234 [1; 2; 3; 4] 1 3
                    ltac:(example_views) ltac:(simpl; lia) ltac:(lia) ltac:(lia))).
    simpl. lia.
  - apply (proj2 (subarray_limits whole h1234 [1; 2; 3; 4] 3 5
                    ltac:(example_views) ltac:(simpl; lia) ltac:(lia) ltac:(lia))).
    simpl. lia.
Defined.

(** X2.  A subarray of a subarray is the subarray of the original view
    at the added offsets. *)
Theorem subarray_of_subarray {T} (v : ArrayVectorView) (h : heap T) (b e b' e' : Z) :
  0 ≤ b ≤ e → e ≤ size_ v → size_ v < 2 ^ 32 → 0 ≤ b' ≤ e' → e' ≤ e - b →
  (v1 <- subarray v b e ;; subarray v1 b' e') h = subarray v (b + b') (b + e') h.
Proof.
  intros Hb He Hsz Hb' He'. unfold subarray, bind, vigra_precondition, ret.
  replace ((0 <=? b) && (b <=? e) && (e <=? size_ v)) with true
    by (symmetry; rewrite !andb_true_iff, !Z.leb_le; lia).
  simpl. rewrite (uint_small (e - b)) by lia.
  replace ((0 <=? b') && (b' <=? e') && (e' <=? e - b)) with true
    by (symmetry; rewrite !andb_true_iff, !Z.leb_le; lia).
  replace ((0 <=? b + b') && (b + b' <=? b + e') && (b + e' <=? size_ v)) with true
    by (symmetry; rewrite !andb_true_iff, !Z.leb_le; lia).
  do 2 f_equal; [f_equal; lia | lia].
Qed.

Lemma subarray_of_subarray_witness :
  (v1 <- subarray whole 1 4 ;; subarray v1 1 2) h1234 = subarray whole 2 3 h1234.
Proof.
  apply (subarray_of_subarray whole h1234 1 4 1 2); simpl; lia.
Defined.

(** X3.  The copy assignment of views.  A view without data (the null
    pointer, as after default construction) becomes a second view of the
    range of [rhs] and no element is copied.  A view with data is never
    rebound: with the start address of [rhs] nothing happens, whatever
    the two lengths; with another start address and another length the
    shape mismatch is thrown; with another start address and the same
    length the elements of [rhs] are copied into it, and no slot outside
    it changes. *)
Theorem view_operator_assign_cases {T} (this rhs : ArrayVectorView) (h : heap T) :
  (data_ this = 0 → view_operator_assign this rhs h = Ok rhs h) ∧
  (data_ this ≠ 0 → data_ this = data_ rhs →
   view_operator_assign this rhs h = Ok this h) ∧
  (data_ this ≠ 0 → data_ this ≠ data_ rhs → size_ this ≠ size_ rhs →
   view_operator_assign this rhs h
   = Throw (PreconditionViolation "ArrayVectorView::copy(): shape mismatch.") h) ∧
  (∀ l ld, data_ this ≠ 0 → data_ this ≠ data_ rhs →
     views rhs h l → views this h ld → length ld = length l →
     ∃ h', view_operator_assign this rhs h = Ok this h' ∧
           views this h' l ∧
           ∀ q, q < data_ this ∨ data_ this + size_ this ≤ q →
                cells h' !! q = cells h !! q).
Proof.
  unfold view_operator_assign. split; [|split; [|split]].
  - intros ->. simpl. by destruct rhs.
  - intros H0 Heq. apply Z.eqb_neq in H0. rewrite H0, <- Heq, Z.eqb_refl. done.
  - intros H0 Hne Hsz. apply Z.eqb_neq in H0, Hne, Hsz. rewrite H0, Hne. simpl.
    unfold copyImpl, bind. by rewrite Hsz.
  - intros l ld H0 Hne Hr Ht Hlen. apply Z.eqb_neq in H0, Hne. rewrite H0, Hne. simpl.
    rewrite (bind_Ok _ _ _ _ _ (copyImpl_spec _ _ _ _ _ Hr Ht Hlen)).
    eexists. split; [done|]. simpl. split.
    + destruct Ht as [Hn _]. split; [lia|]. apply cells_at_write_same.
    + intros q Hq. apply write_cells_notin. rewrite length_live.
      destruct Ht. lia.
Qed.

Lemma view_operator_assign_cases_witness :
  view_operator_assign (mkView 0 0) (mkView 3 2) h1234 = Ok (mkView 3 2) h1234 ∧
  view_operator_assign (mkView 4 1) (mkView 2 1) h1234 = Ok (mkView 4 1) h1234 ∧
  view_operator_assign (mkView 4 1) (mkView 2 2) h1234
  = Throw (PreconditionViolation "ArrayVectorView::copy(): shape mismatch.") h1234 ∧
  ∃ h', view_operator_assign (mkView 2 1) (mkView 2 3) h1234 = Ok (mkView 2 1) h' ∧
        views (mkView 2 1) h' [3; 4].
Proof.
  split; [|split; [|split]].
  - apply (view_operator_assign_cases (mkView 0 0) (mkView 3 2) h1234). reflexivity.
  - apply (view_operator_assign_cases (mkView 4 1) (mkView 2 1) h1234); simpl; lia.
  - apply (view_operator_assign_cases (mkView 4 1) (mkView 2 2) h1234); simpl; lia.
  - destruct (proj2 (proj2 (proj2
      (view_operator_assign_cases (mkView 2 1) (mkView 2 3) h1234))) [3; 4] [1; 2])
      as (h' & E & Hv & _);
      [simpl; lia | simpl; lia | example_views | example_views | reflexivity |].
    by exists h'.
Defined.

(** X4.  [operator==] on two views over live elements returns true
    exactly when the views have the same length and the [!=] of the
    element type is false for the two elements of every index;
    [operator!=] returns the opposite, and the memory is not changed.
    For an element type whose [!=] is false exactly on equal values,
    [operator==] returns whether the two element sequences are equal. *)
Theorem operator_eq_elementwise {T} `{NotEqual T} `{EqDecision T}
    (this rhs : ArrayVectorView) (h : heap T) (l1 l2 : list T) :
  views this h l1 → views rhs h l2 →
  operator_eq this rhs h
  = Ok (bool_decide (length l1 = length l2) && none_differ l1 l2) h ∧
  operator_ne this rhs h
  = Ok (negb (bool_decide (length l1 = length l2) && none_differ l1 l2)) h ∧
  ((∀ x y : T, not_equal x y = false ↔ x = y) →
   operator_eq this rhs h = Ok (bool_decide (l1 = l2)) h).
Proof.
  intros [Hn1 H1] [Hn2 H2].
  assert (E : operator_eq this rhs h
              = Ok (bool_decide (length l1 = length l2) && none_differ l1 l2) h).
  { unfold operator_eq.
    destruct (Z.eqb_spec (size_ this) (size_ rhs)) as [Heq|Hne]; simpl.
    - rewrite bool_decide_eq_true_2 by lia. simpl.
      rewrite Hn1, Nat2Z.id. apply equal_loop_spec; [done|done|lia].
    - rewrite bool_decide_eq_false_2 by lia. done. }
  split; [exact E|]. split.
  - unfold operator_ne. by rewrite (bind_Ok _ _ _ _ _ E).
  - intros Hne. rewrite E. f_equal.
    destruct (decide (length l1 = length l2)) as [Hlen|Hlen].
    + rewrite bool_decide_eq_true_2 by done. simpl. by apply none_differ_eq.
    + rewrite bool_decide_eq_false_2 by done. simpl.
      symmetry. apply bool_decide_eq_false_2. by intros ->.
Qed.

(** The views over [1, 2] and [7, 8, 9] of one memory, with the [!=] of
    the integers. *)
Lemma operator_eq_elementwise_witness :
  operator_eq (mkView 2 1) (mkView 2 3) (h_two 100) = Ok false (h_two 100) ∧
  operator_ne (mkView 2 1) (mkView 3 3) (h_two 100) = Ok true (h_two 100) ∧
  operator_eq (mkView 2 1) (mkView 2 1) (h_two 100) = Ok true (h_two 100).
Proof.
  assert (Hne : ∀ x y : Z, not_equal x y = false ↔ x = y).
  { intros x y. unfold not_equal, Z_not_equal.
    rewrite negb_false_iff. apply Z.eqb_eq. }
  split; [|split].
  - exact (proj2 (proj2 (operator_eq_elementwise (mkView 2 1) (mkView 2 3) (h_two 100)
                    [1; 2] [7; 8] ltac:(example_views) ltac:(example_views))) Hne).
  - exact (proj1 (proj2 (operator_eq_elementwise (mkView 2 1) (mkView 3 3) (h_two 100)
                    [1; 2] [7; 8; 9] ltac:(example_views) ltac:(example_views)))).
  - exact (proj2 (proj2 (operator_eq_elementwise (mkView 2 1) (mkView 2 1) (h_two 100)
                    [1; 2] [1; 2] ltac:(example_views) ltac:(example_views))) Hne).
Defined.

(** X5.  [init(initial)] overwrites every element of the view with the
    value of [initial] and changes no other slot; [initial] is a
    reference and may be bound to an element of the view itself. *)
Theorem init_overwrites_all {T} (v : ArrayVectorView) (h : heap T) (l : list T)
    (t : cref T) (x : T) :
  views v h l → holds t h x →
  ∃ h', init v t h = Ok tt h' ∧
        views v h' (replicate (length l) x) ∧
        ∀ q, q < data_ v ∨ data_ v + size_ v ≤ q → cells h' !! q = cells h !! q.
Proof.
  intros [Hn Hc] Ht. unfold init, begin_, end_.
  rewrite (std_fill_holds h _ _ t x l); [|lia|done|done].
  eexists. split; [done|]. simpl. split.
  - split; [by rewrite length_replicate|].
    rewrite fmap_replicate. apply cells_at_write_same.
  - intros q Hq. apply write_cells_notin. rewrite length_replicate. lia.
Qed.

Lemma init_overwrites_all_witness :
  (∃ h', init whole (Temp 7) h1234 = Ok tt h' ∧ views whole h' [7; 7; 7; 7]) ∧
  (∃ h', init whole (Ref 3) h1234 = Ok tt h' ∧ views whole h' [3; 3; 3; 3]).
Proof.
  split.
  - destruct (init_overwrites_all whole h1234 [1; 2; 3; 4] (Temp 7) 7)
      as (h' & E & Hv & _); [example_views | reflexivity |].
    by exists h'.
  - destruct (init_overwrites_all whole h1234 [1; 2; 3; 4] (Ref 3) 3)
      as (h' & E & Hv & _); [example_views | reflexivity |].
    by exists h'.
Defined.

(** X6.  Element access on a view over [l]: [operator[]] at an index
    below the length reads that element, [front()] the first and [back()]
    the last element of a view that is not empty; [isInside] is true for
    exactly the indices [0 <= p < size()], so that an index it accepts
    can be read. *)
Theorem element_access {T} (v : ArrayVectorView) (h : heap T) (l : list T) :
  views v h l → size_ v < 2 ^ 32 →
  (∀ (i : nat) x, l !! i = Some x → operator_index v (Z.of_nat i) h = Ok x h) ∧
  (∀ x, head l = Some x → front v h = Ok x h) ∧
  (∀ x, last l = Some x → back v h = Ok x h) ∧
  (∀ p, - 2 ^ 31 ≤ p < 2 ^ 31 →
        isInside v p = bool_decide (0 ≤ p < size_ v) ∧
        (isInside v p = true → ∃ x, operator_index v p h = Ok x h)).
Proof.
  intros Hv Hsz. pose proof Hv as [Hn Hc].
  assert (Hidx : ∀ (i : nat) x, l !! i = Some x → operator_index v (Z.of_nat i) h = Ok x h).
  { intros i x Hi. apply load_live. by eapply views_lookup. }
  split; [exact Hidx|]. split; [|split].
  - intros x Hx. unfold front. replace (data_ v) with (data_ v + Z.of_nat 0) by lia.
    apply Hidx. by rewrite <- head_lookup.
  - intros x Hx. unfold back. rewrite last_lookup in Hx.
    assert (0 < length l)%nat by (destruct l; simpl in *; [done|lia]).
    rewrite uint_small by lia.
    replace (size_ v - 1) with (Z.of_nat (Nat.pred (length l))) by lia.
    by apply Hidx.
  - intros p Hp.
    assert (Hin : isInside v p = bool_decide (0 ≤ p < size_ v)).
    { unfold isInside. destruct (Z.leb_spec 0 p) as [H0|H0]; simpl.
      - rewrite uint_small by lia.
        destruct (Z.ltb_spec p (size_ v)).
        + by rewrite bool_decide_eq_true_2 by lia.
        + by rewrite bool_decide_eq_false_2 by lia.
      - by rewrite bool_decide_eq_false_2 by lia. }
    split; [exact Hin|]. rewrite Hin. intros Hb. apply bool_decide_eq_true_1 in Hb.
    destruct (lookup_lt_is_Some_2 l (Z.to_nat p)) as [x Hx]; [lia|].
    exists x. rewrite <- (Z2Nat.id p) by lia. by apply Hidx.
Qed.

Lemma element_access_witness :
  operator_index whole 2 h1234 = Ok 3 h1234 ∧
  front whole h1234 = Ok 1 h1234 ∧
  back whole h1234 = Ok 4 h1234 ∧
  isInside whole 4 = false ∧ isInside whole (-1) = false ∧ isInside whole 3 = true.
Proof.
  destruct (element_access whole h1234 [1; 2; 3; 4] ltac:(example_views) ltac:(simpl; lia))
    as (Hidx & Hfront & Hback & Hin).
  split; [exact (Hidx 2%nat 3 eq_refl)|].
  split; [exact (Hfront 1 eq_refl)|].
  split; [exact (Hback 4 eq_refl)|].
  split; [exact (proj1 (Hin 4 ltac:(lia)))|].
  split; [exact (proj1 (Hin (-1) ltac:(lia)))|].
  exact (proj1 (Hin 3 ltac:(lia))).
Defined.

(** * Further properties of the array *)

Section MoreArrayLemmas.
Context {T : Type}.
Implicit Types (h : heap T) (a : ArrayVector) (l : list T).

Lemma pop_back_spec a h l x :
  owns a h (l ++ [x]) →
  ∃ h', pop_back (a, h) = Ok tt (resized a (size_ (base_type a) - 1), h') ∧
        owns (resized a (size_ (base_type a) - 1)) h' l ∧
        blocks h' = blocks h ∧ next h' = next h ∧ limit h' = limit h.
Proof.
  destruct a as [[sz d] cap]. unfold resized. simpl.
  intros Ho. pose proof Ho as (Hsz & Hcap & Hc & Hblk & Hnx & Hbelow).
  rewrite length_app in Hsz, Hc. simpl in *.
  destruct (owns_last _ _ _ Ho ltac:(rewrite length_app; simpl; lia)) as (y & _ & Hlast).
  simpl in Hlast.
  pose proof (owns_seg_live _ _ _ 0 (length l) Ho) as Hpre.
  pose proof (owns_seg_raw _ _ _ (length l + 1) (Z.to_nat cap - (length l + 1)) Ho
                ltac:(rewrite length_app; simpl; lia) ltac:(simpl; lia)) as Hr.
  simpl in Hpre, Hr. rewrite drop_0, take_app_length in Hpre.
  unfold pop_back. rewrite (bind_Ok _ _ _ _ _ (get_this_run _ h)).
  unfold set_size_ at 1. unfold bind at 1.
  cbn [fst snd base_type size_ data_ capacity_].
  rewrite uint_small by lia.
  rewrite (bind_Ok _ _ _ _ _ (get_this_run _ h)).
  cbn [base_type size_ data_ capacity_].
  replace (d + (sz - 1)) with (d + sz - 1) by lia.
  rewrite (on_heap_Ok _ _ _ _ _ (destroy_live _ _ _ Hlast)).
  eexists. split; [reflexivity|]. split; [|done].
  unfold owns. simpl. split; [lia|]. split; [lia|]. split; [|done].
  replace (Z.to_nat cap - length l)%nat with (S (Z.to_nat cap - (length l + 1))) by lia.
  simpl. apply cells_at_app. split; [frame_cells|].
  change (Raw :: ?r) with ([@Raw T] ++ r).
  apply cells_at_app. split; frame_cells.
Qed.

Lemma erase_range_spec a h l (i j : nat) :
  owns a h l → (i ≤ j)%nat → (j ≤ length l)%nat →
  ∃ h', erase_range (data_ (base_type a) + Z.of_nat i) (data_ (base_type a) + Z.of_nat j)
          (a, h)
        = Ok (data_ (base_type a) + Z.of_nat i)
             (resized a (size_ (base_type a) - (Z.of_nat j - Z.of_nat i)), h') ∧
        owns (resized a (size_ (base_type a) - (Z.of_nat j - Z.of_nat i))) h'
             (take i l ++ drop j l) ∧
        blocks h' = blocks h ∧ next h' = next h ∧ limit h' = limit h.
Proof.
  destruct a as [[sz d] cap]. unfold resized. simpl.
  intros Ho Hij Hj. pose proof Ho as (Hsz & Hcap & Hc & Hblk & Hnx & Hbelow). simpl in *.
  pose proof (owns_seg_live _ _ _ 0 i Ho) as Hpre.
  pose proof (owns_seg_live _ _ _ j (length l - j) Ho) as Hsrc.
  pose proof (owns_seg_live _ _ _ i (length l - j) Ho) as Hdst.
  pose proof (owns_seg_live _ _ _ (length l - (j - i)) (j - i) Ho) as Hend.
  pose proof (owns_seg_raw _ _ _ (length l) (Z.to_nat cap - length l) Ho
                ltac:(lia) ltac:(simpl; lia)) as Hr.
  simpl in Hpre, Hsrc, Hdst, Hend, Hr. rewrite drop_0 in Hpre.
  rewrite take_ge in Hsrc by (rewrite length_drop; lia).
  unfold erase_range.
  rewrite (bind_Ok _ _ _ _ _ (get_this_run _ h)). unfold begin_, end_.
  cbn [base_type size_ data_ capacity_].
  replace (d + Z.of_nat j - (d + Z.of_nat i)) with (Z.of_nat (j - i)) by lia.
  rewrite (uint_small (Z.of_nat (j - i))) by lia.
  set (h1 := set_cells h (write_cells (d + Z.of_nat i) (Live <$> drop j l) (cells h))).
  assert (E1 : std_copy (d + Z.of_nat j) (d + sz) (d + Z.of_nat i) h = Ok tt h1).
  { eapply (std_copy_spec _ _ _ _ _ (take (length l - j) (drop i l)));
      [len | frame_cells | frame_cells | len | lia]. }
  rewrite (bind_Ok _ _ _ _ _ (on_heap_Ok _ _ _ _ _ E1)).
  (* the slots that are destroyed still hold the last elements *)
  assert (E2 : destroy_n (d + sz - Z.of_nat (j - i)) (Z.of_nat (j - i)) h1
               = Ok tt (set_cells h1 (write_cells (d + sz - Z.of_nat (j - i))
                                        (replicate (j - i) Raw) (cells h1)))).
  { pose proof (destroy_n_spec h1 (d + sz - Z.of_nat (j - i)) (Z.of_nat (j - i))
                  (take (j - i) (drop (length l - (j - i)) l))) as E.
    replace (length (take (j - i) (drop (length l - (j - i)) l))) with (j - i)%nat in E by len.
    apply E; [done|]. frame_cells. }
  rewrite (bind_Ok _ _ _ _ _ (on_heap_Ok _ _ _ _ _ E2)).
  unfold set_size_ at 1. unfold bind at 1.
  cbn [fst snd base_type size_ data_ capacity_].
  rewrite uint_small by lia. unfold ret.
  replace (sz - Z.of_nat (j - i)) with (sz - (Z.of_nat j - Z.of_nat i)) by lia.
  eexists. split; [reflexivity|]. split; [|done].
  unfold owns. simpl. split; [len|]. split; [lia|]. split; [|done].
  replace (Z.to_nat cap - length (take i l ++ drop j l))%nat
    with ((j - i) + (Z.to_nat cap - length l))%nat by len.
  rewrite replicate_add, fmap_app.
  apply cells_at_app. split.
  - apply cells_at_app. split; [frame_cells|].
    apply cells_at_write_other; [len|].
    apply cells_at_write_same_eq. len.
  - apply cells_at_app. split; frame_cells.
Qed.

End MoreArrayLemmas.

(** ** Removal *)

(** X7.  [pop_back()] on an array that holds [l ++ [x]] destroys the
    last element: the array holds [l] in the same block, with the same
    capacity.  On an array without elements the length, decremented as
    [unsigned int], becomes [2^32 - 1], and the call is undefined unless
    a live object happens to sit [2^32 - 1] slots after the start of the
    block. *)
Theorem pop_back_removes_last {T} (a : ArrayVector) (h : heap T) :
  (∀ l x, owns a h (l ++ [x]) →
     ∃ h', pop_back (a, h) = Ok tt (resized a (size_ (base_type a) - 1), h') ∧
           owns (resized a (size_ (base_type a) - 1)) h' l) ∧
  (size_ (base_type a) = 0 →
   (∀ v, cells h !! (data_ (base_type a) + (2 ^ 32 - 1)) ≠ Some (Live v)) →
   pop_back (a, h) = Undefined).
Proof.
  split.
  - intros l x Ho. destruct (pop_back_spec a h l x Ho) as (h' & E & Ho' & _).
    by exists h'.
  - intros Hz Hcell. unfold pop_back.
    rewrite (bind_Ok _ _ _ _ _ (get_this_run _ h)).
    unfold set_size_ at 1. unfold bind at 1.
    cbn [fst snd base_type size_ data_ capacity_].
    rewrite (bind_Ok _ _ _ _ _ (get_this_run _ h)).
    cbn [base_type size_ data_ capacity_]. rewrite Hz.
    change (uint (0 - 1)) with (2 ^ 32 - 1).
    unfold on_heap, destroy. cbn [fst snd].
    destruct (cells h !! (data_ (base_type a) + (2 ^ 32 - 1))) as [[|v]|] eqn:E;
      [done| |done].
    by destruct (Hcell v).
Qed.

Lemma pop_back_removes_last_witness :
  (∃ h', pop_back (a123, h123) = Ok tt (mkArray (mkView 2 1) 3, h') ∧
         owns (mkArray (mkView 2 1) 3) h' [1; 2]) ∧
  pop_back (mkArray (mkView 0 0) 0, h_empty) = Undefined.
Proof.
  split.
  - apply (proj1 (pop_back_removes_last a123 h123) [1; 2] 3). example_owns.
  - apply (proj2 (pop_back_removes_last (mkArray (mkView 0 0) 0) h_empty)).
    + reflexivity.
    + intros v. simpl. discriminate.
Defined.

(** X8.  [push_back(t)] followed by [pop_back()], for an argument [t]
    that is no element of the array (a temporary, or an object outside
    the block of the array), a capacity below [2^31] and a provider
    that can supply the block when the array grows, gives back the
    element sequence; the capacity is the one [push_back] has left, and
    an array that had a free slot is the same object as before. *)
Theorem push_back_pop_back {T} (a : ArrayVector) (h : heap T) (l : list T)
    (t : cref T) (v : T) :
  owns a h l → refers t a h v → 2 * capacity_ a < 2 ^ 32 →
  (grown a ≠ capacity_ a → next h + grown a ≤ limit h) →
  ∃ a' h', (push_back t ;; pop_back) (a, h) = Ok tt (a', h') ∧
           owns a' h' l ∧
           capacity_ a' = grown a ∧
           (grown a = capacity_ a → a' = a).
Proof.
  intros Ho Href Hdbl Hfit.
  destruct (push_back_spec a h l t v Ho Href Hdbl Hfit)
    as (a1 & h1 & E1 & Ho1 & Hsz1 & Hcap1 & Hdata1).
  rewrite (bind_Ok _ _ _ _ _ E1).
  destruct (pop_back_spec a1 h1 l v Ho1) as (h2 & E2 & Ho2 & _).
  eexists _, h2. split; [exact E2|]. split; [exact Ho2|].
  split; [exact Hcap1|]. intros Heq. unfold resized.
  destruct a as [[sz d] cap], a1 as [[sz1 d1] cap1]. simpl in *.
  rewrite (Hdata1 Heq). do 2 f_equal; lia.
Qed.

Lemma push_back_pop_back_witness :
  (∃ a' h', (push_back (Temp 7) ;; pop_back) (a12, h12) = Ok tt (a', h') ∧
            owns a' h' [1; 2] ∧ capacity_ a' = 4) ∧
  (∃ h', (push_back (Temp 7) ;; pop_back) (a12r, h12r) = Ok tt (a12r, h') ∧
         owns a12r h' [1; 2]).
Proof.
  split.
  - destruct (push_back_pop_back a12 h12 [1; 2] (Temp 7) 7)
      as (a' & h' & E & Ho & Hc & _);
      [example_owns | reflexivity | simpl; lia | intros _; unfold grown; simpl; lia |].
    by exists a', h'.
  - destruct (push_back_pop_back a12r h12r [1; 2] (Temp 7) 7)
      as (a' & h' & E & Ho & _ & Hsame);
      [example_owns | reflexivity | simpl; lia | intros Hg; by destruct Hg |].
    rewrite (Hsame eq_refl) in E, Ho. by exists h'.
Defined.

(** X9.  [clear()] destroys every element and keeps the block: the
    array is empty with the data pointer and the capacity it had, and
    nothing is returned to the provider. *)
Theorem clear_keeps_block {T} (a : ArrayVector) (h : heap T) (l : list T) :
  owns a h l →
  ∃ h', clear (a, h) = Ok tt (resized a 0, h') ∧
        owns (resized a 0) h' [] ∧
        blocks h' = blocks h ∧ next h' = next h.
Proof.
  destruct a as [[sz d] cap]. unfold resized. simpl.
  intros Ho. pose proof Ho as (Hsz & Hcap & Hc & Hblk & Hnx & Hbelow). simpl in *.
  pose proof (owns_live _ _ _ Ho) as Hlive.
  pose proof (owns_raw _ _ _ Ho) as Hraw. simpl in Hlive, Hraw.
  unfold clear. rewrite (bind_Ok _ _ _ _ _ (get_this_run _ h)).
  cbn [base_type size_ data_ capacity_].
  rewrite (bind_Ok _ _ _ _ _ (on_heap_Ok _ _ _ _ _ (destroy_n_spec _ _ _ l Hsz Hlive))).
  unfold set_size_. simpl.
  eexists. split; [reflexivity|]. split; [|done].
  unfold owns. simpl. split; [done|]. split; [lia|]. split; [|done].
  rewrite Nat.sub_0_r.
  replace (Z.to_nat cap) with (length l + (Z.to_nat cap - length l))%nat by lia.
  rewrite replicate_add. apply cells_at_app. split; [frame_cells|].
  rewrite length_replicate. frame_cells.
Qed.

Lemma clear_keeps_block_witness :
  ∃ h', clear (a123, h123) = Ok tt (mkArray (mkView 0 1) 3, h') ∧
        owns (mkArray (mkView 0 1) 3) h' [] ∧
        blocks h' = blocks h123 ∧ next h' = next h123.
Proof.
  apply (clear_keeps_block a123 h123 [1; 2; 3]). example_owns.
Defined.

(** X10.  [erase(p)] at the index [i] of an element removes that
    element: the elements after it move down by one slot, the last slot
    is destroyed, and the block and the capacity stay.  [erase(end())]
    is undefined: the range [[p + 1, end())] that it copies is no
    range. *)
Theorem erase_removes_element {T} (a : ArrayVector) (h : heap T) (l : list T) :
  owns a h l →
  (∀ i : nat, (i < length l)%nat →
     ∃ h', erase (data_ (base_type a) + Z.of_nat i) (a, h)
           = Ok (data_ (base_type a) + Z.of_nat i)
                (resized a (size_ (base_type a) - 1), h') ∧
           owns (resized a (size_ (base_type a) - 1)) h' (take i l ++ drop (S i) l)) ∧
  erase (end_ (base_type a)) (a, h) = Undefined.
Proof.
  intros Ho. split.
  - intros i Hi. exact (erase_spec a h l i Ho Hi).
  - unfold erase. rewrite (bind_Ok _ _ _ _ _ (get_this_run _ h)).
    apply bind_Undefined. unfold on_heap, std_copy, bind, distance. cbn [fst snd].
    by destruct (Z.ltb_spec (end_ (base_type a)) (end_ (base_type a) + 1)); [|lia].
Qed.

Lemma erase_removes_element_witness :
  (∃ h', erase 2 (a123, h123) = Ok 2 (mkArray (mkView 2 1) 3, h') ∧
         owns (mkArray (mkView 2 1) 3) h' [1; 3]) ∧
  erase 4 (a123, h123) = Undefined.
Proof.
  destruct (erase_removes_element a123 h123 [1; 2; 3] ltac:(example_owns))
    as [Hin Hend].
  split; [|exact Hend].
  exact (Hin 1%nat ltac:(simpl; lia)).
Defined.

(** X11.  [erase(p, q)] for the indices [i <= j <= length] removes the
    elements [i .. j-1]: the elements from [j] on move down to [i], the
    [j - i] last slots are destroyed, and the block and the capacity
    stay. *)
Theorem erase_range_removes_segment {T} (a : ArrayVector) (h : heap T) (l : list T)
    (i j : nat) :
  owns a h l → (i ≤ j)%nat → (j ≤ length l)%nat →
  ∃ h', erase_range (data_ (base_type a) + Z.of_nat i) (data_ (base_type a) + Z.of_nat j)
          (a, h)
        = Ok (data_ (base_type a) + Z.of_nat i)
             (resized a (size_ (base_type a) - (Z.of_nat j - Z.of_nat i)), h') ∧
        owns (resized a (size_ (base_type a) - (Z.of_nat j - Z.of_nat i))) h'
             (take i l ++ drop j l) ∧
        blocks h' = blocks h ∧ next h' = next h.
Proof.
  intros Ho Hij Hj.
  destruct (erase_range_spec a h l i j Ho Hij Hj) as (h' & E & Ho' & Hb & Hn & _).
  by exists h'.
Qed.

Lemma erase_range_removes_segment_witness :
  ∃ h', erase_range 2 4 (mkArray (mkView 4 1) 4, h1234)
        = Ok 2 (mkArray (mkView 2 1) 4, h') ∧
        owns (mkArray (mkView 2 1) 4) h' [1; 4] ∧
        blocks h' = blocks h1234 ∧ next h' = next h1234.
Proof.
  apply (erase_range_removes_segment (mkArray (mkView 4 1) 4) h1234 [1; 2; 3; 4] 1 3);
    [example_owns | lia | simpl; lia].
Defined.

(** ** Resizing and construction *)

Section ConstructionLemmas.
Context {T : Type}.
Implicit Types (h : heap T) (a : ArrayVector) (l : list T).

Lemma reserve_copy_fresh h first l :
  cells_at (cells h) first (Live <$> l) →
  first + Z.of_nat (length l) ≤ next h →
  (0 < length l)%nat →
  next h + Z.of_nat (length l) ≤ limit h →
  (d <- reserve_raw (Z.of_nat (length l)) ;;
   uninitialized_copy first (first + Z.of_nat (length l)) d ;;
   ret d) h
  = Ok (next h) (fresh_copy h l).
Proof.
  intros Hsrc Hbelow Hpos Hfit.
  rewrite (bind_Ok _ _ _ _ _ (reserve_raw_fresh h (Z.of_nat (length l)) ltac:(lia) Hfit)).
  erewrite bind_Ok; cycle 1.
  { eapply (uninitialized_copy_spec _ _ _ _ _ (replicate (length l) Raw)).
    - reflexivity.
    - simpl. apply cells_at_write_other; [len|exact Hsrc].
    - simpl. rewrite Nat2Z.id. apply cells_at_write_same.
    - len.
    - lia. }
  unfold ret, fresh_copy, set_cells. simpl. do 2 f_equal.
  rewrite Nat2Z.id. apply write_cells_overwrite. len.
Qed.

Lemma owns_fresh_copy h l :
  0 < next h → (0 < length l)%nat → Z.of_nat (length l) < 2 ^ 32 →
  owns (mkArray (mkView (Z.of_nat (length l)) (next h)) (Z.of_nat (length l)))
       (fresh_copy h l) l.
Proof.
  intros Hnx Hpos Hlt. unfold owns, fresh_copy. simpl.
  split; [done|]. split; [lia|]. split; [|split; [|lia]].
  - rewrite Nat2Z.id, Nat.sub_diag. simpl. rewrite app_nil_r.
    apply cells_at_write_same.
  - right. split; [lia|]. split; [lia|]. apply lookup_insert_eq.
Qed.

Lemma owns_null h : 0 < next h → owns (mkArray (mkView 0 0) 0) h [].
Proof.
  intros Hnx. unfold owns. simpl.
  split; [done|]. split; [lia|]. split; [done|]. split; [by left|lia].
Qed.

Lemma owns_array_of h l :
  0 < next h → Z.of_nat (length l) < 2 ^ 32 →
  owns (array_of h l) (heap_of h l) l ∧
  (∀ q, q < next h → cells (heap_of h l) !! q = cells h !! q) ∧
  (∀ p, p ≠ next h → blocks (heap_of h l) !! p = blocks h !! p) ∧
  next (heap_of h l) = next h + Z.of_nat (length l) ∧
  limit (heap_of h l) = limit h.
Proof.
  intros Hnx Hlt. unfold array_of, heap_of.
  destruct l as [|x l'] eqn:El.
  - simpl. split; [by apply owns_null|]. split; [done|]. split; [done|]. split; [lia|done].
  - rewrite <- El in *.
    assert (Hpos : (0 < length l)%nat) by (subst l; simpl; lia).
    replace (match length l with O => 0 | S _ => next h end) with (next h)
      by (destruct l; [done|done]).
    replace (match length l with O => h | S _ => fresh_copy h l end) with (fresh_copy h l)
      by (destruct l; [done|done]).
    split; [by apply owns_fresh_copy|]. simpl.
    split; [|split; [|done]].
    + intros q Hq. apply write_cells_notin. lia.
    + intros p Hp. by apply lookup_insert_ne.
Qed.

Lemma ArrayVector_from_view_spec v h l :
  views v h l → data_ v + size_ v ≤ next h →
  next h + size_ v ≤ limit h →
  ArrayVector_from_view v h = Ok (array_of h l) (heap_of h l).
Proof.
  intros [Hn Hc] Hbelow Hfit. unfold ArrayVector_from_view, array_of, heap_of.
  rewrite Hn. destruct l as [|x l'] eqn:El.
  - reflexivity.
  - rewrite <- El in *.
    assert (Hpos : (0 < length l)%nat) by (subst l; simpl; lia).
    replace (match length l with O => 0 | S _ => next h end) with (next h)
      by (destruct l; [done|done]).
    replace (match length l with O => h | S _ => fresh_copy h l end) with (fresh_copy h l)
      by (destruct l; [done|done]).
    pose proof (reserve_copy_fresh h (data_ v) l Hc ltac:(lia) Hpos ltac:(lia)) as E.
    unfold bind, ret in E |- *.
    destruct (reserve_raw (Z.of_nat (length l)) h) as [d h1|e h1|]; [|done|done].
    destruct (Z.ltb_spec 0 (Z.of_nat (length l))) as [_|?]; [|lia].
    destruct (uninitialized_copy (data_ v) (data_ v + Z.of_nat (length l)) d h1)
      as [[] h2|e h2|]; [|done|done].
    by injection E as -> ->.
Qed.

Lemma ArrayVector_range_spec first h l :
  cells_at (cells h) first (Live <$> l) → Z.of_nat (length l) < 2 ^ 32 →
  first + Z.of_nat (length l) ≤ next h →
  next h + Z.of_nat (length l) ≤ limit h →
  ArrayVector_range first (first + Z.of_nat (length l)) h
  = Ok (array_of h l) (heap_of h l).
Proof.
  intros Hc Hlt Hbelow Hfit. unfold ArrayVector_range, array_of, heap_of.
  replace (first + Z.of_nat (length l) - first) with (Z.of_nat (length l)) by lia.
  rewrite uint_small by lia.
  destruct l as [|x l'] eqn:El.
  - simpl. unfold uninitialized_copy, distance, bind, ret. simpl.
    change (Z.of_nat 0) with 0. rewrite Z.add_0_r.
    by rewrite Z.ltb_irrefl, Z.sub_diag.
  - rewrite <- El in *.
    assert (Hpos : (0 < length l)%nat) by (subst l; simpl; lia).
    replace (match length l with O => 0 | S _ => next h end) with (next h)
      by (destruct l; [done|done]).
    replace (match length l with O => h | S _ => fresh_copy h l end) with (fresh_copy h l)
      by (destruct l; [done|done]).
    pose proof (reserve_copy_fresh h first l Hc ltac:(lia) Hpos ltac:(lia)) as E.
    unfold bind, ret in E |- *.
    destruct (reserve_raw (Z.of_nat (length l)) h) as [d h1|e h1|]; [|done|done].
    destruct (uninitialized_copy first (first + Z.of_nat (length l)) d h1)
      as [[] h2|e h2|]; [|done|done].
    by injection E as -> ->.
Qed.

End ConstructionLemmas.

Section ResizeLemmas.
Context {T : Type}.
Implicit Types (h : heap T) (a : ArrayVector) (l : list T).

Lemma ArrayVector_size_init_spec h n (v : T) :
  0 ≤ n < 2 ^ 32 → next h + n ≤ limit h →
  ArrayVector_size_init n (Temp v) h
  = Ok (array_of h (replicate (Z.to_nat n) v)) (heap_of h (replicate (Z.to_nat n) v)).
Proof.
  intros Hn Hfit. unfold ArrayVector_size_init, array_of, heap_of.
  rewrite length_replicate, Z2Nat.id by lia.
  destruct (Z.to_nat n) as [|k] eqn:Ek.
  - assert (n = 0) as -> by lia. reflexivity.
  - rewrite <- Ek.
    rewrite (bind_Ok _ _ _ _ _ (reserve_raw_fresh h n ltac:(lia) Hfit)).
    destruct (Z.ltb_spec 0 n) as [_|?]; [|lia].
    erewrite bind_Ok; cycle 1.
    { pose proof (uninitialized_fill_spec
                    (mkHeap (write_cells (next h) (replicate (Z.to_nat n) Raw) (cells h))
                            (<[next h := n]> (blocks h)) (next h + n) (limit h))
                    (next h) (next h + n) v (replicate (Z.to_nat n) Raw)) as E.
      rewrite length_replicate in E. apply E; [lia|]. apply cells_at_write_same. }
    unfold ret, fresh_copy, set_cells. simpl.
    rewrite length_replicate, Z2Nat.id, fmap_replicate by lia.
    do 2 f_equal. apply write_cells_overwrite. len.
Qed.

End ResizeLemmas.

(** X12.  [ArrayVector(size, initial)] builds an array of [size] copies
    of [initial] in a block of exactly [size] slots and changes nothing
    that was allocated before; without elements it takes no block.  When
    the provider cannot supply the block, [MemoryExhaustion] leaves the
    constructor and the memory is as before. *)
Theorem ArrayVector_size_init_fills {T} (h : heap T) (n : Z) (v : T) :
  0 < next h → 0 ≤ n < 2 ^ 32 →
  (next h + n ≤ limit h →
   ∃ a h', ArrayVector_size_init n (Temp v) h = Ok a h' ∧
           owns a h' (replicate (Z.to_nat n) v) ∧
           size_ (base_type a) = n ∧ capacity_ a = n ∧
           (n = 0 → h' = h) ∧
           ∀ q, q < next h → cells h' !! q = cells h !! q) ∧
  (0 < n → limit h < next h + n →
   ArrayVector_size_init n (Temp v) h = Throw MemoryExhaustion h).
Proof.
  intros Hnx Hn. split.
  - intros Hfit. rewrite ArrayVector_size_init_spec by done.
    destruct (owns_array_of h (replicate (Z.to_nat n) v) Hnx) as (Ho & Hc & _).
    { rewrite length_replicate. lia. }
    eexists _, _. split; [reflexivity|]. split; [exact Ho|].
    unfold array_of. simpl. rewrite length_replicate, Z2Nat.id by lia.
    split; [done|]. split; [done|]. split; [|exact Hc].
    intros ->. reflexivity.
  - intros Hpos Hex. unfold ArrayVector_size_init, bind, reserve_raw.
    destruct (Z.eqb_spec n 0); [lia|]. simpl.
    by rewrite allocate_exhausted.
Qed.

Lemma ArrayVector_size_init_fills_witness :
  (∃ a h', ArrayVector_size_init 3 (Temp 7) h12 = Ok a h' ∧
           owns a h' [7; 7; 7] ∧ size_ (base_type a) = 3 ∧ capacity_ a = 3) ∧
  ArrayVector_size_init 200 (Temp 7) h12 = Throw MemoryExhaustion h12.
Proof.
  destruct (ArrayVector_size_init_fills h12 3 7 ltac:(simpl; lia) ltac:(lia))
    as [Hok _].
  destruct (ArrayVector_size_init_fills h12 200 7 ltac:(simpl; lia) ltac:(lia))
    as [_ Hex].
  split.
  - destruct (Hok ltac:(simpl; lia)) as (a & h' & E & Ho & Hs & Hc & _).
    by exists a, h'.
  - apply Hex; simpl; lia.
Defined.

(** X13.  The copy constructor builds an array with the elements and
    with the capacity of its argument, in a block of its own that does
    not overlap the block of the argument; the argument still holds its
    elements. *)
Theorem ArrayVector_copy_independent {T} (r : ArrayVector) (h : heap T) (lr : list T) :
  owns r h lr → next h + capacity_ r ≤ limit h →
  ∃ a h', ArrayVector_copy r h = Ok a h' ∧
          owns a h' lr ∧ owns r h' lr ∧
          capacity_ a = capacity_ r ∧
          (0 < capacity_ r →
           data_ (base_type r) + capacity_ r ≤ data_ (base_type a) ∨
           data_ (base_type a) + capacity_ a ≤ data_ (base_type r)).
Proof.
  intros Ho Hfit.
  destruct (ArrayVector_copy_spec r h lr Ho Hfit)
    as (h' & E & Ho' & Hcells & Hblocks & Hnext & _).
  pose proof Ho as (_ & _ & _ & Hblk & Hnx & Hbelow).
  eexists _, h'. split; [exact E|]. split; [exact Ho'|]. split; [|split; [done|]].
  - eapply owns_frame; [exact Ho| | |done].
    + intros q Hq. apply Hcells. lia.
    + intros Hpos. apply Hblocks. destruct Hblk as [[? ?]|(? & ? & ?)]; lia.
  - intros Hpos. left. simpl. destruct (Z.eqb_spec (capacity_ r) 0); lia.
Qed.

Lemma ArrayVector_copy_independent_witness :
  ∃ a h', ArrayVector_copy a12w h12w = Ok a h' ∧
          owns a h' [1; 2] ∧ owns a12w h' [1; 2] ∧
          capacity_ a = 5.
Proof.
  destruct (ArrayVector_copy_independent a12w h12w [1; 2])
    as (a & h' & E & Ho & Hr & Hc & _); [example_owns | simpl; lia |].
  by exists a, h'.
Defined.

(** X14.  The constructor from a view and the constructor from the
    pointer range [[begin(), end())] of that view build the same array:
    it holds the elements of the view in a block of its own of exactly
    [size()] slots (no block for an empty view), and the view still
    ranges over its elements. *)
Theorem ArrayVector_from_view_exact {T} (v : ArrayVectorView) (h : heap T) (l : list T) :
  views v h l → size_ v < 2 ^ 32 → 0 < next h →
  data_ v + size_ v ≤ next h → next h + size_ v ≤ limit h →
  ArrayVector_range (begin_ v) (end_ v) h = ArrayVector_from_view v h ∧
  ∃ a h', ArrayVector_from_view v h = Ok a h' ∧
          owns a h' l ∧ views v h' l ∧
          capacity_ a = size_ v ∧
          (size_ v = 0 → h' = h ∧ data_ (base_type a) = 0).
Proof.
  intros Hv Hsz Hnx Hbelow Hfit. pose proof Hv as [Hn Hc].
  rewrite (ArrayVector_from_view_spec v h l Hv Hbelow Hfit).
  split.
  - unfold begin_, end_. rewrite Hn.
    apply ArrayVector_range_spec; [done|lia|lia|lia].
  - destruct (owns_array_of h l Hnx ltac:(lia)) as (Ho & Hcells & _).
    eexists _, _. split; [reflexivity|]. split; [exact Ho|]. split; [|split].
    + split; [done|]. eapply cells_at_frame; [exact Hc|].
      intros q Hq. apply Hcells. rewrite length_live in Hq. lia.
    + unfold array_of. simpl. lia.
    + intros Hz. destruct l; [done|simpl in Hn; lia].
Qed.

Lemma ArrayVector_from_view_exact_witness :
  ArrayVector_range 1 3 h12w = ArrayVector_from_view (mkView 2 1) h12w ∧
  ∃ a h', ArrayVector_from_view (mkView 2 1) h12w = Ok a h' ∧
          owns a h' [1; 2] ∧ capacity_ a = 2.
Proof.
  destruct (ArrayVector_from_view_exact (mkView 2 1) h12w [1; 2])
    as (Eq & a & h' & E & Ho & _ & Hc & _);
    [example_views | simpl; lia | simpl; lia | simpl; lia | simpl; lia |].
  split; [exact Eq|]. by exists a, h'.
Defined.



(** ** Assignment from a view *)

(** X16.  [operator=] with a view as argument, for a view over live
    elements that lies anywhere in the allocated memory, possibly inside
    the array assigned to:
    - lengths equal: the elements of the view are copied into the block
      the array has;
    - lengths different: a temporary array is built from the view before
      the array is touched, the array takes its block over, and the old
      block of the array is released; the capacity is then the length of
      the view.
    Either way the array holds the elements of the view. *)
Theorem operator_assign_view_takes_elements {T} (a : ArrayVector) (h : heap T)
    (l : list T) (rhs : ArrayVectorView) (lr : list T) :
  owns a h l → views rhs h lr → size_ rhs < 2 ^ 32 →
  data_ rhs + size_ rhs ≤ next h →
  (size_ (base_type a) ≠ size_ rhs → next h + size_ rhs ≤ limit h) →
  ∃ a' h', operator_assign_view rhs (a, h) = Ok tt (a', h') ∧
           owns a' h' lr ∧
           (size_ (base_type a) = size_ rhs → a' = a ∧ blocks h' = blocks h) ∧
           (size_ (base_type a) ≠ size_ rhs →
            capacity_ a' = size_ rhs ∧
            (0 < capacity_ a → blocks h' !! data_ (base_type a) = None)).
Proof.
  intros Ha Hv Hsz32 Hbelow Hfit. unfold operator_assign_view.
  rewrite (bind_Ok _ _ _ _ _ (get_this_run _ h)).
  pose proof Ha as (Hsa & Hcapa & Hc & Hblka & Hnxa & Hbelowa).
  pose proof Hv as [Hsr Hcr].
  destruct (Z.eqb_spec (size_ (base_type a)) (size_ rhs)) as [Heq|Hne].
  - assert (Hlen : length l = length lr) by lia.
    rewrite (on_heap_Ok _ _ _ _ _
               (copyImpl_spec h (base_type a) rhs lr l Hv
                  (conj Hsa (owns_live _ _ _ Ha)) Hlen)).
    eexists _, _. split; [reflexivity|]. split; [|split; [done|intros; lia]].
    unfold owns. simpl. split; [lia|]. split; [lia|]. split; [|done].
    apply cells_at_app in Hc as [_ Hraw]. rewrite length_live in Hraw.
    rewrite <- Hlen. apply cells_at_app. split.
    + apply cells_at_write_same.
    + rewrite length_live.
      apply cells_at_write_other; [rewrite length_live; lia|].
      by rewrite <- Hlen.
  - rewrite (bind_Ok _ _ _ _ _
               (on_heap_Ok _ _ _ _ _
                  (ArrayVector_from_view_spec rhs h lr Hv Hbelow (Hfit Hne)))).
    destruct (owns_array_of h lr Hnxa ltac:(lia))
      as (Ht & Hcells1 & Hblocks1 & Hnext1 & _).
    unfold swap at 1. unfold bind at 1. cbn [fst snd].
    assert (Hda : data_ (base_type a) ≠ next h)
      by (destruct Hblka as [[? ?]|(? & ? & ?)]; lia).
    destruct (deallocate_owned a h (heap_of h lr) l Ha)
      as (h2 & E2 & Hnx2 & _ & _ & Hkept & Hblocks2 & Hgone).
    { eapply cells_at_frame; [exact (owns_live _ _ _ Ha)|].
      intros q Hq. apply Hcells1. rewrite length_live in Hq. lia. }
    { by apply Hblocks1. }
    unfold destructor. rewrite (on_heap_Ok _ _ _ _ _ E2).
    eexists _, h2. split; [reflexivity|]. split; [|split; [intros; lia|]].
    + eapply owns_frame; [exact Ht| | |lia].
      * intros q Hq. apply Hkept. unfold array_of in Hq. simpl in Hq.
        destruct (length lr); simpl in Hq; lia.
      * intros Hpos. apply Hblocks2. unfold array_of in *. simpl in *.
        destruct (length lr); simpl in *; lia.
    + intros _. split; [unfold array_of; simpl; lia|exact Hgone].
Qed.

(** The array [1, 2, 3, 4] assigned its own subarray [[1, 3)], and the
    array [1, 2] assigned the view of the two elements [7, 8] of another
    array. *)
Lemma operator_assign_view_takes_elements_witness :
  (∃ a' h', operator_assign_view (mkView 2 2) (mkArray (mkView 4 1) 4, h1234)
            = Ok tt (a', h') ∧
            owns a' h' [2; 3] ∧ capacity_ a' = 2 ∧ blocks h' !! 1 = None) ∧
  (∃ h', operator_assign_view (mkView 2 3) (a12, h_two 100) = Ok tt (a12, h') ∧
         owns a12 h' [7; 8]).
Proof.
  split.
  - destruct (operator_assign_view_takes_elements (mkArray (mkView 4 1) 4) h1234
                [1; 2; 3; 4] (mkView 2 2) [2; 3])
      as (a' & h' & E & Ho & _ & Hne);
      [example_owns | example_views | simpl; lia | simpl; lia | simpl; lia |].
    destruct (Hne ltac:(simpl; lia)) as [Hc Hgone].
    exists a', h'. split; [exact E|]. split; [exact Ho|]. split; [exact Hc|].
    apply Hgone. simpl. lia.
  - destruct (operator_assign_view_takes_elements a12 (h_two 100)
                [1; 2] (mkView 2 3) [7; 8])
      as (a' & h' & E & Ho & Heq & _);
      [example_owns | example_views | simpl; lia | simpl; lia | simpl; lia |].
    destruct (Heq eq_refl) as [-> _]. by exists h'.
Defined.

(** ** Insertion of one element *)

(** X17.  [insert(p, t)] at an index [i] below [2^31] of an array that
    has a free slot, for an argument [t] that is no element of the
    array (a temporary, or an object outside the block of the array),
    works in place: the elements from [i] on move up by one slot, the
    value of [t] sits at [i], the result refers to it, and nothing is
    allocated.  [erase] at the position returned then gives back the
    array as it was, with the element sequence it had. *)
Theorem insert_then_erase_in_place {T} (a : ArrayVector) (h : heap T) (l : list T)
    (i : nat) (t : cref T) (v : T) :
  owns a h l → refers t a h v → (i ≤ length l)%nat → Z.of_nat i < 2 ^ 31 →
  size_ (base_type a) < capacity_ a →
  ∃ h1 h2,
    insert (data_ (base_type a) + Z.of_nat i) t (a, h)
    = Ok (data_ (base_type a) + Z.of_nat i) (resized a (size_ (base_type a) + 1), h1) ∧
    owns (resized a (size_ (base_type a) + 1)) h1 (take i l ++ v :: drop i l) ∧
    blocks h1 = blocks h ∧ next h1 = next h ∧
    erase (data_ (base_type a) + Z.of_nat i) (resized a (size_ (base_type a) + 1), h1)
    = Ok (data_ (base_type a) + Z.of_nat i) (a, h2) ∧
    owns a h2 l.
Proof.
  intros Ho Hrf Hi Hi31 Hroom.
  destruct (insert_room a h l i t v Ho Hrf Hi Hi31 Hroom) as (h1 & E1 & Ho1 & Hb1 & Hn1).
  destruct (erase_spec _ h1 _ i Ho1) as (h2 & E2 & Ho2).
  { rewrite length_app, length_take. simpl. lia. }
  exists h1, h2. split; [exact E1|]. split; [exact Ho1|].
  split; [exact Hb1|]. split; [exact Hn1|].
  cbn [base_type size_ data_ capacity_] in E2, Ho2.
  replace (size_ (base_type a) + 1 - 1) with (size_ (base_type a)) in E2, Ho2 by lia.
  assert (Hl : take i (take i l ++ v :: drop i l)
               ++ drop (S i) (take i l ++ v :: drop i l) = l).
  { rewrite take_app_length' by (rewrite length_take; lia).
    replace (S i) with (i + 1)%nat by lia.
    rewrite drop_app_add' by (rewrite length_take; lia).
    change (drop 1 (v :: drop i l)) with (drop i l). apply take_drop. }
  rewrite Hl in Ho2. destruct a as [[sz d] cap]. by split.
Qed.

(** [9] as a temporary inserted into [1, 2, 3] with capacity 4, and the
    first element of another array inserted into [1, 2] with
    capacity 5. *)
Lemma insert_then_erase_in_place_witness :
  (∃ h1 h2,
     insert 2 (Temp 9) (a123r, h123r) = Ok 2 (mkArray (mkView 4 1) 4, h1) ∧
     owns (mkArray (mkView 4 1) 4) h1 [1; 9; 2; 3] ∧
     erase 2 (mkArray (mkView 4 1) 4, h1) = Ok 2 (a123r, h2) ∧
     owns a123r h2 [1; 2; 3]) ∧
  (∃ h1 h2,
     insert 1 (Ref 6) (a12w, h12w_789) = Ok 1 (mkArray (mkView 3 1) 5, h1) ∧
     owns (mkArray (mkView 3 1) 5) h1 [7; 1; 2] ∧
     erase 1 (mkArray (mkView 3 1) 5, h1) = Ok 1 (a12w, h2) ∧
     owns a12w h2 [1; 2]).
Proof.
  split.
  - destruct (insert_then_erase_in_place a123r h123r [1; 2; 3] 1 (Temp 9) 9)
      as (h1 & h2 & E1 & Ho1 & _ & _ & E2 & Ho2);
      [example_owns | reflexivity | simpl; lia | lia | simpl; lia |].
    by exists h1, h2.
  - destruct (insert_then_erase_in_place a12w h12w_789 [1; 2] 0 (Ref 6) 7)
      as (h1 & h2 & E1 & Ho1 & _ & _ & E2 & Ho2);
      [example_owns | simpl; split; [reflexivity|lia] | simpl; lia | lia | simpl; lia |].
    by exists h1, h2.
Defined.

(** X18.  [insert(end(), t)] is [push_back(t)]: on an array, full or
    not, with fewer than [2^31] elements and a capacity below [2^31],
    for an argument [t] that is no element of the array (a temporary,
    or an object outside the block of the array) and a provider that
    can supply the block when the array grows, it appends the value of
    [t] and returns the position of the new last element. *)
Theorem insert_at_end_appends {T} (a : ArrayVector) (h : heap T) (l : list T)
    (t : cref T) (v : T) :
  owns a h l → refers t a h v → 2 * capacity_ a < 2 ^ 32 →
  Z.of_nat (length l) < 2 ^ 31 →
  (grown a ≠ capacity_ a → next h + grown a ≤ limit h) →
  ∃ a' h', insert (end_ (base_type a)) t (a, h)
           = Ok (data_ (base_type a') + Z.of_nat (length l)) (a', h') ∧
           push_back t (a, h) = Ok tt (a', h') ∧
           owns a' h' (l ++ [v]) ∧
           capacity_ a' = grown a.
Proof.
  intros Ho Href Hdbl H31 Hfit. pose proof Ho as (Hsz & _).
  destruct (push_back_spec a h l t v Ho Href Hdbl Hfit)
    as (a' & h' & E & Ho' & _ & Hcap & _).
  exists a', h'. split; [|by split].
  unfold insert. rewrite (bind_Ok _ _ _ _ _ (get_this_run _ h)).
  rewrite Z.eqb_refl. rewrite (bind_Ok _ _ _ _ _ E).
  rewrite (bind_Ok _ _ _ _ _ (get_this_run _ h')).
  unfold ret, begin_, end_. do 2 f_equal.
  replace (data_ (base_type a) + size_ (base_type a) - data_ (base_type a))
    with (Z.of_nat (length l)) by lia.
  by rewrite sint_small by lia.
Qed.

Lemma insert_at_end_appends_witness :
  ∃ a' h', insert 4 (Temp 9) (a123, h123) = Ok (data_ (base_type a') + 3) (a', h') ∧
           owns a' h' [1; 2; 3; 9] ∧ capacity_ a' = 6.
Proof.
  destruct (insert_at_end_appends a123 h123 [1; 2; 3] (Temp 9) 9)
    as (a' & h' & E & _ & Ho & Hc);
    [example_owns | reflexivity | simpl; lia | simpl; lia
    | intros _; unfold grown; simpl; lia |].
  by exists a', h'.
Defined.

(** ** Insertion of a range *)

Section InsertRangeLemmas.
Context {T : Type}.
Implicit Types (h : heap T) (a : ArrayVector) (l ls : list T).

Lemma cells_at_seg (c : gmap Z (cell T)) p l (i k : nat) :
  cells_at c p (Live <$> l) →
  cells_at c (p + Z.of_nat i) (Live <$> take k (drop i l)).
Proof.
  intros H. rewrite fmap_take, fmap_drop. by apply cells_at_take, cells_at_drop.
Qed.

(** A new block: the source range may lie anywhere below the addresses
    not yet handed out, also inside the array. *)
Lemma insert_range_realloc a h l ls (i : nat) src :
  owns a h l → (i ≤ length l)%nat →
  cells_at (cells h) src (Live <$> ls) →
  src + Z.of_nat (length ls) ≤ next h →
  Z.of_nat (length l) + Z.of_nat (length ls) < 2 ^ 32 →
  capacity_ a ≤ size_ (base_type a) + Z.of_nat (length ls) →
  0 < size_ (base_type a) + Z.of_nat (length ls) →
  next h + (size_ (base_type a) + Z.of_nat (length ls)) ≤ limit h →
  ∃ h', insert_range (data_ (base_type a) + Z.of_nat i) src (src + Z.of_nat (length ls))
          (a, h)
        = Ok (next h + Z.of_nat i)
             (mkArray (mkView (size_ (base_type a) + Z.of_nat (length ls)) (next h))
                      (size_ (base_type a) + Z.of_nat (length ls)), h') ∧
        owns (mkArray (mkView (size_ (base_type a) + Z.of_nat (length ls)) (next h))
                      (size_ (base_type a) + Z.of_nat (length ls))) h'
             (take i l ++ ls ++ drop i l) ∧
        next h' = next h + (size_ (base_type a) + Z.of_nat (length ls)) ∧
        (0 < capacity_ a → blocks h' !! data_ (base_type a) = None).
Proof.
  destruct a as [[sz d] cap]. simpl.
  intros Ho Hi Hsrc Hsrclt Hn32 Hcapn Hpos Hfit.
  pose proof Ho as (Hsz & Hcap & Hc & Hblk & Hnx & Hbelow). simpl in *.
  set (k := length ls) in *.
  unfold insert_range.
  rewrite (bind_Ok _ _ _ _ _ (get_this_run _ h)). unfold begin_, end_.
  cbn [base_type size_ data_ capacity_].
  replace (d + Z.of_nat i - d) with (Z.of_nat i) by lia.
  replace (src + Z.of_nat k - src) with (Z.of_nat k) by lia.
  rewrite (uint_small (Z.of_nat i)) by lia.
  rewrite (uint_small (Z.of_nat k)) by lia.
  rewrite (uint_small (sz + Z.of_nat k)) by lia.
  destruct (Z.leb_spec cap (sz + Z.of_nat k)) as [_|?]; [|lia].
  set (N := sz + Z.of_nat k) in *.
  set (nx := next h) in *.
  set (h1 := mkHeap (write_cells nx (replicate (Z.to_nat N) Raw) (cells h))
                    (<[nx := N]> (blocks h)) (nx + N) (limit h)).
  assert (E1 : reserve_raw N h = Ok nx h1) by (by apply reserve_raw_fresh).
  pose proof (owns_seg_live _ _ _ 0 i Ho) as Hpre.
  pose proof (owns_seg_live _ _ _ i (length l - i) Ho) as Hsuf.
  pose proof (owns_live _ _ _ Ho) as Hall.
  simpl in Hpre, Hsuf, Hall. rewrite drop_0 in Hpre.
  rewrite take_ge in Hsuf by (rewrite length_drop; lia).
  apply (cells_at_addr _ _ d) in Hpre; [|lia].
  assert (Hraw1 : cells_at (cells h1) nx (replicate (Z.to_nat N) Raw))
    by apply cells_at_write_same.
  set (h2 := set_cells h1 (write_cells nx (Live <$> take i l) (cells h1))).
  assert (E2 : uninitialized_copy d (d + Z.of_nat i) nx h1 = Ok tt h2).
  { eapply (uninitialized_copy_spec _ _ _ _ _ (replicate i Raw)).
    - len.
    - frame_cells.
    - apply (cells_at_addr _ (nx + Z.of_nat 0)); [lia|].
      eapply cells_at_replicate_sub; [exact Hraw1|lia].
    - len.
    - lia. }
  set (h3 := set_cells h2 (write_cells (nx + Z.of_nat i) (Live <$> ls) (cells h2))).
  assert (E3 : uninitialized_copy src (src + Z.of_nat k) (nx + Z.of_nat i) h2 = Ok tt h3).
  { eapply (uninitialized_copy_spec _ _ _ _ _ (replicate k Raw)).
    - reflexivity.
    - simpl. do 2 (apply cells_at_write_other; [unfold k in *; len|]). exact Hsrc.
    - apply cells_at_write_other; [len|].
      eapply cells_at_replicate_sub; [exact Hraw1|lia].
    - len.
    - lia. }
  set (h4 := set_cells h3 (write_cells (nx + Z.of_nat i + Z.of_nat k)
                             (Live <$> drop i l) (cells h3))).
  assert (E4 : uninitialized_copy (d + Z.of_nat i) (d + sz) (nx + Z.of_nat i + Z.of_nat k) h3
               = Ok tt h4).
  { eapply (uninitialized_copy_spec _ _ _ _ _ (replicate (length l - i) Raw)).
    - len.
    - simpl. do 3 (apply cells_at_write_other; [unfold k in *; len|]). exact Hsuf.
    - do 2 (apply cells_at_write_other; [unfold k in *; len|]).
      apply (cells_at_addr _ (nx + Z.of_nat (i + k))); [lia|].
      eapply cells_at_replicate_sub; [exact Hraw1|lia].
    - len.
    - lia. }
  destruct (deallocate_owned _ h h4 l Ho)
    as (h' & E5 & Hnx' & Hlim' & Hfreed & Hkept & Hblocks & Hgone).
  { simpl. do 4 (apply cells_at_write_other; [unfold k in *; len|]). exact Hall. }
  { simpl. apply lookup_insert_ne. unfold nx. lia. }
  simpl in E5, Hnx', Hlim', Hfreed, Hkept, Hblocks, Hgone.
  erewrite bind_Ok; cycle 1.
  { rewrite (bind_Ok _ _ _ _ _ (on_heap_Ok _ _ _ _ _ E1)).
    rewrite (bind_Ok _ _ _ _ _ (on_heap_Ok _ _ _ _ _ E2)).
    rewrite (bind_Ok _ _ _ _ _ (on_heap_Ok _ _ _ _ _ E3)).
    rewrite (bind_Ok _ _ _ _ _ (on_heap_Ok _ _ _ _ _ E4)).
    rewrite (bind_Ok _ _ _ _ _ (on_heap_Ok _ _ _ _ _ E5)).
    reflexivity. }
  exists h'. split; [reflexivity|]. split; [|split; [lia|done]].
  unfold owns. simpl. split; [unfold k in *; len|]. split; [lia|]. split; [|split; [|lia]].
  - replace (Z.to_nat N - length (take i l ++ ls ++ drop i l))%nat with 0%nat
      by (unfold k in *; len).
    simpl. rewrite app_nil_r.
    eapply cells_at_frame; [|intros q Hq; apply Hkept; lia].
    rewrite !fmap_app.
    apply cells_at_app. split.
    { simpl. do 2 (apply cells_at_write_other; [unfold k in *; len|]).
      apply cells_at_write_same. }
    apply cells_at_app. split.
    { simpl. apply cells_at_write_other; [unfold k in *; len|].
      apply cells_at_write_same_eq. len. }
    simpl. apply cells_at_write_same_eq. unfold k. len.
  - right. split; [lia|]. split; [lia|].
    rewrite Hblocks by lia. simpl. apply lookup_insert_eq.
Qed.

(** In place, the inserted range reaching or passing the old end. *)
Lemma insert_range_tail a h l ls (i : nat) src :
  owns a h l → (i ≤ length l)%nat →
  cells_at (cells h) src (Live <$> ls) →
  src + Z.of_nat (length ls) ≤ data_ (base_type a) ∨
    data_ (base_type a) + capacity_ a ≤ src →
  size_ (base_type a) + Z.of_nat (length ls) < capacity_ a →
  (length l ≤ i + length ls)%nat →
  ∃ h', insert_range (data_ (base_type a) + Z.of_nat i) src (src + Z.of_nat (length ls))
          (a, h)
        = Ok (data_ (base_type a) + Z.of_nat i)
             (resized a (size_ (base_type a) + Z.of_nat (length ls)), h') ∧
        owns (resized a (size_ (base_type a) + Z.of_nat (length ls))) h'
             (take i l ++ ls ++ drop i l) ∧
        blocks h' = blocks h ∧ next h' = next h ∧ limit h' = limit h.
Proof.
  destruct a as [[sz d] cap]. unfold resized. simpl.
  intros Ho Hi Hsrc Hout Hroom Hreach.
  pose proof Ho as (Hsz & Hcap & Hc & Hblk & Hnx & Hbelow). simpl in *.
  set (k := length ls) in *.
  unfold insert_range.
  rewrite (bind_Ok _ _ _ _ _ (get_this_run _ h)). unfold begin_, end_.
  cbn [base_type size_ data_ capacity_].
  replace (d + Z.of_nat i - d) with (Z.of_nat i) by lia.
  replace (src + Z.of_nat k - src) with (Z.of_nat k) by lia.
  rewrite (uint_small (Z.of_nat i)) by lia.
  rewrite (uint_small (Z.of_nat k)) by lia.
  rewrite (uint_small (sz + Z.of_nat k)) by lia.
  rewrite (uint_small (Z.of_nat i + Z.of_nat k)) by lia.
  destruct (Z.leb_spec cap (sz + Z.of_nat k)) as [?|_]; [lia|].
  destruct (Z.leb_spec sz (Z.of_nat i + Z.of_nat k)) as [_|?]; [|lia].
  set (diff := (i + k - length l)%nat).
  replace (Z.of_nat i + Z.of_nat k - sz) with (Z.of_nat diff) by lia.
  rewrite (uint_small (Z.of_nat diff)) by lia.
  pose proof (owns_seg_live _ _ _ 0 i Ho) as Hpre.
  pose proof (owns_seg_live _ _ _ i (length l - i) Ho) as Hsuf.
  pose proof (owns_seg_raw _ _ _ (i + k) (length l - i) Ho ltac:(lia) ltac:(simpl; lia)) as Hr1.
  pose proof (owns_seg_raw _ _ _ (length l) diff Ho ltac:(lia) ltac:(simpl; lia)) as Hr2.
  pose proof (owns_seg_raw _ _ _ (length l + k) (Z.to_nat cap - (length l + k)) Ho
                ltac:(lia) ltac:(simpl; lia)) as Hr3.
  pose proof (cells_at_seg _ _ _ 0 (length l - i) Hsrc) as Hs1.
  pose proof (cells_at_seg _ _ _ (length l - i) diff Hsrc) as Hs2.
  simpl in Hpre, Hsuf, Hr1, Hr2, Hr3. rewrite drop_0 in Hpre, Hs1.
  rewrite take_ge in Hsuf by (rewrite length_drop; lia).
  rewrite take_ge in Hs2 by (rewrite length_drop; unfold k in *; lia).
  set (h1 := set_cells h (write_cells (d + Z.of_nat (i + k)) (Live <$> drop i l) (cells h))).
  assert (E1 : uninitialized_copy (d + Z.of_nat i) (d + sz) (d + sz + Z.of_nat diff) h
               = Ok tt h1).
  { replace (d + sz + Z.of_nat diff) with (d + Z.of_nat (i + k)) by lia.
    eapply (uninitialized_copy_spec _ _ _ _ _ (replicate (length l - i) Raw));
      [len | frame_cells | frame_cells | len | lia]. }
  set (h2 := set_cells h1 (write_cells (d + sz) (Live <$> drop (length l - i) ls) (cells h1))).
  assert (E2 : uninitialized_copy (src + Z.of_nat k - Z.of_nat diff) (src + Z.of_nat k)
                 (d + sz) h1 = Ok tt h2).
  { eapply (uninitialized_copy_spec _ _ _ _ _ (replicate diff Raw)).
    - unfold k in *; len.
    - simpl. apply cells_at_write_other; [unfold k in *; len|].
      eapply cells_at_addr; [|exact Hs2]. lia.
    - frame_cells.
    - unfold k in *; len.
    - lia. }
  set (h3 := set_cells h2 (write_cells (d + Z.of_nat i)
                             (Live <$> take (length l - i) ls) (cells h2))).
  assert (E3 : std_copy src (src + Z.of_nat k - Z.of_nat diff) (d + Z.of_nat i) h2 = Ok tt h3).
  { eapply (std_copy_spec _ _ _ _ _ (drop i l)).
    - unfold k in *; len.
    - simpl. do 2 (apply cells_at_write_other; [unfold k in *; len|]).
      eapply cells_at_addr; [|exact Hs1]. lia.
    - frame_cells.
    - unfold k in *; len.
    - lia. }
  erewrite bind_Ok; cycle 1.
  { rewrite (bind_Ok _ _ _ _ _ (on_heap_Ok _ _ _ _ _ E1)).
    rewrite (bind_Ok _ _ _ _ _ (on_heap_Ok _ _ _ _ _ E2)).
    exact (on_heap_Ok _ _ _ _ _ E3). }
  exists h3. split; [reflexivity|]. split; [|done].
  unfold owns. simpl. split; [unfold k in *; len|]. split; [lia|]. split; [|done].
  replace (Z.to_nat cap - length (take i l ++ ls ++ drop i l))%nat
    with (Z.to_nat cap - (length l + k))%nat by (unfold k in *; len).
  replace (take i l ++ ls ++ drop i l)
    with (take i l ++ (take (length l - i) ls ++ drop (length l - i) ls) ++ drop i l)
    by (by rewrite take_drop).
  rewrite !fmap_app.
  apply cells_at_app. split; [|unfold k in *; frame_cells].
  apply cells_at_app. split; [frame_cells|].
  apply cells_at_app. split.
  - apply cells_at_app. split; [frame_cells|].
    simpl. apply cells_at_write_other; [unfold k in *; len|].
    apply cells_at_write_same_eq. unfold k in *. len.
  - simpl. do 2 (apply cells_at_write_other; [unfold k in *; len|]).
    apply cells_at_write_same_eq. unfold k in *. len.
Qed.

(** In place, strictly inside the old elements. *)
Lemma insert_range_inside a h l ls (i : nat) src :
  owns a h l →
  cells_at (cells h) src (Live <$> ls) →
  src + Z.of_nat (length ls) ≤ data_ (base_type a) ∨
    data_ (base_type a) + capacity_ a ≤ src →
  size_ (base_type a) + Z.of_nat (length ls) < capacity_ a →
  (i + length ls < length l)%nat →
  ∃ h', insert_range (data_ (base_type a) + Z.of_nat i) src (src + Z.of_nat (length ls))
          (a, h)
        = Ok (data_ (base_type a) + Z.of_nat i)
             (resized a (size_ (base_type a) + Z.of_nat (length ls)), h') ∧
        owns (resized a (size_ (base_type a) + Z.of_nat (length ls))) h'
             (take i l ++ ls ++ drop i l) ∧
        blocks h' = blocks h ∧ next h' = next h ∧ limit h' = limit h.
Proof.
  destruct a as [[sz d] cap]. unfold resized. simpl.
  intros Ho Hsrc Hout Hroom Hin.
  pose proof Ho as (Hsz & Hcap & Hc & Hblk & Hnx & Hbelow). simpl in *.
  set (k := length ls) in *.
  unfold insert_range.
  rewrite (bind_Ok _ _ _ _ _ (get_this_run _ h)). unfold begin_, end_.
  cbn [base_type size_ data_ capacity_].
  replace (d + Z.of_nat i - d) with (Z.of_nat i) by lia.
  replace (src + Z.of_nat k - src) with (Z.of_nat k) by lia.
  rewrite (uint_small (Z.of_nat i)) by lia.
  rewrite (uint_small (Z.of_nat k)) by lia.
  rewrite (uint_small (sz + Z.of_nat k)) by lia.
  rewrite (uint_small (Z.of_nat i + Z.of_nat k)) by lia.
  destruct (Z.leb_spec cap (sz + Z.of_nat k)) as [?|_]; [lia|].
  destruct (Z.leb_spec sz (Z.of_nat i + Z.of_nat k)) as [?|_]; [lia|].
  set (diff := (length l - (i + k))%nat).
  replace (sz - (Z.of_nat i + Z.of_nat k)) with (Z.of_nat diff) by lia.
  rewrite (uint_small (Z.of_nat diff)) by lia.
  pose proof (owns_seg_live _ _ _ 0 i Ho) as Hpre.
  pose proof (owns_seg_live _ _ _ i diff Ho) as Hmid.
  pose proof (owns_seg_live _ _ _ i k Ho) as Hgap.
  pose proof (owns_seg_live _ _ _ (i + k) diff Ho) as Hdst.
  pose proof (owns_seg_live _ _ _ (length l - k) k Ho) as Hlast.
  pose proof (owns_seg_raw _ _ _ (length l) k Ho ltac:(lia) ltac:(simpl; lia)) as Hr1.
  pose proof (owns_seg_raw _ _ _ (length l + k) (Z.to_nat cap - (length l + k)) Ho
                ltac:(lia) ltac:(simpl; lia)) as Hr3.
  simpl in Hpre, Hmid, Hgap, Hdst, Hlast, Hr1, Hr3. rewrite drop_0 in Hpre.
  rewrite take_ge in Hlast by (rewrite length_drop; lia).
  set (h1 := set_cells h (write_cells (d + sz) (Live <$> drop (length l - k) l) (cells h))).
  assert (E1 : uninitialized_copy (d + sz - Z.of_nat k) (d + sz) (d + sz) h = Ok tt h1).
  { eapply (uninitialized_copy_spec _ _ _ _ _ (replicate k Raw));
      [len | frame_cells | frame_cells | len | lia]. }
  set (h2 := set_cells h1 (write_cells (d + Z.of_nat (i + k))
                             (Live <$> take diff (drop i l)) (cells h1))).
  assert (E2 : std_copy_backward (d + Z.of_nat i) (d + Z.of_nat i + Z.of_nat diff) (d + sz) h1
               = Ok tt h2).
  { pose proof (std_copy_backward_spec h1 (d + Z.of_nat i) (d + Z.of_nat i + Z.of_nat diff)
                  (d + sz) (take diff (drop i l)) (take diff (drop (i + k) l))) as E.
    replace (d + sz - Z.of_nat (length (take diff (drop i l))))
      with (d + Z.of_nat (i + k)) in E by len.
    apply E; [len | frame_cells | frame_cells | len | lia]. }
  set (h3 := set_cells h2 (write_cells (d + Z.of_nat i) (Live <$> ls) (cells h2))).
  assert (E3 : std_copy src (src + Z.of_nat k) (d + Z.of_nat i) h2 = Ok tt h3).
  { eapply (std_copy_spec _ _ _ _ _ (take k (drop i l))).
    - reflexivity.
    - simpl. do 2 (apply cells_at_write_other; [unfold k in *; len|]). exact Hsrc.
    - frame_cells.
    - unfold k in *; len.
    - lia. }
  erewrite bind_Ok; cycle 1.
  { rewrite (bind_Ok _ _ _ _ _ (on_heap_Ok _ _ _ _ _ E1)).
    rewrite (bind_Ok _ _ _ _ _ (on_heap_Ok _ _ _ _ _ E2)).
    exact (on_heap_Ok _ _ _ _ _ E3). }
  exists h3. split; [reflexivity|]. split; [|done].
  unfold owns. simpl. split; [unfold k in *; len|]. split; [lia|]. split; [|done].
  replace (Z.to_nat cap - length (take i l ++ ls ++ drop i l))%nat
    with (Z.to_nat cap - (length l + k))%nat by (unfold k in *; len).
  replace (take i l ++ ls ++ drop i l)
    with (take i l ++ ls ++ take diff (drop i l) ++ drop (length l - k) l).
  2:{ do 2 f_equal. rewrite <- (take_drop diff (drop i l)) at 2.
      f_equal. rewrite drop_drop. f_equal. lia. }
  rewrite !fmap_app.
  apply cells_at_app. split; [|unfold k in *; frame_cells].
  apply cells_at_app. split; [frame_cells|].
  apply cells_at_app. split.
  { simpl. apply cells_at_write_same_eq. len. }
  apply cells_at_app. split.
  - simpl. apply cells_at_write_other; [unfold k in *; len|].
    apply cells_at_write_same_eq. unfold k in *. len.
  - simpl. do 2 (apply cells_at_write_other; [unfold k in *; len|]).
    apply cells_at_write_same_eq. unfold k in *. len.
Qed.

End InsertRangeLemmas.

(** X19.  [insert(p, i, iend)] of the objects [ls] in the pointer range
    [[i, iend)] at the index [i] of an array that holds [l]:
    - when the new length is at least the capacity (and not 0), the array
      moves to a block of exactly the new length and the old block is
      released; the range may lie anywhere in the allocated memory, also
      inside the array itself;
    - when the new length is less than the capacity and the range lies
      outside the block of the array, the insertion happens in place and
      nothing is allocated.
    Either way the array then holds [l] with [ls] inserted at [i], and
    the result refers to the first inserted element. *)
Theorem insert_range_inserts {T} (a : ArrayVector) (h : heap T) (l ls : list T)
    (i : nat) (src : Z) :
  owns a h l → (i ≤ length l)%nat →
  cells_at (cells h) src (Live <$> ls) →
  src + Z.of_nat (length ls) ≤ next h →
  Z.of_nat (length l) + Z.of_nat (length ls) < 2 ^ 32 →
  (capacity_ a ≤ size_ (base_type a) + Z.of_nat (length ls) →
   0 < size_ (base_type a) + Z.of_nat (length ls) →
   next h + (size_ (base_type a) + Z.of_nat (length ls)) ≤ limit h →
   ∃ a' h',
     insert_range (data_ (base_type a) + Z.of_nat i) src (src + Z.of_nat (length ls))
       (a, h)
     = Ok (data_ (base_type a') + Z.of_nat i) (a', h') ∧
     owns a' h' (take i l ++ ls ++ drop i l) ∧
     capacity_ a' = size_ (base_type a) + Z.of_nat (length ls) ∧
     data_ (base_type a') = next h ∧
     (0 < capacity_ a → blocks h' !! data_ (base_type a) = None)) ∧
  (size_ (base_type a) + Z.of_nat (length ls) < capacity_ a →
   src + Z.of_nat (length ls) ≤ data_ (base_type a) ∨
     data_ (base_type a) + capacity_ a ≤ src →
   ∃ h',
     insert_range (data_ (base_type a) + Z.of_nat i) src (src + Z.of_nat (length ls))
       (a, h)
     = Ok (data_ (base_type a) + Z.of_nat i)
          (resized a (size_ (base_type a) + Z.of_nat (length ls)), h') ∧
     owns (resized a (size_ (base_type a) + Z.of_nat (length ls))) h'
          (take i l ++ ls ++ drop i l) ∧
     blocks h' = blocks h ∧ next h' = next h).
Proof.
  intros Ho Hi Hsrc Hsrclt Hn32. split.
  - intros Hge Hpos Hfit.
    destruct (insert_range_realloc a h l ls i src Ho Hi Hsrc Hsrclt Hn32 Hge Hpos Hfit)
      as (h' & E & Ho' & _ & Hgone).
    exists (mkArray (mkView (size_ (base_type a) + Z.of_nat (length ls)) (next h))
                    (size_ (base_type a) + Z.of_nat (length ls))), h'.
    split; [exact E|]. split; [exact Ho'|]. by simpl.
  - intros Hlt Hout.
    destruct (decide (length l ≤ i + length ls)%nat) as [Hreach|Hin].
    + destruct (insert_range_tail a h l ls i src Ho Hi Hsrc Hout Hlt Hreach)
        as (h' & E & Ho' & Hb & Hn & _).
      by exists h'.
    + destruct (insert_range_inside a h l ls i src Ho Hsrc Hout Hlt ltac:(lia))
        as (h' & E & Ho' & Hb & Hn & _).
      by exists h'.
Qed.

(** The array [1, 2] with capacity 3 and its own two elements inserted
    at index 1 (new block); the array [1, 2] with capacity 5 and the
    elements [7, 8] of another array inserted at index 1 (in place). *)
Lemma insert_range_inserts_witness :
  (∃ a' h', insert_range 2 1 3 (a12r, h12r) = Ok 5 (a', h') ∧
            owns a' h' [1; 1; 2; 2] ∧ capacity_ a' = 4 ∧ blocks h' !! 1 = None) ∧
  (∃ h', insert_range 2 6 8 (a12w, h12w_789) = Ok 2 (mkArray (mkView 4 1) 5, h') ∧
         owns (mkArray (mkView 4 1) 5) h' [1; 7; 8; 2] ∧
         blocks h' = blocks h12w_789).
Proof.
  split.
  - destruct (insert_range_inserts a12r h12r [1; 2] [1; 2] 1 1)
      as [Hre _];
      [example_owns | simpl; lia | simpl; repeat split; reflexivity
      | simpl; lia | simpl; lia |].
    destruct (Hre ltac:(simpl; lia) ltac:(simpl; lia) ltac:(simpl; lia))
      as (a' & h' & E & Ho & Hc & Hd & Hgone).
    exists a', h'. simpl in E. rewrite Hd in E.
    split; [exact E|]. split; [exact Ho|]. split; [exact Hc|].
    apply Hgone. simpl. lia.
  - destruct (insert_range_inserts a12w h12w_789 [1; 2] [7; 8] 1 6)
      as [_ Hin];
      [example_owns | simpl; lia | simpl; repeat split; reflexivity
      | simpl; lia | simpl; lia |].
    destruct (Hin ltac:(simpl; lia) ltac:(simpl; lia)) as (h' & E & Ho & Hb & _).
    by exists h'.
Defined.

(** * The array again: growth and release of the block *)

(** X22.  [reserve(n)] beyond the capacity moves the array: the new
    block is a fresh one and no slot of the old block is allocated any
    more, so that a view of the old elements (the array seen as a view
    before the call, or a subarray of it) no longer refers to objects
    and an access through it is undefined; every other allocated slot
    is unchanged. *)
Theorem reserve_invalidates_views {T} (a : ArrayVector) (h : heap T) (l : list T) (n : Z) :
  owns a h l → capacity_ a < n < 2 ^ 32 → next h + n ≤ limit h →
  ∃ a' h', reserve n (a, h) = Ok tt (a', h') ∧
           owns a' h' l ∧
           data_ (base_type a') = next h ∧
           (∀ i, 0 ≤ i < capacity_ a → operator_index (base_type a) i h' = Undefined) ∧
           (∀ q, q < next h →
                 ¬ (data_ (base_type a) ≤ q < data_ (base_type a) + capacity_ a) →
                 cells h' !! q = cells h !! q).
Proof.
  intros Ho Hn Hfit.
  destruct (reserve_grow a h l n Ho Hn Hfit) as (h' & E & Ho' & _ & _ & Hfreed & Hkept).
  eexists _, h'. split; [exact E|]. split; [exact Ho'|]. split; [done|].
  split; [|exact Hkept].
  intros i Hi. unfold operator_index, load. by rewrite Hfreed by lia.
Qed.

Lemma reserve_invalidates_views_witness :
  ∃ a' h', reserve 5 (a123, h123) = Ok tt (a', h') ∧
           owns a' h' [1; 2; 3] ∧
           data_ (base_type a') = 4 ∧
           operator_index (base_type a123) 0 h' = Undefined.
Proof.
  destruct (reserve_invalidates_views a123 h123 [1; 2; 3] 5)
    as (a' & h' & E & Ho & Hd & Hidx & _);
    [example_owns | simpl; lia | simpl; lia |].
  exists a', h'. split; [exact E|]. split; [exact Ho|]. split; [exact Hd|].
  apply Hidx. simpl. lia.
Defined.

(** X23.  [reserve()] computes the doubled capacity in [unsigned int]:
    on a full array whose capacity is at least [2^31] the product wraps
    around to a value below the capacity and the array does not grow.
    [push_back] then constructs the element one slot past the block,
    which is undefined when that slot is not allocated. *)
Theorem reserve0_wraps_around {T} (a : ArrayVector) (h : heap T) :
  2 ^ 31 ≤ capacity_ a < 2 ^ 32 → size_ (base_type a) = capacity_ a →
  reserve0 (a, h) = Ok tt (a, h) ∧
  (cells h !! (data_ (base_type a) + size_ (base_type a)) = None →
   ∀ t, push_back t (a, h) = Undefined).
Proof.
  intros Hcap Hfull.
  assert (E : reserve0 (a, h) = Ok tt (a, h)).
  { unfold reserve0. rewrite (bind_Ok _ _ _ _ _ (get_this_run _ h)).
    destruct (Z.eqb_spec (capacity_ a) 0) as [?|_]; [lia|].
    destruct (Z.eqb_spec (size_ (base_type a)) (capacity_ a)) as [_|?]; [|lia].
    unfold reserve. rewrite (bind_Ok _ _ _ _ _ (get_this_run _ h)).
    assert (Hw : uint (2 * capacity_ a) = 2 * capacity_ a - 2 ^ 32).
    { unfold uint. symmetry. apply (Z.mod_unique _ _ 1); lia. }
    rewrite Hw. by destruct (Z.leb_spec (2 * capacity_ a - 2 ^ 32) (capacity_ a)); [|lia]. }
  split; [exact E|]. intros Hcell t. unfold push_back.
  rewrite (bind_Ok _ _ _ _ _ E), (bind_Ok _ _ _ _ _ (get_this_run _ h)).
  unfold bind, on_heap, construct. cbn [fst snd].
  destruct t as [x|p]; simpl.
  - by rewrite Hcell.
  - unfold load. destruct (cells h !! p) as [[|w]|]; try done.
    cbn [fst snd]. by rewrite Hcell.
Qed.

Lemma reserve0_wraps_around_witness :
  reserve0 (mkArray (mkView (2 ^ 31) 1) (2 ^ 31), h_empty)
  = Ok tt (mkArray (mkView (2 ^ 31) 1) (2 ^ 31), h_empty) ∧
  push_back (Temp 7) (mkArray (mkView (2 ^ 31) 1) (2 ^ 31), h_empty) = Undefined.
Proof.
  destruct (reserve0_wraps_around (mkArray (mkView (2 ^ 31) 1) (2 ^ 31)) h_empty
              ltac:(simpl; lia) eq_refl) as [E Hpush].
  split; [exact E|]. apply Hpush. reflexivity.
Defined.

(** X24.  The destructor of an array destroys its elements and gives
    the whole block back to the provider: no slot of the block is
    allocated afterwards, the provider's table no longer has the block,
    and every slot outside the block is unchanged.  An array without
    capacity has nothing to release.  A second run of the destructor on
    an array that had a block is undefined. *)
Theorem destructor_releases_block {T} (a : ArrayVector) (h : heap T) (l : list T) :
  owns a h l →
  ∃ h', destructor a h = Ok tt h' ∧
        (∀ q, data_ (base_type a) ≤ q < data_ (base_type a) + capacity_ a →
              cells h' !! q = None) ∧
        (∀ q, ¬ (data_ (base_type a) ≤ q < data_ (base_type a) + capacity_ a) →
              cells h' !! q = cells h !! q) ∧
        (∀ p, p ≠ data_ (base_type a) → blocks h' !! p = blocks h !! p) ∧
        (capacity_ a = 0 → h' = h) ∧
        (0 < capacity_ a →
         blocks h' !! data_ (base_type a) = None ∧ destructor a h' = Undefined).
Proof.
  intros Ho.
  destruct (deallocate_owned a h h l Ho (owns_live _ _ _ Ho) eq_refl)
    as (h' & E & _ & _ & Hfreed & Hkept & Hblocks & Hgone).
  pose proof Ho as (Hsz & Hcap & _ & Hblk & _).
  exists h'. split; [exact E|]. split; [exact Hfreed|]. split; [exact Hkept|].
  split; [exact Hblocks|]. split.
  - intros Hz. destruct Hblk as [[_ Hd]|(? & _)]; [|lia].
    unfold deallocate in E. rewrite Hd in E. simpl in E. by injection E.
  - intros Hpos. split; [by apply Hgone|].
    destruct Hblk as [[? _]|(_ & Hd & _)]; [lia|].
    unfold destructor, deallocate.
    destruct (Z.eqb_spec (data_ (base_type a)) 0) as [?|_]; [lia|]. simpl.
    destruct (Z.to_nat (size_ (base_type a))) as [|k] eqn:Ek.
    + unfold bind, destroy_n. rewrite Ek. simpl.
      unfold alloc_deallocate. by rewrite (Hgone Hpos).
    + apply bind_Undefined. unfold destroy_n. rewrite Ek. simpl.
      apply bind_Undefined. unfold destroy. by rewrite Hfreed by lia.
Qed.

Lemma destructor_releases_block_witness :
  ∃ h', destructor a123 h123 = Ok tt h' ∧
        cells h' !! 2 = None ∧ blocks h' !! 1 = None ∧
        destructor a123 h' = Undefined.
Proof.
  destruct (destructor_releases_block a123 h123 [1; 2; 3] ltac:(example_owns))
    as (h' & E & Hfreed & _ & _ & _ & Hgone).
  destruct (Hgone ltac:(simpl; lia)) as [Hb Htwice].
  exists h'. split; [exact E|]. split; [apply Hfreed; simpl; lia|]. by split.
Defined.

(** * Exceptions *)

Create HintDb no_throw discriminated.

Section ThrowLemmas.
Context {T : Type}.
Implicit Types (h : heap T) (a : ArrayVector).

Lemma no_throw_if {St A} (b : bool) (m1 m2 : M St A) :
  no_throw m1 → no_throw m2 → no_throw (if b then m1 else m2).
Proof. by destruct b. Qed.

Lemma no_throw_undefined {St A} : no_throw (undefined (St:=St) (A:=A)).
Proof. intros s e s'. done. Qed.

Lemma no_throw_store p (v : T) : no_throw (store p v).
Proof. intros h e s'. unfold store. by destruct (cells h !! p) as [[|?]|]. Qed.

Lemma no_throw_deref (t : cref T) : no_throw (deref t).
Proof. destruct t; [apply no_throw_ret|apply no_throw_load]. Qed.

Lemma no_throw_distance first last : no_throw (distance (T:=T) first last).
Proof. intros h e s'. unfold distance. by destruct (last <? first). Qed.

Lemma no_throw_get_this : no_throw (get_this (T:=T)).
Proof. intros s e s'. done. Qed.

Lemma no_throw_set_size_ n : no_throw (set_size_ (T:=T) n).
Proof. intros s e s'. done. Qed.

Lemma no_throw_set_data_ p : no_throw (set_data_ (T:=T) p).
Proof. intros s e s'. done. Qed.

Lemma no_throw_set_capacity_ n : no_throw (set_capacity_ (T:=T) n).
Proof. intros s e s'. done. Qed.

Hint Resolve no_throw_ret no_throw_if no_throw_undefined no_throw_load
  no_throw_store no_throw_construct no_throw_destroy no_throw_deref
  no_throw_distance no_throw_get_this no_throw_set_size_ no_throw_set_data_
  no_throw_set_capacity_ no_throw_on_heap no_throw_deallocate
  no_throw_uninitialized_copy : no_throw.

(** A sequence of steps none of which throws. *)
Ltac no_throw_steps :=
  repeat first
    [ progress auto with no_throw
    | apply no_throw_bind; [|intros ?]
    | apply no_throw_if
    | apply no_throw_on_heap ].

Lemma no_throw_copy_loop n first d : no_throw (copy_loop (T:=T) n first d).
Proof. revert first d. induction n as [|n IH]; intros first d; simpl; no_throw_steps. Qed.

Lemma no_throw_copy_backward_loop n last d :
  no_throw (copy_backward_loop (T:=T) n last d).
Proof. revert last d. induction n as [|n IH]; intros last d; simpl; no_throw_steps. Qed.

Lemma no_throw_fill_loop n first (v : cref T) : no_throw (fill_loop n first v).
Proof. revert first. induction n as [|n IH]; intros first; simpl; no_throw_steps. Qed.

Lemma no_throw_uninitialized_fill_loop n first (v : cref T) :
  no_throw (uninitialized_fill_loop n first v).
Proof. revert first. induction n as [|n IH]; intros first; simpl; no_throw_steps. Qed.

Lemma no_throw_destroy_loop n p : no_throw (destroy_loop (T:=T) n p).
Proof. revert p. induction n as [|n IH]; intros p; simpl; no_throw_steps. Qed.

Hint Resolve no_throw_copy_loop no_throw_copy_backward_loop no_throw_fill_loop
  no_throw_uninitialized_fill_loop no_throw_destroy_loop : no_throw.

Lemma no_throw_std_copy first last d : no_throw (std_copy (T:=T) first last d).
Proof. unfold std_copy. no_throw_steps. Qed.

Lemma no_throw_std_copy_backward first last d :
  no_throw (std_copy_backward (T:=T) first last d).
Proof. unfold std_copy_backward. no_throw_steps. Qed.

Lemma no_throw_std_fill first last (v : cref T) : no_throw (std_fill first last v).
Proof. unfold std_fill. no_throw_steps. Qed.

Lemma no_throw_uninitialized_fill first last (v : cref T) :
  no_throw (uninitialized_fill first last v).
Proof. unfold uninitialized_fill. no_throw_steps. Qed.

Lemma no_throw_destroy_n p n : no_throw (destroy_n (T:=T) p n).
Proof. unfold destroy_n. no_throw_steps. Qed.

Hint Resolve no_throw_std_copy no_throw_std_copy_backward no_throw_std_fill
  no_throw_uninitialized_fill no_throw_destroy_n : no_throw.

Lemma no_throw_pop_back : no_throw (pop_back (T:=T)).
Proof. unfold pop_back. no_throw_steps. Qed.

Lemma no_throw_erase_range p q : no_throw (erase_range (T:=T) p q).
Proof. unfold erase_range. no_throw_steps. Qed.

Hint Resolve no_throw_pop_back no_throw_erase_range : no_throw.

Lemma throws_unchanged_no_throw {St A} (m : M St A) :
  no_throw m → throws_unchanged m.
Proof. intros Hm s e s' E. by destruct (Hm s e s'). Qed.

Lemma throws_unchanged_bind {St A B} (m : M St A) (k : A → M St B) :
  throws_unchanged m → (∀ x, no_throw (k x)) → throws_unchanged (bind m k).
Proof.
  intros Hm Hk s e s'. unfold bind. specialize (Hm s).
  destruct (m s) as [x s1|e1 s1|]; [|by intros [= <- <-]; apply Hm|done].
  intros E. by destruct (Hk x s1 e s').
Qed.

Lemma throws_unchanged_get_this {A} (k : ArrayVector → M (St (T:=T)) A) :
  (∀ a, throws_unchanged (k a)) → throws_unchanged (bind get_this k).
Proof. intros Hk s e s'. unfold bind, get_this. apply Hk. Qed.

Lemma throws_unchanged_if {St A} (b : bool) (m1 m2 : M St A) :
  throws_unchanged m1 → throws_unchanged m2 → throws_unchanged (if b then m1 else m2).
Proof. by destruct b. Qed.

Lemma throws_unchanged_reserve_raw n :
  throws_unchanged (on_heap (reserve_raw (T:=T) n)).
Proof.
  intros [a h] e s'. unfold on_heap. simpl.
  destruct (reserve_raw n h) as [d h1|e1 h1|] eqn:Er; [done| |done].
  intros [= <- <-]. apply reserve_raw_throw in Er as [-> ->]. done.
Qed.

Lemma throws_unchanged_reserve n : throws_unchanged (reserve (T:=T) n).
Proof.
  unfold reserve. apply throws_unchanged_get_this. intros a.
  apply throws_unchanged_if; [apply throws_unchanged_no_throw; no_throw_steps|].
  apply throws_unchanged_bind; [apply throws_unchanged_reserve_raw|].
  intros d. no_throw_steps.
Qed.

Lemma throws_unchanged_reserve0 : throws_unchanged (reserve0 (T:=T)).
Proof.
  unfold reserve0. apply throws_unchanged_get_this. intros a.
  repeat apply throws_unchanged_if; try apply throws_unchanged_reserve.
  apply throws_unchanged_no_throw. no_throw_steps.
Qed.

Lemma throws_unchanged_push_back (t : cref T) : throws_unchanged (push_back t).
Proof.
  unfold push_back.
  apply throws_unchanged_bind; [apply throws_unchanged_reserve0|].
  intros _. no_throw_steps.
Qed.

Lemma throws_unchanged_insert_n p n (v : cref T) : throws_unchanged (insert_n p n v).
Proof.
  unfold insert_n. apply throws_unchanged_get_this. intros a.
  apply throws_unchanged_bind; [|intros _; no_throw_steps].
  apply throws_unchanged_if.
  - apply throws_unchanged_bind; [apply throws_unchanged_reserve_raw|].
    intros d. no_throw_steps.
  - apply throws_unchanged_no_throw. no_throw_steps.
Qed.

Lemma throws_unchanged_insert p (v : cref T) : throws_unchanged (insert p v).
Proof.
  unfold insert. apply throws_unchanged_get_this. intros a.
  apply throws_unchanged_if.
  - apply throws_unchanged_bind; [apply throws_unchanged_push_back|].
    intros _. no_throw_steps.
  - apply throws_unchanged_bind; [apply throws_unchanged_push_back|].
    intros _. no_throw_steps.
Qed.

Lemma throws_unchanged_insert_range p i iend :
  throws_unchanged (insert_range (T:=T) p i iend).
Proof.
  unfold insert_range. apply throws_unchanged_get_this. intros a.
  apply throws_unchanged_bind; [|intros _; no_throw_steps].
  apply throws_unchanged_if.
  - apply throws_unchanged_bind; [apply throws_unchanged_reserve_raw|].
    intros d. no_throw_steps.
  - apply throws_unchanged_no_throw. no_throw_steps.
Qed.

Lemma throws_unchanged_resize n (v : cref T) : throws_unchanged (resize n v).
Proof.
  unfold resize. apply throws_unchanged_get_this. intros a.
  apply throws_unchanged_if; [apply throws_unchanged_no_throw; no_throw_steps|].
  apply throws_unchanged_if; [|apply throws_unchanged_no_throw; no_throw_steps].
  apply throws_unchanged_bind; [apply throws_unchanged_insert_n|].
  intros _. no_throw_steps.
Qed.

Lemma no_throw_copyImpl this rhs :
  size_ this = size_ rhs → no_throw (copyImpl (T:=T) this rhs).
Proof.
  intros Hsz. unfold copyImpl. rewrite Hsz, Z.eqb_refl.
  apply no_throw_bind; [intros s e s'; done|]. intros _. no_throw_steps.
Qed.

Lemma reserve_raw_exhausted n h e h' :
  reserve_raw (T:=T) n h = Throw e h' →
  e = MemoryExhaustion ∧ h' = h ∧ limit h < next h + n.
Proof.
  unfold reserve_raw, allocate.
  destruct (negb (n =? 0)); [|done].
  destruct (Z.leb_spec (next h + n) (limit h)); [done|]. by intros [= <- <-].
Qed.

Lemma ArrayVector_from_view_throw (v : ArrayVectorView) h e h' :
  ArrayVector_from_view (T:=T) v h = Throw e h' →
  e = MemoryExhaustion ∧ h' = h ∧ limit h < next h + size_ v.
Proof.
  unfold ArrayVector_from_view. unfold bind at 1.
  destruct (reserve_raw (size_ v) h) as [d h1|e1 h1|] eqn:Er.
  - intros E. exfalso. revert E. apply no_throw_bind; [|intros; apply no_throw_ret].
    no_throw_steps.
  - intros [= <- <-]. by apply reserve_raw_exhausted in Er.
  - done.
Qed.

Lemma throws_unchanged_operator_assign_view (rhs : ArrayVectorView) :
  throws_unchanged (operator_assign_view (T:=T) rhs).
Proof.
  unfold operator_assign_view. apply throws_unchanged_get_this. intros a.
  destruct (Z.eqb_spec (size_ (base_type a)) (size_ rhs)) as [Heq|Hne].
  - apply throws_unchanged_no_throw, no_throw_on_heap. by apply no_throw_copyImpl.
  - apply throws_unchanged_bind.
    + intros [a0 h] e s'. unfold on_heap. simpl.
      destruct (ArrayVector_from_view rhs h) as [t h1|e1 h1|] eqn:Ev; [done| |done].
      intros [= <- <-]. apply ArrayVector_from_view_throw in Ev as (-> & -> & _). done.
    + intros t. apply no_throw_bind; [intros s e s'; done|]. intros t'.
      apply no_throw_on_heap, no_throw_deallocate.
Qed.

End ThrowLemmas.

(** X25.  For an element type whose copy construction, assignment and
    destruction throw no exception, the member functions that can take
    a new block ([reserve], [push_back], the three [insert]s, [resize]
    and the assignment from a view) ask the provider for the block
    before they change anything: whatever the array and the memory, an
    exception that leaves one of them is the provider's
    [MemoryExhaustion], and the array and the whole memory are as they
    were before the call. *)
Theorem growth_fails_unchanged {T} :
  (∀ n, throws_unchanged (reserve (T:=T) n)) ∧
  (∀ t : cref T, throws_unchanged (push_back t)) ∧
  (∀ p (t : cref T), throws_unchanged (insert p t)) ∧
  (∀ p n (t : cref T), throws_unchanged (insert_n p n t)) ∧
  (∀ p i iend, throws_unchanged (insert_range (T:=T) p i iend)) ∧
  (∀ n (t : cref T), throws_unchanged (resize n t)) ∧
  (∀ rhs, throws_unchanged (operator_assign_view (T:=T) rhs)).
Proof.
  split; [exact throws_unchanged_reserve|].
  split; [exact throws_unchanged_push_back|].
  split; [exact throws_unchanged_insert|].
  split; [exact throws_unchanged_insert_n|].
  split; [exact throws_unchanged_insert_range|].
  split; [exact throws_unchanged_resize|].
  exact throws_unchanged_operator_assign_view.
Qed.

(** [push_back], [insert] and [resize] on the full array [1, 2] when the
    provider has one slot left. *)
Lemma growth_fails_unchanged_witness :
  push_back (Temp 7) (a12, h_two 7) = Throw MemoryExhaustion (a12, h_two 7) ∧
  insert 3 (Temp 7) (a12, h_two 7) = Throw MemoryExhaustion (a12, h_two 7) ∧
  resize 4 (Temp 7) (a12, h_two 7) = Throw MemoryExhaustion (a12, h_two 7).
Proof.
  destruct (@growth_fails_unchanged Z) as (_ & Hpush & Hins & _ & _ & Hres & _).
  split; [|split].
  - destruct (push_back (Temp 7) (a12, h_two 7)) as [x s|e s|] eqn:E;
      [by vm_compute in E| |by vm_compute in E].
    by destruct (Hpush _ _ _ _ E) as [-> ->].
  - destruct (insert 3 (Temp 7) (a12, h_two 7)) as [x s|e s|] eqn:E;
      [by vm_compute in E| |by vm_compute in E].
    by destruct (Hins _ _ _ _ _ E) as [-> ->].
  - destruct (resize 4 (Temp 7) (a12, h_two 7)) as [x s|e s|] eqn:E;
      [by vm_compute in E| |by vm_compute in E].
    by destruct (Hres _ _ _ _ _ E) as [-> ->].
Defined.
